(** * S-parameter vectors, S-parameter models and SWD symbols of libscopehal

    A shallow embedding of [SWDSymbol] (scopeprotocols/SWDDecoder.h) and of
    [SParameterVector] and [SParameters] (the implementation that follows
    it in the same source file), with the properties of their interpolation,
    cascading, allocation and Touchstone export.

    The numeric code is embedded twice.
    - The module [IEEE] reads [float] as the binary32 and [double] as the
      binary64 format of IEEE 754, on the [spec_float] of the Standard
      Library.  Every arithmetic operation of the source is one
      operation of its C++ type, rounded to nearest with ties to even: an
      operation on two [float]s is a [float] operation, a [float] that
      meets a [double] is promoted exactly, the assignment of a [double]
      to a [float] rounds; no operation is fused with another or kept in
      a wider format.  A comparison with NaN is false.  [%f] prints the
      exact value of a [double] rounded at the sixth decimal.  The
      properties of the values computed and of the text written are
      stated on this module.
    - The definitions outside [IEEE] read [float] and [double] as exact
      rationals ([Q]): the arithmetic of the source is kept operation by
      operation, its rounding, its infinities and its NaN are left out,
      and a division is only meaningful for a divisor different from
      zero.  They carry the properties of control flow, of bounds and of
      memory, which no rounding touches, and the properties that are
      stated over exact arithmetic.
    Conventions common to both.
    - [size_t] values are integers in [0, 2^64) and every [size_t]
      operation wraps modulo [2^64].
    - An access [v[i]] outside the bounds of a [std::vector], and the
      dereference of [map::find(...)->second] for a missing key, are
      faults: the functions return in the [result] monad below. *)

From Stdlib Require Import ZArith QArith Qabs Qround Lia Lqa.
From Stdlib Require Import String Ascii List.
From Stdlib Require Import Floats.SpecFloat.
From stdpp Require Import base option list gmap strings.

Set Warnings "-clear-no-such-hyp".

Local Open Scope Z_scope.

(* ===================================================================== *)
(** ** The result monad *)
(* ===================================================================== *)

(** [Ret a]: the call returns [a].  [Fault]: the call performs an access
    that C++ leaves undefined.  [Timeout]: the fuel given to a loop ran
    out before the loop left. *)
Inductive result (A : Type) : Type :=
  | Ret (a : A)
  | Fault
  | Timeout.
Arguments Ret {A} a.
Arguments Fault {A}.
Arguments Timeout {A}.

#[global] Instance result_ret : MRet result := fun _ a => Ret a.
#[global] Instance result_bind : MBind result := fun _ _ f r =>
  match r with
  | Ret a => f a
  | Fault => Fault
  | Timeout => Timeout
  end.

(* ===================================================================== *)
(** ** Numbers *)
(* ===================================================================== *)

(** [size_t] arithmetic. *)
Definition SIZE_MODULUS : Z := 2 ^ 64.
Definition wrap (z : Z) : Z := z mod SIZE_MODULUS.

(** [M_PI] of <math.h>: the double [0x400921FB54442D18], that is
    [884279719003555 / 2^48]. *)
Definition M_PI : Q := 884279719003555 # 281474976710656.

(** [FLT_EPSILON] of <cfloat>: [2^-23]. *)
Definition FLT_EPSILON : Q := 1 # 8388608.

(** The comparisons [a < b] and [a > b] on floats. *)
Definition Qltb (a b : Q) : bool := negb (Qle_bool b a).
Definition Qgtb (a b : Q) : bool := Qltb b a.

(* ===================================================================== *)
(** ** SWDSymbol *)
(* ===================================================================== *)

Module SWDSymbol.

Inductive stype : Type :=
  | TYPE_START
  | TYPE_LINERESET
  | TYPE_AP_NDP
  | TYPE_R_NW
  | TYPE_ADDRESS
  | TYPE_PARITY_OK
  | TYPE_PARITY_BAD
  | TYPE_STOP
  | TYPE_PARK
  | TYPE_TURNAROUND
  | TYPE_ACK
  | TYPE_DATA
  | TYPE_SWDTOJTAG
  | TYPE_JTAGTOSWD
  | TYPE_SWDTODORMANT
  | TYPE_LEAVEDORMANT
  | TYPE_ERROR.

(** The enumerators number from 0 in declaration order; [==] on the
    enumeration compares these numbers. *)
Definition stype_value (t : stype) : Z :=
  match t with
  | TYPE_START => 0
  | TYPE_LINERESET => 1
  | TYPE_AP_NDP => 2
  | TYPE_R_NW => 3
  | TYPE_ADDRESS => 4
  | TYPE_PARITY_OK => 5
  | TYPE_PARITY_BAD => 6
  | TYPE_STOP => 7
  | TYPE_PARK => 8
  | TYPE_TURNAROUND => 9
  | TYPE_ACK => 10
  | TYPE_DATA => 11
  | TYPE_SWDTOJTAG => 12
  | TYPE_JTAGTOSWD => 13
  | TYPE_SWDTODORMANT => 14
  | TYPE_LEAVEDORMANT => 15
  | TYPE_ERROR => 16
  end.

(** [m_data] is a [uint32_t]: the constructor argument is reduced
    modulo [2^32]. *)
Definition uint32 (d : Z) : Z := d mod 2 ^ 32.

Record t : Type := mk { m_stype : stype; m_data : Z }.

(** [SWDSymbol(stype t, uint32_t d)]. *)
Definition make (ty : stype) (d : Z) : t :=
  {| m_stype := ty; m_data := uint32 d |}.

(** The payload of a symbol is a 32-bit value. *)
Definition wf (a : t) : Prop := 0 <= m_data a < 2 ^ 32.

(** [operator==]. *)
Definition eqb (a s : t) : bool :=
  (stype_value (m_stype a) =? stype_value (m_stype s))
  && (m_data a =? m_data s).

End SWDSymbol.

(* ===================================================================== *)
(** ** SParameterPoint and SParameterVector *)
(* ===================================================================== *)

(** Modelled from the spec: the class [SParameterPoint] is declared in
    the class header; a point is "{frequency: float (Hz), amplitude: float
    (linear ratio, not dB), phase: float (radians)}", built in this order
    by [SParameterPoint(frequency, amplitude, phase)]. *)
Record SParameterPoint : Type := mkPoint {
  m_frequency : Q;
  m_amplitude : Q;
  m_phase : Q
}.

(** [m_points], a [std::vector<SParameterPoint>]. *)
Abbreviation SParameterVector := (list SParameterPoint).

(** [m_points.size()]. *)
Definition size_of (m_points : SParameterVector) : Z :=
  Z.of_nat (length m_points).

(** [m_points[i]] for a [size_t] index. *)
Definition at_ (m_points : SParameterVector) (i : Z) : result SParameterPoint :=
  if (0 <=? i) && (i <? size_of m_points) then
    match m_points !! Z.to_nat i with
    | Some p => Ret p
    | None => Fault
    end
  else Fault.

(** A vector holds fewer than [2^64] points. *)
Definition representable (m_points : SParameterVector) : Prop :=
  size_of m_points < SIZE_MODULUS.

(** [InterpolatePhase], over exact arithmetic; [IEEE.InterpolatePhase]
    is the single-precision one. *)
Definition InterpolatePhase (phase_lo phase_hi frac : Q) : Q :=
  let '(phase_lo, phase_hi) :=
    if Qgtb (Qabs (phase_lo - phase_hi)) M_PI then
      if Qltb phase_lo phase_hi
      then ((phase_lo + 2 * M_PI)%Q, phase_hi)
      else (phase_lo, (phase_hi + 2 * M_PI)%Q)
    else (phase_lo, phase_hi) in
  let ret := (phase_lo + (phase_hi - phase_lo) * frac)%Q in
  if Qgtb ret (2 * M_PI) then (ret - 2 * M_PI)%Q else ret.

(** The [while(true)] loop of [InterpolatePoint], on the loop variables
    [pos], [last_lo], [last_hi].  It returns the final
    [(last_lo, last_hi)]. *)
Fixpoint search_loop (fuel : nat) (m_points : SParameterVector) (frequency : Q)
    (pos last_lo last_hi : Z) : result (Z * Z) :=
  match fuel with
  | O => Timeout
  | S fuel' =>
      pivot ← at_ m_points pos;
      if wrap (last_hi - last_lo) <=? 1 then Ret (last_lo, last_hi)
      else if Qgtb (m_frequency pivot) frequency then
        let delta := wrap (pos - last_lo) in
        search_loop fuel' m_points frequency
          (wrap (last_lo + delta / 2)) last_lo pos
      else
        let delta := wrap (last_hi - pos) in
        search_loop fuel' m_points frequency
          (wrap (last_hi - delta / 2)) pos last_hi
  end.

(** The interpolation that follows the loop, over exact arithmetic;
    [IEEE.interpolate_between] is the single-precision one. *)
Definition interpolate_between (m_points : SParameterVector) (frequency : Q)
    (last_lo last_hi : Z) : result SParameterPoint :=
  p_lo ← at_ m_points last_lo;
  p_hi ← at_ m_points last_hi;
  let freq_lo := m_frequency p_lo in
  let freq_hi := m_frequency p_hi in
  let dfreq := (freq_hi - freq_lo)%Q in
  let frac := if Qgtb dfreq FLT_EPSILON
              then ((frequency - freq_lo) / dfreq)%Q else 0%Q in
  let amp_lo := m_amplitude p_lo in
  let amp_hi := m_amplitude p_hi in
  Ret {| m_frequency := frequency;
         m_amplitude := (amp_lo + (amp_hi - amp_lo) * frac)%Q;
         m_phase := InterpolatePhase (m_phase p_lo) (m_phase p_hi) frac |}.

(** [InterpolatePoint], with the fuel of its loop as a parameter. *)
Definition InterpolatePoint_fuel (fuel : nat) (m_points : SParameterVector)
    (frequency : Q) : result SParameterPoint :=
  let len := size_of m_points in
  let pos := len / 2 in
  let last_lo := 0 in
  let last_hi := wrap (len - 1) in
  first ← at_ m_points 0;
  if Qltb frequency (m_frequency first) then
    let phase := InterpolatePhase 0 (m_phase first)
                   (frequency / m_frequency first) in
    Ret {| m_frequency := frequency;
           m_amplitude := m_amplitude first;
           m_phase := phase |}
  else
    last ← at_ m_points (wrap (len - 1));
    if Qgtb frequency (m_frequency last) then
      Ret {| m_frequency := frequency; m_amplitude := 0; m_phase := 0 |}
    else
      '(last_lo, last_hi) ← search_loop fuel m_points frequency pos last_lo last_hi;
      interpolate_between m_points frequency last_lo last_hi.

(** [InterpolatePoint]: the loop never needs more iterations than the
    vector has points ([InterpolatePoint_fuel_irrelevant] below). *)
Definition InterpolatePoint (m_points : SParameterVector) (frequency : Q)
    : result SParameterPoint :=
  InterpolatePoint_fuel (length m_points) m_points frequency.

(** [InterpolateMagnitude] and [InterpolateAngle]. *)
Definition InterpolateMagnitude (m_points : SParameterVector) (frequency : Q)
    : result Q :=
  p ← InterpolatePoint m_points frequency; Ret (m_amplitude p).

Definition InterpolateAngle (m_points : SParameterVector) (frequency : Q)
    : result Q :=
  p ← InterpolatePoint m_points frequency; Ret (m_phase p).

(** One iteration of the loop of [operator*=]: the update of the point
    [us] against the right-hand side [rhs], over exact arithmetic;
    [IEEE.cascade_point] is the single-precision one. *)
Definition cascade_point (rhs : SParameterVector) (us : SParameterPoint)
    : result SParameterPoint :=
  point ← InterpolatePoint rhs (m_frequency us);
  let phase := (m_phase us + m_phase point)%Q in
  let phase := if Qltb phase (- M_PI) then (phase + 2 * M_PI)%Q else phase in
  let phase := if Qgtb phase M_PI then (phase - 2 * M_PI)%Q else phase in
  Ret {| m_frequency := m_frequency us;
         m_amplitude := (m_amplitude us * m_amplitude point)%Q;
         m_phase := phase |}.

(** The [for] loop of [operator*=]: [todo] iterations are left, the next
    one is at index [i]; [m_points] is updated in place. *)
Fixpoint cascade_loop (todo : nat) (i : Z) (m_points rhs : SParameterVector)
    : result SParameterVector :=
  match todo with
  | O => Ret m_points
  | S todo' =>
      us ← at_ m_points i;
      us' ← cascade_point rhs us;
      cascade_loop todo' (wrap (i + 1)) (<[Z.to_nat i := us']> m_points) rhs
  end.

(** [SParameterVector::operator*=]; [rhs] is an object other than
    [*this]. *)
Definition mul_assign (m_points rhs : SParameterVector)
    : result SParameterVector :=
  cascade_loop (length m_points) 0 m_points rhs.

(** [GetGroupDelay], over exact arithmetic: its guard and its two reads
    are those of the source; the value returned is meaningful for two
    different frequencies only ([IEEE.GetGroupDelay] is the
    single-precision one, where a division by zero gives an infinity or
    NaN). *)
Definition GetGroupDelay (m_points : SParameterVector) (bin : Z) : result Q :=
  if size_of m_points <=? wrap (bin + 1) then Ret 0%Q
  else
    a ← at_ m_points bin;
    b ← at_ m_points (wrap (wrap (bin + 1) + 1));
    let dfreq := ((m_frequency b - m_frequency a) * 2 * M_PI)%Q in
    Ret ((m_phase a - m_phase b) / dfreq)%Q.

(* ===================================================================== *)
(** ** SParameters *)
(* ===================================================================== *)

(** The free store: the vectors made by [new SParameterVector], by
    address. *)
Abbreviation store := (gmap positive SParameterVector).

(** Modelled from the spec: the members of [SParameters] are declared in
    the class header; the model is "a mapping keyed by ordered port-pair
    (destination, source), both 1-indexed, unique keys" with a
    "port_count field".  [m_params] is a
    [std::map<SPair, SParameterVector*>]: its keys are pairs of [int], its
    values addresses in the store. *)
Record SParameters : Type := mkSParameters {
  m_params : gmap (Z * Z) positive;
  m_nports : Z
}.

(** [SParameters::SParameters()]. *)
Definition SParameters_new : SParameters :=
  {| m_params := ∅; m_nports := 0 |}.

(** [new SParameterVector]: a fresh address, holding an empty vector. *)
Definition new_SParameterVector (h : store) : positive * store :=
  let l := fresh (dom h) in (l, <[l := []]> h).

(** [delete p]. *)
Definition delete_vector (h : store) (p : positive) : result store :=
  match h !! p with
  | Some _ => Ret (delete p h)
  | None => Fault
  end.

Fixpoint delete_all (h : store) (ps : list positive) : result store :=
  match ps with
  | [] => Ret h
  | p :: ps' => h' ← delete_vector h p; delete_all h' ps'
  end.

(** [Clear]. *)
Definition Clear (st : store * SParameters) : result (store * SParameters) :=
  let '(h, this) := st in
  h' ← delete_all h (snd <$> map_to_list (m_params this));
  Ret (h', {| m_params := ∅; m_nports := m_nports this |}).

(** The body of the inner loop of [Allocate]:
    [m_params[SPair(d, s)] = new SParameterVector]. *)
Definition Allocate_entry (st : store * gmap (Z * Z) positive) (d s : Z)
    : store * gmap (Z * Z) positive :=
  let '(l, h') := new_SParameterVector st.1 in
  (h', <[(d, s) := l]> st.2).

(** The inner loop of [Allocate], [s] from [1] to [nports]. *)
Definition Allocate_row (nports : Z) (st : store * gmap (Z * Z) positive)
    (d : Z) : store * gmap (Z * Z) positive :=
  foldl (fun st s => Allocate_entry st d s) st (seqZ 1 nports).

(** [Allocate]: the counters [d] and [s] stay below [INT_MAX] for every
    port count whose [nports * nports] vectors can exist.  The field
    [m_nports] receives [nports]. *)
Definition Allocate (nports : Z) (st : store * SParameters)
    : store * SParameters :=
  let '(h, this) := st in
  let '(h', params') :=
    foldl (Allocate_row nports) (h, m_params this) (seqZ 1 nports) in
  (h', {| m_params := params'; m_nports := nports |}).

(** Modelled from the spec: [SParameters::operator[](SPair)] is declared
    in the class header; the model is a "mapping keyed by ordered
    port-pair ... to an owned Frequency-Response Vector", so the operator
    yields the vector stored for the pair.  An absent pair, or an address
    that is not in the store, is a fault. *)
Definition index (st : store * SParameters) (pair : Z * Z)
    : result SParameterVector :=
  match m_params st.2 !! pair with
  | Some p => match st.1 !! p with
              | Some v => Ret v
              | None => Fault
              end
  | None => Fault
  end.

(** Modelled from the spec: the enumeration [ParameterFormat] is declared
    in the class header; only "magnitude-angle" and "any other requested
    format" are told apart. *)
Inductive ParameterFormat : Type :=
  | FORMAT_MAG_ANGLE
  | FORMAT_other (raw : Z).

(** Modelled from the spec: the enumeration [FreqUnit] is declared in the
    class header; "<unit> ∈ {Hz, kHz, MHz, GHz}" with "any unrecognized
    unit value" besides. *)
Inductive FreqUnit : Type :=
  | FREQ_HZ
  | FREQ_KHZ
  | FREQ_MHZ
  | FREQ_GHZ
  | FREQ_unrecognized (raw : Z).

Definition is_mag_angle (format : ParameterFormat) : bool :=
  match format with
  | FORMAT_MAG_ANGLE => true
  | FORMAT_other _ => false
  end.

(** *** The environment of [SaveToFile] *)

Inductive LogEntry : Type :=
  | LogError (msg : string)
  | LogWarning (msg : string).

(** The files by path, the messages logged so far (oldest first), and
    whether [fopen(path, "w")] succeeds. *)
Record World : Type := mkWorld {
  files : gmap string string;
  logged : list LogEntry;
  can_open : string -> bool
}.

Definition log (e : LogEntry) (w : World) : World :=
  {| files := files w; logged := logged w ++ [e]; can_open := can_open w |}.

Definition write_file (path contents : string) (w : World) : World :=
  {| files := <[path := contents]> (files w);
     logged := logged w;
     can_open := can_open w |}.

(** *** [fprintf] *)

Definition newline : string := String "010"%char EmptyString.
Definition space : ascii := " "%char.

(** Rounding of a non-negative rational to an integer, to nearest, the
    ties to even. *)
Definition round_half_even (x : Q) : Z :=
  let n := Qnum x in
  let d := Z.pos (Qden x) in
  let q := n / d in
  let r := n mod d in
  if 2 * r <? d then q
  else if d <? 2 * r then q + 1
  else if Z.even q then q else q + 1.

Definition digit (d : Z) : ascii := ascii_of_nat (48 + Z.to_nat (d mod 10)).

(** The [n] low decimal digits of [z], the most significant first. *)
Fixpoint fixed_digits (n : nat) (z : Z) : string :=
  match n with
  | O => EmptyString
  | S n' => fixed_digits n' (z / 10) +:+ String (digit z) EmptyString
  end.

(** The decimal digits of [z >= 0], without leading zeros. *)
Fixpoint uint_digits (u : Decimal.uint) : string :=
  match u with
  | Decimal.Nil => EmptyString
  | Decimal.D0 u => String "0" (uint_digits u)
  | Decimal.D1 u => String "1" (uint_digits u)
  | Decimal.D2 u => String "2" (uint_digits u)
  | Decimal.D3 u => String "3" (uint_digits u)
  | Decimal.D4 u => String "4" (uint_digits u)
  | Decimal.D5 u => String "5" (uint_digits u)
  | Decimal.D6 u => String "6" (uint_digits u)
  | Decimal.D7 u => String "7" (uint_digits u)
  | Decimal.D8 u => String "8" (uint_digits u)
  | Decimal.D9 u => String "9" (uint_digits u)
  end.

Definition int_digits (z : Z) : string := uint_digits (N.to_uint (Z.to_N z)).

(** The conversion [%f]: sign, integer digits, a point and six decimals,
    the value rounded at the sixth decimal. *)
Definition fmt_f (x : Q) : string :=
  let m := round_half_even (Qabs x * 1000000) in
  (if Qltb x 0 then "-" else "")
  +:+ int_digits (m / 1000000) +:+ "." +:+ fixed_digits 6 (m mod 1000000).

(** [fprintf(fp, "# %s S MA R 50.000\n", freqText)]. *)
Definition header_line (freqText : string) : string :=
  "# " +:+ freqText +:+ " S MA R 50.000" +:+ newline.

(** The arguments of the [fprintf] of one data line, in order, over
    exact arithmetic; [IEEE.line_values] holds the single-precision
    products that the source prints. *)
Definition line_values (freqScale rad2deg : Q) (p11 p21 p12 p22 : SParameterPoint)
    : list Q :=
  [ (m_frequency p11 * freqScale)%Q;
    m_amplitude p11; (m_phase p11 * rad2deg)%Q;
    m_amplitude p21; (m_phase p21 * rad2deg)%Q;
    m_amplitude p12; (m_phase p12 * rad2deg)%Q;
    m_amplitude p22; (m_phase p22 * rad2deg)%Q ].

(** The fields of a line joined by single spaces. *)
Fixpoint join_fields (fs : list string) : string :=
  match fs with
  | [] => EmptyString
  | [f] => f
  | f :: fs' => f +:+ String space (join_fields fs')
  end.

(** [fprintf(fp, "%f %f %f %f %f %f %f %f %f\n", ...)]. *)
Definition data_line (vals : list Q) : string :=
  join_fields (fmt_f <$> vals) +:+ newline.

(** The [switch] on [freqUnit]. *)
Definition freq_text (freqUnit : FreqUnit) : string :=
  match freqUnit with
  | FREQ_HZ => "Hz"
  | FREQ_KHZ => "kHz"
  | FREQ_MHZ => "MHz"
  | FREQ_GHZ | FREQ_unrecognized _ => "GHz"
  end.

Definition freq_scale (freqUnit : FreqUnit) : Q :=
  match freqUnit with
  | FREQ_HZ => 1
  | FREQ_KHZ => 1 # 1000
  | FREQ_MHZ => 1 # 1000000
  | FREQ_GHZ | FREQ_unrecognized _ => 1 # 1000000000
  end.

(** Modelled from the spec: [SParameterVector::operator[](size_t)] and
    [SParameterVector::size()] are declared in the class header; a vector
    is "an ordered sequence of Frequency-Response Points", so they are the
    access to a point of [m_points] and the number of its points. *)
Definition point_at (v : SParameterVector) (i : Z) : result SParameterPoint :=
  at_ v i.
Definition points (v : SParameterVector) : nat := length v.

(** The [for] loop of [SaveToFile]: [todo] lines are left, the next one
    is for index [i]; [fp] is what the file holds so far. *)
Fixpoint write_lines (todo : nat) (i : Z) (freqScale rad2deg : Q)
    (s11 s21 s12 s22 : SParameterVector) (fp : string) : result string :=
  match todo with
  | O => Ret fp
  | S todo' =>
      p11 ← point_at s11 i;
      p21 ← point_at s21 i;
      p12 ← point_at s12 i;
      p22 ← point_at s22 i;
      write_lines todo' (wrap (i + 1)) freqScale rad2deg s11 s21 s12 s22
        (fp +:+ data_line (line_values freqScale rad2deg p11 p21 p12 p22))
  end.

(** The messages of [SaveToFile]. *)
Definition two_port_message : string :=
  "SParameters::SaveToFile() only supports 2-port for now" +:+ newline.
Definition format_message : string :=
  "Formats other than mag-angle not implemented yet (exporting as mag-angle)"
  +:+ newline.
Definition open_message (path : string) : string :=
  "Couldn't open " +:+ path +:+ " for writing" +:+ newline.

(** [SaveToFile]. *)
Definition SaveToFile (st : store * SParameters) (path : string)
    (format : ParameterFormat) (freqUnit : FreqUnit) (w : World)
    : result World :=
  if negb (m_nports st.2 =? 2) then
    Ret (log (LogError two_port_message) w)
  else
    let w := if negb (is_mag_angle format)
             then log (LogWarning format_message) w
             else w in
    if negb (can_open w path) then
      Ret (log (LogError (open_message path)) w)
    else
      let freqText := freq_text freqUnit in
      let freqScale := freq_scale freqUnit in
      let fp := header_line freqText in
      s11 ← index st (1, 1);
      s12 ← index st (1, 2);
      s21 ← index st (2, 1);
      s22 ← index st (2, 2);
      let rad2deg := (180 / M_PI)%Q in
      fp ← write_lines (points s11) 0 freqScale rad2deg s11 s21 s12 s22 fp;
      Ret (write_file path fp w).

(* ===================================================================== *)
(** ** The vocabulary of the specification *)
(* ===================================================================== *)

(** The points of a vector taken in order, each related to the next. *)
Fixpoint chain (R : Q -> Q -> Prop) (prev : Q) (m_points : SParameterVector)
    : Prop :=
  match m_points with
  | [] => True
  | p :: rest => R prev (m_frequency p) /\ chain R (m_frequency p) rest
  end.

Definition chained (R : Q -> Q -> Prop) (m_points : SParameterVector) : Prop :=
  match m_points with
  | [] => True
  | p :: rest => chain R (m_frequency p) rest
  end.

(** "Sorted ascending by frequency", strictly. *)
Definition strictly_ascending : SParameterVector -> Prop :=
  chained (fun a b => (a < b)%Q).


(** The lowest and the highest sample point. *)
Definition lowest (m_points : SParameterVector) : option SParameterPoint :=
  head m_points.
Definition highest (m_points : SParameterVector) : option SParameterPoint :=
  last m_points.

(** [frequency] lies within the sampled range. *)
Definition in_range (m_points : SParameterVector) (frequency : Q) : Prop :=
  exists first final,
    lowest m_points = Some first /\ highest m_points = Some final /\
    (m_frequency first <= frequency)%Q /\ (frequency <= m_frequency final)%Q.

(** Linear interpolation from [a] to [b] at the fraction [t]. *)
Definition lerp (a b t : Q) : Q := (a + (b - a) * t)%Q.

(** The position of [frequency] between two frequencies. *)
Definition position (freq_lo freq_hi frequency : Q) : Q :=
  ((frequency - freq_lo) / (freq_hi - freq_lo))%Q.

(** The same, taken as 0 when the two frequencies are at most
    [FLT_EPSILON] apart. *)
Definition guarded_position (freq_lo freq_hi frequency : Q) : Q :=
  if Qle_bool (freq_hi - freq_lo) FLT_EPSILON then 0%Q
  else position freq_lo freq_hi frequency.

(** Wrap-aware interpolation of a phase, in the words of the
    specification: when the two phases are more than π apart, 2π is
    added to the smaller one; the interpolated value has 2π taken off
    when it exceeds 2π. *)
Definition wrap_aware (phase_lo phase_hi t : Q) : Q :=
  let apart := Qltb M_PI (Qabs (phase_lo - phase_hi)) in
  let lo := if apart && Qltb phase_lo phase_hi
            then (phase_lo + 2 * M_PI)%Q else phase_lo in
  let hi := if apart && Qltb phase_hi phase_lo
            then (phase_hi + 2 * M_PI)%Q else phase_hi in
  let r := lerp lo hi t in
  if Qltb (2 * M_PI) r then (r - 2 * M_PI)%Q else r.


(** One step of re-wrapping towards [-π, π]. *)
Definition rewrap (s : Q) : Q :=
  if Qltb s (- M_PI) then (s + 2 * M_PI)%Q
  else if Qltb M_PI s then (s - 2 * M_PI)%Q
  else s.

(** The ordered port pairs of [[1, n] × [1, n]]. *)
Definition port_pairs (n : Z) : list (Z * Z) :=
  d ← seqZ 1 n; s ← seqZ 1 n; [(d, s)].

(** A string cut at each occurrence of the character [c]. *)
Fixpoint split_on (c : ascii) (s : string) : list string :=
  match s with
  | EmptyString => [EmptyString]
  | String a s' =>
      if Ascii.eqb a c then EmptyString :: split_on c s'
      else match split_on c s' with
           | [] => [String a EmptyString]
           | x :: r => String a x :: r
           end
  end.

(** The text of a file, line by line, each line without its newline. *)
Definition file_lines (rows : list string) : string :=
  foldr (fun r acc => r +:+ newline +:+ acc) EmptyString rows.

(** A string in which the character [c] does not occur. *)
Fixpoint free_of (c : ascii) (s : string) : Prop :=
  match s with
  | EmptyString => True
  | String a s' => a <> c /\ free_of c s'
  end.

(** The header of the table, without its newline. *)
Definition header_text (freqUnit : FreqUnit) : string :=
  "# " +:+ freq_text freqUnit +:+ " S MA R 50.000".

(** The sample at index [i] is at most, respectively at least, [f]. *)
Definition below (v : SParameterVector) (i : Z) (f : Q) : Prop :=
  exists p, at_ v i = Ret p /\ (m_frequency p <= f)%Q.
Definition above (v : SParameterVector) (i : Z) (f : Q) : Prop :=
  exists p, at_ v i = Ret p /\ (f <= m_frequency p)%Q.

(** What the loop of [InterpolatePoint] keeps true: the indices are
    ordered and in bounds, and [pos] is strictly inside a bracket of
    width two or more. *)
Definition search_inv (v : SParameterVector) (pos lo hi : Z) : Prop :=
  0 <= lo /\ lo <= pos <= hi /\ hi < size_of v /\
  (2 <= hi - lo -> lo < pos < hi).

(** [Allocate_entry] along a list of keys. *)
Definition allocate_keys (st : store * gmap (Z * Z) positive)
    (ks : list (Z * Z)) : store * gmap (Z * Z) positive :=
  foldl (fun st k => Allocate_entry st k.1 k.2) st ks.

(** The world after the warning of an export in another format. *)
Definition warned (format : ParameterFormat) (w : World) : World :=
  if is_mag_angle format then w else log (LogWarning format_message) w.

(* ===================================================================== *)
(** ** Vectors in the store, and the cascade of two models *)
(* ===================================================================== *)

(** [*p] for the address [p] of a vector. *)
Definition deref (h : store) (p : positive) : result SParameterVector :=
  match h !! p with
  | Some v => Ret v
  | None => Fault
  end.

(** The loop of [SParameterVector::operator*=] run on the vector at the
    address [this] against the vector at the address [rhs], both read
    from the store at each iteration: when the two addresses are the
    same, the points already updated are the ones interpolated. *)
Fixpoint cascade_loop_at (todo : nat) (i : Z) (h : store) (this rhs : positive)
    : result store :=
  match todo with
  | O => Ret h
  | S todo' =>
      m_points ← deref h this;
      us ← at_ m_points i;
      rhs_points ← deref h rhs;
      us' ← cascade_point rhs_points us;
      cascade_loop_at todo' (wrap (i + 1))
        (<[this := <[Z.to_nat i := us']> m_points]> h) this rhs
  end.

(** [*this *= *rhs] on vectors held in the store. *)
Definition mul_assign_at (h : store) (this rhs : positive) : result store :=
  m_points ← deref h this;
  cascade_loop_at (length m_points) 0 h this rhs.

(** [*this = *rhs] on vectors held in the store: the copy assignment of
    [std::vector]. *)
Definition copy_assign_at (h : store) (this rhs : positive) : result store :=
  _ ← deref h this;
  rhs_points ← deref h rhs;
  Ret (<[this := rhs_points]> h).

(** [m_params[pair]] and [m_params.find(pair)->second], as used under a
    dereference: a missing pair gives a null pointer, respectively the
    end iterator, and the dereference is a fault. *)
Definition entry (m : gmap (Z * Z) positive) (pair : Z * Z) : result positive :=
  match m !! pair with
  | Some p => Ret p
  | None => Fault
  end.

(** A loop over a list that threads a state and stops at a fault. *)
Fixpoint for_each {S A : Type} (body : S -> A -> result S) (s : S) (l : list A)
    : result S :=
  match l with
  | [] => Ret s
  | x :: l' => s' ← body s x; for_each body s' l'
  end.

(** The two nested loops of [SParameters::operator*=],
    [d] and [s] from [1] to [m_nports] (a port count that is not
    negative). *)
Definition for_pairs (n : Z) (body : store -> Z -> Z -> result store)
    (h : store) : result store :=
  for_each (fun h d => for_each (fun h s => body h d s) h (seqZ 1 n))
    h (seqZ 1 n).

(** [SParameters::operator*=].  [SParameters::empty()] is declared in the
    class header and is taken as the parameter [empty]; [rhs] is an
    object other than [*this], its vectors are in the same store. *)
Definition SParameters_mul_assign (empty : SParameters -> bool)
    (st : store * SParameters) (rhs : SParameters)
    : result (store * SParameters) :=
  if empty rhs then Ret st
  else if bool_decide (m_params st.2 = ∅) then
    let st1 := Allocate (m_nports rhs) st in
    h' ← for_pairs (m_nports st1.2)
           (fun h d s =>
              p ← entry (m_params st1.2) (d, s);
              q ← entry (m_params rhs) (d, s);
              copy_assign_at h p q)
           st1.1;
    Ret (h', st1.2)
  else
    h' ← for_pairs (m_nports st.2)
           (fun h d s =>
              p ← entry (m_params st.2) (d, s);
              q ← entry (m_params rhs) (d, s);
              mul_assign_at h p q)
           st.1;
    Ret (h', st.2).

(** A run of [delete]s, as a map operation. *)
Definition delete_list (h : store) (ps : list positive) : store :=
  foldl (fun h p => delete p h) h ps.

(** The addresses held by a mapping. *)
Definition addresses (m : gmap (Z * Z) positive) : list positive :=
  snd <$> map_to_list m.

(* ===================================================================== *)
(** ** The single-precision model *)
(* ===================================================================== *)

Module IEEE.

(** *** Numbers *)

(** A [float] is a binary32 value and a [double] a binary64 value of
    IEEE 754, both written as a [spec_float]: a signed zero, a signed
    infinity, NaN, or the finite number [(-1)^s * m * 2^e]. *)
Abbreviation float := spec_float.
Abbreviation double := spec_float.

(** The operations of [float], each rounded to nearest, ties to even. *)
Definition fadd : float -> float -> float := SFadd 24 128.
Definition fsub : float -> float -> float := SFsub 24 128.
Definition fmul : float -> float -> float := SFmul 24 128.
Definition fdiv : float -> float -> float := SFdiv 24 128.

(** The operations of [double]. *)
Definition dadd : double -> double -> double := SFadd 53 1024.
Definition dsub : double -> double -> double := SFsub 53 1024.
Definition dmul : double -> double -> double := SFmul 53 1024.
Definition ddiv : double -> double -> double := SFdiv 53 1024.

(** The comparisons [<] and [>]: false when an operand is NaN. *)
Definition flt (x y : spec_float) : bool := SFltb x y.
Definition fgt (x y : spec_float) : bool := SFltb y x.

(** The conversion of a value to the format of precision [prec]: exact
    when the value fits, rounded to nearest otherwise. *)
Definition convert (prec emax : Z) (x : spec_float) : spec_float :=
  match x with
  | S754_finite s m e => binary_round prec emax s m e
  | _ => x
  end.

(** The promotion of a [float] to [double] and the conversion of a
    [double] to [float]. *)
Definition to_double : float -> double := convert 53 1024.
Definition to_float : double -> float := convert 24 128.

(** An integer constant as a [float] and as a [double]. *)
Definition float_of_Z (z : Z) : float := binary_normalize 24 128 z 0 false.
Definition double_of_Z (z : Z) : double := binary_normalize 53 1024 z 0 false.

(** The [float] nearest to the [double] quotient of two integers: the
    C expression [(float)((double)n / d)]. *)
Definition float_of_ratio (n d : Z) : float :=
  to_float (ddiv (double_of_Z n) (double_of_Z d)).

(** [M_PI], the [double] nearest to π, and [FLT_EPSILON], [2^-23]. *)
Definition M_PI : double := S754_finite false 7074237752028440 (-51).
Definition FLT_EPSILON : float := S754_finite false 8388608 (-46).

(** [2*M_PI]. *)
Definition two_pi : double := dmul (double_of_Z 2) M_PI.

(** The exact value of a finite [float] or [double]. *)
Definition value (x : spec_float) : Q :=
  match x with
  | S754_finite s m e =>
      ((if s then -1 else 1) * inject_Z (Z.pos m) * Qpower 2 e)%Q
  | _ => 0%Q
  end.

(** *** SParameterPoint and SParameterVector *)

(** Modelled from the spec: the class [SParameterPoint] is declared in
    the class header; a point is "{frequency: float (Hz), amplitude: float
    (linear ratio, not dB), phase: float (radians)}". *)
Record SParameterPoint : Type := mkPoint {
  m_frequency : float;
  m_amplitude : float;
  m_phase : float
}.

(** [m_points], a [std::vector<SParameterPoint>]. *)
Abbreviation SParameterVector := (list SParameterPoint).

(** [m_points.size()]. *)
Definition size_of (m_points : SParameterVector) : Z :=
  Z.of_nat (length m_points).

(** [m_points[i]] for a [size_t] index. *)
Definition at_ (m_points : SParameterVector) (i : Z) : result SParameterPoint :=
  if (0 <=? i) && (i <? size_of m_points) then
    match m_points !! Z.to_nat i with
    | Some p => Ret p
    | None => Fault
    end
  else Fault.

(** A vector holds fewer than [2^64] points. *)
Definition representable (m_points : SParameterVector) : Prop :=
  size_of m_points < SIZE_MODULUS.

(** [InterpolatePhase].  The difference of the two phases is a [float];
    its absolute value is compared with the [double] [M_PI]; the sum
    with [2*M_PI] is a [double] sum assigned to a [float]. *)
Definition InterpolatePhase (phase_lo phase_hi frac : float) : float :=
  let '(phase_lo, phase_hi) :=
    if fgt (to_double (SFabs (fsub phase_lo phase_hi))) M_PI then
      if flt phase_lo phase_hi
      then (to_float (dadd (to_double phase_lo) two_pi), phase_hi)
      else (phase_lo, to_float (dadd (to_double phase_hi) two_pi))
    else (phase_lo, phase_hi) in
  let ret := fadd phase_lo (fmul (fsub phase_hi phase_lo) frac) in
  if fgt (to_double ret) two_pi
  then to_float (dsub (to_double ret) two_pi) else ret.

(** The [while(true)] loop of [InterpolatePoint], on the loop variables
    [pos], [last_lo], [last_hi].  It returns the final
    [(last_lo, last_hi)]. *)
Fixpoint search_loop (fuel : nat) (m_points : SParameterVector)
    (frequency : float) (pos last_lo last_hi : Z) : result (Z * Z) :=
  match fuel with
  | O => Timeout
  | S fuel' =>
      pivot ← at_ m_points pos;
      if wrap (last_hi - last_lo) <=? 1 then Ret (last_lo, last_hi)
      else if fgt (m_frequency pivot) frequency then
        let delta := wrap (pos - last_lo) in
        search_loop fuel' m_points frequency
          (wrap (last_lo + delta / 2)) last_lo pos
      else
        let delta := wrap (last_hi - pos) in
        search_loop fuel' m_points frequency
          (wrap (last_hi - delta / 2)) pos last_hi
  end.

(** The interpolation that follows the loop: every operation is a
    [float] operation. *)
Definition interpolate_between (m_points : SParameterVector)
    (frequency : float) (last_lo last_hi : Z) : result SParameterPoint :=
  p_lo ← at_ m_points last_lo;
  p_hi ← at_ m_points last_hi;
  let freq_lo := m_frequency p_lo in
  let freq_hi := m_frequency p_hi in
  let dfreq := fsub freq_hi freq_lo in
  let frac := if fgt dfreq FLT_EPSILON
              then fdiv (fsub frequency freq_lo) dfreq
              else float_of_Z 0 in
  let amp_lo := m_amplitude p_lo in
  let amp_hi := m_amplitude p_hi in
  Ret {| m_frequency := frequency;
         m_amplitude := fadd amp_lo (fmul (fsub amp_hi amp_lo) frac);
         m_phase := InterpolatePhase (m_phase p_lo) (m_phase p_hi) frac |}.

(** [InterpolatePoint], with the fuel of its loop as a parameter. *)
Definition InterpolatePoint_fuel (fuel : nat) (m_points : SParameterVector)
    (frequency : float) : result SParameterPoint :=
  let len := size_of m_points in
  let pos := len / 2 in
  let last_lo := 0 in
  let last_hi := wrap (len - 1) in
  first ← at_ m_points 0;
  if flt frequency (m_frequency first) then
    let phase := InterpolatePhase (float_of_Z 0) (m_phase first)
                   (fdiv frequency (m_frequency first)) in
    Ret {| m_frequency := frequency;
           m_amplitude := m_amplitude first;
           m_phase := phase |}
  else
    last ← at_ m_points (wrap (len - 1));
    if fgt frequency (m_frequency last) then
      Ret {| m_frequency := frequency;
             m_amplitude := float_of_Z 0;
             m_phase := float_of_Z 0 |}
    else
      '(last_lo, last_hi) ← search_loop fuel m_points frequency pos last_lo last_hi;
      interpolate_between m_points frequency last_lo last_hi.

(** [InterpolatePoint]: the loop never needs more iterations than the
    vector has points. *)
Definition InterpolatePoint (m_points : SParameterVector) (frequency : float)
    : result SParameterPoint :=
  InterpolatePoint_fuel (length m_points) m_points frequency.

(** One iteration of the loop of [operator*=]: the sum of the phases
    and the product of the amplitudes are [float] operations; the
    comparisons with [-M_PI] and [M_PI] and the corrections by [2*M_PI]
    are made in [double], each correction assigned to a [float]. *)
Definition cascade_point (rhs : SParameterVector) (us : SParameterPoint)
    : result SParameterPoint :=
  point ← InterpolatePoint rhs (m_frequency us);
  let phase := fadd (m_phase us) (m_phase point) in
  let phase := if flt (to_double phase) (SFopp M_PI)
               then to_float (dadd (to_double phase) two_pi) else phase in
  let phase := if fgt (to_double phase) M_PI
               then to_float (dsub (to_double phase) two_pi) else phase in
  Ret {| m_frequency := m_frequency us;
         m_amplitude := fmul (m_amplitude us) (m_amplitude point);
         m_phase := phase |}.

(** The [for] loop of [operator*=]. *)
Fixpoint cascade_loop (todo : nat) (i : Z) (m_points rhs : SParameterVector)
    : result SParameterVector :=
  match todo with
  | O => Ret m_points
  | S todo' =>
      us ← at_ m_points i;
      us' ← cascade_point rhs us;
      cascade_loop todo' (wrap (i + 1)) (<[Z.to_nat i := us']> m_points) rhs
  end.

(** [SParameterVector::operator*=]; [rhs] is an object other than
    [*this]. *)
Definition mul_assign (m_points rhs : SParameterVector)
    : result SParameterVector :=
  cascade_loop (length m_points) 0 m_points rhs.

(** [GetGroupDelay].  In [(b.m_frequency - a.m_frequency) * 2*M_PI] the
    difference and the product by 2 are [float] operations and the
    product by [M_PI] a [double] one, assigned to the [float] [dfreq];
    the quotient is a [float] division. *)
Definition GetGroupDelay (m_points : SParameterVector) (bin : Z)
    : result float :=
  if size_of m_points <=? wrap (bin + 1) then Ret (float_of_Z 0)
  else
    a ← at_ m_points bin;
    b ← at_ m_points (wrap (wrap (bin + 1) + 1));
    let dfreq :=
      to_float (dmul (to_double (fmul (fsub (m_frequency b) (m_frequency a))
                                      (float_of_Z 2)))
                     M_PI) in
    Ret (fdiv (fsub (m_phase a) (m_phase b)) dfreq).

(** *** SaveToFile *)

(** The free store, by address. *)
Abbreviation store := (gmap positive SParameterVector).

(** Modelled from the spec: [SParameters::operator[](SPair)] is declared
    in the class header; the model is a "mapping keyed by ordered
    port-pair ... to an owned Frequency-Response Vector", so the operator
    yields the vector stored for the pair.  What the operator does for a
    pair that is absent is not in the source: the model makes it a fault,
    as it does for an address that is not in the store, and the
    properties of [SaveToFile] are stated for models that hold their four
    pairs. *)
Definition index (st : store * SParameters) (pair : Z * Z)
    : result SParameterVector :=
  match m_params st.2 !! pair with
  | Some p => match st.1 !! p with
              | Some v => Ret v
              | None => Fault
              end
  | None => Fault
  end.

(** The conversion [%f] of a [double]: a finite value is printed exactly
    rounded at the sixth decimal; an infinity prints as [inf].  The sign
    that [printf] may print before [nan] is not part of a [spec_float]:
    a NaN is given the text [nan], and the properties of the file text
    are stated for values that are not NaN. *)
Definition fmt (x : double) : string :=
  match x with
  | S754_nan => "nan"
  | S754_infinity s => if s then "-inf" else "inf"
  | S754_zero s => if s then "-0.000000" else "0.000000"
  | S754_finite _ _ _ => fmt_f (value x)
  end.

(** [float freqScale]: [1], or the [double] literal [1e-3], [1e-6] or
    [1e-9] converted to [float]. *)
Definition freq_scale (freqUnit : FreqUnit) : float :=
  match freqUnit with
  | FREQ_HZ => float_of_Z 1
  | FREQ_KHZ => to_float (ddiv (double_of_Z 1) (double_of_Z 1000))
  | FREQ_MHZ => to_float (ddiv (double_of_Z 1) (double_of_Z 1000000))
  | FREQ_GHZ | FREQ_unrecognized _ =>
      to_float (ddiv (double_of_Z 1) (double_of_Z 1000000000))
  end.

(** [float rad2deg = 180 / M_PI]. *)
Definition rad2deg : float := to_float (ddiv (double_of_Z 180) M_PI).

(** The arguments of the [fprintf] of one data line, in order: each a
    [float], promoted to [double] by the call. *)
Definition line_values (freqScale rad2deg : float)
    (p11 p21 p12 p22 : SParameterPoint) : list double :=
  to_double <$>
  [ fmul (m_frequency p11) freqScale;
    m_amplitude p11; fmul (m_phase p11) rad2deg;
    m_amplitude p21; fmul (m_phase p21) rad2deg;
    m_amplitude p12; fmul (m_phase p12) rad2deg;
    m_amplitude p22; fmul (m_phase p22) rad2deg ].

(** [fprintf(fp, "%f %f %f %f %f %f %f %f %f\n", ...)]. *)
Definition data_line (vals : list double) : string :=
  join_fields (fmt <$> vals) +:+ newline.

(** The [for] loop of [SaveToFile]: [todo] lines are left, the next one
    is for index [i]; [fp] is what the file holds so far. *)
Fixpoint write_lines (todo : nat) (i : Z) (freqScale rad2deg : float)
    (s11 s21 s12 s22 : SParameterVector) (fp : string) : result string :=
  match todo with
  | O => Ret fp
  | S todo' =>
      p11 ← at_ s11 i;
      p21 ← at_ s21 i;
      p12 ← at_ s12 i;
      p22 ← at_ s22 i;
      write_lines todo' (wrap (i + 1)) freqScale rad2deg s11 s21 s12 s22
        (fp +:+ data_line (line_values freqScale rad2deg p11 p21 p12 p22))
  end.

(** [SaveToFile]. *)
Definition SaveToFile (st : store * SParameters) (path : string)
    (format : ParameterFormat) (freqUnit : FreqUnit) (w : World)
    : result World :=
  if negb (m_nports st.2 =? 2) then
    Ret (log (LogError two_port_message) w)
  else
    let w := if negb (is_mag_angle format)
             then log (LogWarning format_message) w
             else w in
    if negb (can_open w path) then
      Ret (log (LogError (open_message path)) w)
    else
      let freqText := freq_text freqUnit in
      let freqScale := freq_scale freqUnit in
      let fp := header_line freqText in
      s11 ← index st (1, 1);
      s12 ← index st (1, 2);
      s21 ← index st (2, 1);
      s22 ← index st (2, 2);
      fp ← write_lines (length s11) 0 freqScale rad2deg s11 s21 s12 s22 fp;
      Ret (write_file path fp w).

(** *** The vocabulary of the specification, in single precision *)

(** The comparisons [<=] and [==]. *)
Definition fle (x y : spec_float) : bool := SFleb x y.
Definition feq (x y : spec_float) : bool := SFeqb x y.

(** A zero or a finite number: neither an infinity nor NaN. *)
Definition finite (x : spec_float) : bool :=
  match x with
  | S754_zero _ | S754_finite _ _ _ => true
  | _ => false
  end.

(** NaN. *)
Definition is_nan (x : spec_float) : bool :=
  match x with
  | S754_nan => true
  | _ => false
  end.

(** The place of a number in the order: the class (negative infinity,
    negative, zero, positive, positive infinity), then the exponent, then
    the mantissa, the last two negated for a negative number.  The
    comparison of two numbers is the comparison of these triples
    ([SFcompare_rank] below). *)
Definition rank (x : spec_float) : option (Z * Z * Z) :=
  match x with
  | S754_nan => None
  | S754_infinity true => Some (-2, 0, 0)
  | S754_infinity false => Some (2, 0, 0)
  | S754_zero _ => Some (0, 0, 0)
  | S754_finite true m e => Some (-1, - e, Z.neg m)
  | S754_finite false m e => Some (1, e, Z.pos m)
  end.

(** The lexicographic order of the triples. *)
Definition lex_lt (a b : Z * Z * Z) : Prop :=
  a.1.1 < b.1.1 \/
  (a.1.1 = b.1.1 /\ (a.1.2 < b.1.2 \/ (a.1.2 = b.1.2 /\ a.2 < b.2))).

(** The points of a vector taken in order, each related to the next. *)
Fixpoint chain (R : float -> float -> Prop) (prev : float)
    (m_points : SParameterVector) : Prop :=
  match m_points with
  | [] => True
  | p :: rest => R prev (m_frequency p) /\ chain R (m_frequency p) rest
  end.

Definition chained (R : float -> float -> Prop) (m_points : SParameterVector)
    : Prop :=
  match m_points with
  | [] => True
  | p :: rest => chain R (m_frequency p) rest
  end.

(** "Sorted ascending by frequency", strictly: each frequency [<] the
    next. *)
Definition strictly_ascending : SParameterVector -> Prop :=
  chained (fun a b => flt a b = true).

(** The lowest and the highest sample point. *)
Definition lowest (m_points : SParameterVector) : option SParameterPoint :=
  head m_points.
Definition highest (m_points : SParameterVector) : option SParameterPoint :=
  last m_points.

(** [frequency] lies within the sampled range: the comparisons hold, so
    that none of the three frequencies is NaN. *)
Definition in_range (m_points : SParameterVector) (frequency : float) : Prop :=
  exists first final,
    lowest m_points = Some first /\ highest m_points = Some final /\
    fle (m_frequency first) frequency = true /\
    fle frequency (m_frequency final) = true.

(** Linear interpolation from [a] to [b] at the fraction [t], each
    operation rounded to [float]. *)
Definition lerp (a b t : float) : float := fadd a (fmul (fsub b a) t).

(** The position of [frequency] between two frequencies, taken as 0
    unless the rounded difference of the two exceeds [FLT_EPSILON]. *)
Definition guarded_position (freq_lo freq_hi frequency : float) : float :=
  if fgt (fsub freq_hi freq_lo) FLT_EPSILON
  then fdiv (fsub frequency freq_lo) (fsub freq_hi freq_lo)
  else S754_zero false.

(** A phase with [2*M_PI] added, respectively taken off: the operation
    is made in [double] and its result converted to [float]. *)
Definition plus_two_pi (x : float) : float :=
  to_float (dadd (to_double x) two_pi).
Definition minus_two_pi (x : float) : float :=
  to_float (dsub (to_double x) two_pi).

(** Two phases whose rounded difference exceeds [M_PI] in absolute
    value. *)
Definition apart (phase_lo phase_hi : float) : bool :=
  fgt (to_double (SFabs (fsub phase_lo phase_hi))) M_PI.

(** Wrap-aware interpolation of a phase, in the words of the
    specification: when the two phases are more than π apart, 2π is
    added to the smaller one; the interpolated value has 2π taken off
    when it exceeds 2π. *)
Definition wrap_aware (phase_lo phase_hi t : float) : float :=
  let lo := if apart phase_lo phase_hi && flt phase_lo phase_hi
            then plus_two_pi phase_lo else phase_lo in
  let hi := if apart phase_lo phase_hi && flt phase_hi phase_lo
            then plus_two_pi phase_hi else phase_hi in
  let r := lerp lo hi t in
  if fgt (to_double r) two_pi then minus_two_pi r else r.

(** The re-wrapping of a summed phase: 2π is added when it is below -π,
    and 2π is then taken off when the value is above π. *)
Definition rewrap (s : float) : float :=
  let s := if flt (to_double s) (SFopp M_PI) then plus_two_pi s else s in
  if fgt (to_double s) M_PI then minus_two_pi s else s.

(** What the loop of [InterpolatePoint] keeps true. *)
Definition search_inv (v : SParameterVector) (pos lo hi : Z) : Prop :=
  0 <= lo /\ lo <= pos <= hi /\ hi < size_of v /\
  (2 <= hi - lo -> lo < pos < hi).

(** The rows of the table: one per point of [s11]. *)
Fixpoint export_rows (freqScale rad2deg : float)
    (s11 s21 s12 s22 : SParameterVector) : list (list double) :=
  match s11, s21, s12, s22 with
  | p11 :: t11, p21 :: t21, p12 :: t12, p22 :: t22 =>
      line_values freqScale rad2deg p11 p21 p12 p22
      :: export_rows freqScale rad2deg t11 t21 t12 t22
  | _, _, _, _ => []
  end.

(** The text of a row: its values printed by [%f], joined by spaces. *)
Definition row_text (row : list double) : string := join_fields (fmt <$> row).

(** The four vectors of a 2-port model, all present and the last three
    at least as long as the first. *)
Definition exportable (st : store * SParameters)
    (s11 s21 s12 s22 : SParameterVector) : Prop :=
  index st (1, 1) = Ret s11 /\ index st (2, 1) = Ret s21 /\
  index st (1, 2) = Ret s12 /\ index st (2, 2) = Ret s22 /\
  representable s11 /\
  (length s11 <= length s21)%nat /\ (length s11 <= length s12)%nat /\
  (length s11 <= length s22)%nat.

(** The text of the exported table. *)
Definition table_text (freqUnit : FreqUnit)
    (s11 s21 s12 s22 : SParameterVector) : string :=
  file_lines (header_text freqUnit
              :: (row_text <$> export_rows (freq_scale freqUnit) rad2deg
                                 s11 s21 s12 s22)).

(** A value that [%f] prints as a number or as an infinity. *)
Definition printable (x : double) : Prop := is_nan x = false.

(** The nine values of the line of the table made of four points. *)
Definition nine_values (freqUnit : FreqUnit)
    (p11 p21 p12 p22 : SParameterPoint) : list double :=
  [ to_double (fmul (m_frequency p11) (freq_scale freqUnit));
    to_double (m_amplitude p11);
    to_double (fmul (m_phase p11) rad2deg);
    to_double (m_amplitude p21);
    to_double (fmul (m_phase p21) rad2deg);
    to_double (m_amplitude p12);
    to_double (fmul (m_phase p12) rad2deg);
    to_double (m_amplitude p22);
    to_double (fmul (m_phase p22) rad2deg) ].

End IEEE.

(* ===================================================================== *)
(** * Properties *)
(* ===================================================================== *)

(** ** Numbers *)

Lemma Qltb_lt a b : Qltb a b = true <-> (a < b)%Q.
Proof.
  unfold Qltb. rewrite negb_true_iff.
  split; intros H.
  - apply Qnot_le_lt. intros Hle. apply Qle_bool_iff in Hle. congruence.
  - destruct (Qle_bool b a) eqn:E; [|reflexivity].
    apply Qle_bool_iff in E. exfalso. exact (Qlt_not_le _ _ H E).
Qed.

Lemma Qltb_ge a b : Qltb a b = false <-> (b <= a)%Q.
Proof.
  unfold Qltb. rewrite negb_false_iff. apply Qle_bool_iff.
Qed.

Lemma Qgtb_gt a b : Qgtb a b = true <-> (b < a)%Q.
Proof. apply Qltb_lt. Qed.

Lemma Qgtb_le a b : Qgtb a b = false <-> (a <= b)%Q.
Proof. apply Qltb_ge. Qed.

#[global] Instance Qltb_proper : Proper (Qeq ==> Qeq ==> eq) Qltb.
Proof.
  intros a a' Ha b b' Hb.
  destruct (Qltb a' b') eqn:E.
  - apply Qltb_lt. apply Qltb_lt in E. rewrite Ha, Hb. exact E.
  - apply Qltb_ge. apply Qltb_ge in E. rewrite Ha, Hb. exact E.
Qed.


Lemma M_PI_pos : (0 < M_PI)%Q.
Proof. reflexivity. Qed.


Lemma wrap_small z : 0 <= z < SIZE_MODULUS -> wrap z = z.
Proof. intros H. unfold wrap. now apply Z.mod_small. Qed.

(** ** SWDSymbol *)

Lemma stype_value_inj x y :
  SWDSymbol.stype_value x = SWDSymbol.stype_value y -> x = y.
Proof. destruct x, y; simpl; intros H; first [reflexivity | discriminate H]. Qed.

Lemma make_wf ty d : SWDSymbol.wf (SWDSymbol.make ty d).
Proof.
  unfold SWDSymbol.wf, SWDSymbol.make, SWDSymbol.uint32. simpl.
  apply Z.mod_pos_bound. reflexivity.
Qed.

(** C9.  For all symbols [a] and [b], [a == b] holds exactly when the
    kinds of [a] and [b] are equal and their payloads are equal. *)
Theorem SWDSymbol_eq_structural (a b : SWDSymbol.t) :
  SWDSymbol.eqb a b = true <->
  SWDSymbol.m_stype a = SWDSymbol.m_stype b /\
  SWDSymbol.m_data a = SWDSymbol.m_data b.
Proof.
  unfold SWDSymbol.eqb. rewrite andb_true_iff, !Z.eqb_eq.
  split; intros [H1 H2]; split; auto using stype_value_inj.
  now rewrite H1.
Qed.

(** ** Vector access *)

Lemma at_Ret (v : SParameterVector) i p :
  at_ v i = Ret p <-> 0 <= i < size_of v /\ v !! Z.to_nat i = Some p.
Proof.
  unfold at_.
  destruct (0 <=? i) eqn:E1; destruct (i <? size_of v) eqn:E2; simpl;
    try (split; [discriminate | intros [[? ?] _]; lia]).
  apply Z.leb_le in E1. apply Z.ltb_lt in E2.
  destruct (v !! Z.to_nat i) eqn:E.
  - split; [intros [= ->]; auto | intros [_ [= ->]]; reflexivity].
  - split; [discriminate | intros [_ ?]; discriminate].
Qed.

Lemma at_in_bounds (v : SParameterVector) i :
  0 <= i < size_of v -> exists p, at_ v i = Ret p.
Proof.
  intros H. destruct (v !! Z.to_nat i) as [p|] eqn:E.
  - exists p. apply at_Ret. auto.
  - apply lookup_ge_None in E. unfold size_of in H. lia.
Qed.

Lemma at_out_of_bounds (v : SParameterVector) i :
  ~ (0 <= i < size_of v) -> at_ v i = Fault.
Proof.
  intros H. destruct (at_ v i) as [p| |] eqn:E; try reflexivity.
  - apply at_Ret in E. tauto.
  - unfold at_ in E. repeat case_match; discriminate.
Qed.

Lemma at_nat (v : SParameterVector) (i : nat) p :
  v !! i = Some p -> at_ v (Z.of_nat i) = Ret p.
Proof.
  intros H. apply at_Ret. rewrite Nat2Z.id. split; [|exact H].
  apply lookup_lt_Some in H. unfold size_of. lia.
Qed.

(** ** The binary search *)

Lemma search_loop_ok (v : SParameterVector) (f : Q) :
  representable v ->
  forall fuel pos lo hi,
    search_inv v pos lo hi ->
    Z.max 1 (hi - lo) <= Z.of_nat fuel ->
    exists lo' hi',
      search_loop fuel v f pos lo hi = Ret (lo', hi') /\
      lo <= lo' /\ lo' <= hi' /\ hi' <= hi /\ hi' - lo' <= 1 /\
      (1 <= hi - lo -> hi' = lo' + 1) /\
      (below v lo f -> below v lo' f) /\
      (above v hi f -> above v hi' f).
Proof.
  intros Hrep. unfold representable in Hrep.
  induction fuel as [|fuel IH]; intros pos lo hi (Hlo & Hpos & Hhi & Hmid) Hfuel.
  - lia.
  - simpl.
    destruct (at_in_bounds v pos) as [pivot Hpivot]; [lia|].
    rewrite Hpivot. simpl.
    rewrite (wrap_small (hi - lo)) by lia.
    destruct (hi - lo <=? 1) eqn:Hgap.
    + apply Z.leb_le in Hgap.
      exists lo, hi. repeat split; auto; lia.
    + apply Z.leb_gt in Hgap.
      destruct (Qgtb (m_frequency pivot) f) eqn:Hcmp.
      * rewrite (wrap_small (pos - lo)) by lia.
        assert (Hd : 0 <= (pos - lo) / 2 < pos - lo).
        { split; [apply Z.div_pos; lia | apply Z.div_lt; lia]. }
        assert (Hd2 : pos - lo = 1 \/ 1 <= (pos - lo) / 2).
        { destruct (Z.eq_dec (pos - lo) 1); [left; assumption | right].
          apply Z.div_le_lower_bound; lia. }
        rewrite (wrap_small (lo + (pos - lo) / 2)) by lia.
        destruct (IH (lo + (pos - lo) / 2) lo pos) as (lo' & hi' & Hr & H).
        { unfold search_inv. repeat split; lia. }
        { lia. }
        exists lo', hi'. rewrite Hr. split; [reflexivity|].
        destruct H as (H1 & H2 & H3 & H4 & H5 & H6 & H7).
        repeat split; try lia; auto.
        intros _. apply H7. exists pivot. split; [assumption|].
        apply Qgtb_gt in Hcmp. now apply Qlt_le_weak.
      * rewrite (wrap_small (hi - pos)) by lia.
        assert (Hd : 0 <= (hi - pos) / 2 < hi - pos).
        { split; [apply Z.div_pos; lia | apply Z.div_lt; lia]. }
        assert (Hd2 : hi - pos = 1 \/ 1 <= (hi - pos) / 2).
        { destruct (Z.eq_dec (hi - pos) 1); [left; assumption | right].
          apply Z.div_le_lower_bound; lia. }
        rewrite (wrap_small (hi - (hi - pos) / 2)) by lia.
        destruct (IH (hi - (hi - pos) / 2) pos hi) as (lo' & hi' & Hr & H).
        { unfold search_inv. repeat split; lia. }
        { lia. }
        exists lo', hi'. rewrite Hr. split; [reflexivity|].
        destruct H as (H1 & H2 & H3 & H4 & H5 & H6 & H7).
        repeat split; try lia; auto.
        intros _. apply H6. exists pivot. split; [assumption|].
        now apply Qgtb_le in Hcmp.
Qed.

(** More fuel does not change what the loop returns. *)
Lemma search_loop_fuel (v : SParameterVector) (f : Q) fuel :
  forall pos lo hi r extra,
    search_loop fuel v f pos lo hi = Ret r ->
    search_loop (fuel + extra) v f pos lo hi = Ret r.
Proof.
  induction fuel as [|fuel IH]; intros pos lo hi r extra H.
  - discriminate H.
  - simpl in *. destruct (at_ v pos) as [pivot| |]; simpl in *; try discriminate.
    destruct (wrap (hi - lo) <=? 1); [assumption|].
    destruct (Qgtb (m_frequency pivot) f); apply IH; assumption.
Qed.

(** ** InterpolatePhase *)





(** Between two phases at most π apart, with a result of at most 2π, the
    interpolation is the plain linear one. *)
Lemma InterpolatePhase_plain a b t :
  (Qabs (a - b) <= M_PI)%Q -> (lerp a b t <= 2 * M_PI)%Q ->
  InterpolatePhase a b t = lerp a b t.
Proof.
  intros Hab Hr. unfold InterpolatePhase.
  apply Qgtb_le in Hab. rewrite Hab.
  apply Qgtb_le in Hr. unfold lerp in *. now rewrite Hr.
Qed.

(** ** InterpolatePoint *)

Lemma lowest_at (v : SParameterVector) p :
  lowest v = Some p -> at_ v 0 = Ret p.
Proof.
  intros H. apply (at_nat v 0). destruct v; [discriminate|exact H].
Qed.

Lemma highest_at (v : SParameterVector) p :
  highest v = Some p -> at_ v (size_of v - 1) = Ret p.
Proof.
  unfold highest. rewrite last_lookup. intros H.
  assert (Hlen : (0 < length v)%nat).
  { apply lookup_lt_Some in H. destruct v; simpl in *; lia. }
  replace (size_of v - 1) with (Z.of_nat (pred (length v)))
    by (unfold size_of; lia).
  now apply at_nat.
Qed.

Lemma nonempty_ends (v : SParameterVector) :
  v <> [] -> exists first final, lowest v = Some first /\ highest v = Some final.
Proof.
  intros H. destruct v as [|p v]; [congruence|].
  exists p. destruct (last (p :: v)) as [q|] eqn:E; [eauto|].
  apply last_None in E. discriminate.
Qed.

Lemma size_of_pos (v : SParameterVector) : v <> [] -> 1 <= size_of v.
Proof. destruct v; [congruence|]. unfold size_of. simpl. lia. Qed.

(** The three cases of [InterpolatePoint] on a vector that is not empty. *)
Lemma InterpolatePoint_fuel_cases fuel (v : SParameterVector) f first final :
  representable v -> lowest v = Some first -> highest v = Some final ->
  InterpolatePoint_fuel fuel v f =
    if Qltb f (m_frequency first) then
      Ret {| m_frequency := f;
             m_amplitude := m_amplitude first;
             m_phase := InterpolatePhase 0 (m_phase first)
                          (f / m_frequency first) |}
    else if Qgtb f (m_frequency final) then
      Ret {| m_frequency := f; m_amplitude := 0; m_phase := 0 |}
    else
      '(lo, hi) ← search_loop fuel v f (size_of v / 2) 0 (size_of v - 1);
      interpolate_between v f lo hi.
Proof.
  intros Hrep Hfirst Hfinal. unfold InterpolatePoint_fuel.
  rewrite (lowest_at _ _ Hfirst). simpl.
  destruct (Qltb f (m_frequency first)); [reflexivity|].
  assert (Hne : v <> []) by (intros ->; discriminate).
  apply size_of_pos in Hne. unfold representable in Hrep.
  rewrite (wrap_small (size_of v - 1)) by lia.
  rewrite (highest_at _ _ Hfinal). simpl. reflexivity.
Qed.

Lemma search_inv_init (v : SParameterVector) :
  1 <= size_of v -> search_inv v (size_of v / 2) 0 (size_of v - 1).
Proof.
  intros H. unfold search_inv.
  assert (0 <= size_of v / 2) by (apply Z.div_pos; lia).
  assert (size_of v / 2 <= size_of v - 1).
  { destruct (Z.eq_dec (size_of v) 1) as [->|]; [reflexivity|].
    assert (size_of v / 2 < size_of v) by (apply Z.div_lt; lia). lia. }
  repeat split; try lia.
  - apply Z.div_str_pos. lia.
  - apply Z.div_lt_upper_bound; lia.
Qed.

Lemma interpolate_between_value (v : SParameterVector) f lo hi p_lo p_hi :
  at_ v lo = Ret p_lo -> at_ v hi = Ret p_hi ->
  interpolate_between v f lo hi =
    let t := guarded_position (m_frequency p_lo) (m_frequency p_hi) f in
    Ret {| m_frequency := f;
           m_amplitude := lerp (m_amplitude p_lo) (m_amplitude p_hi) t;
           m_phase := InterpolatePhase (m_phase p_lo) (m_phase p_hi) t |}.
Proof.
  intros Hlo Hhi. unfold interpolate_between. rewrite Hlo, Hhi. simpl.
  unfold guarded_position, position, lerp, Qgtb, Qltb.
  destruct (Qle_bool (m_frequency p_hi - m_frequency p_lo) FLT_EPSILON);
    reflexivity.
Qed.

(** On a vector that is not empty the call returns, at every frequency
    and with any fuel from the number of points on, a point at the
    requested frequency. *)
Lemma InterpolatePoint_fuel_returns (v : SParameterVector) f fuel :
  v <> [] -> representable v -> (length v <= fuel)%nat ->
  exists p, InterpolatePoint_fuel fuel v f = Ret p /\ m_frequency p = f.
Proof.
  intros Hne Hrep Hfuel.
  destruct (nonempty_ends v Hne) as (first & final & Hfirst & Hfinal).
  rewrite (InterpolatePoint_fuel_cases fuel v f first final) by assumption.
  destruct (Qltb f (m_frequency first)); [eauto|].
  destruct (Qgtb f (m_frequency final)); [eauto|].
  pose proof (size_of_pos v Hne) as Hpos.
  destruct (search_loop_ok v f Hrep fuel _ _ _ (search_inv_init v Hpos))
    as (lo & hi & Hr & H1 & H2 & H3 & _).
  { unfold size_of in *. lia. }
  rewrite Hr. simpl.
  destruct (at_in_bounds v lo) as [p_lo Hlo]; [lia|].
  destruct (at_in_bounds v hi) as [p_hi Hhi]; [lia|].
  rewrite (interpolate_between_value v f lo hi p_lo p_hi) by assumption.
  simpl. eauto.
Qed.

Lemma InterpolatePoint_returns (v : SParameterVector) f :
  v <> [] -> representable v ->
  exists p, InterpolatePoint v f = Ret p /\ m_frequency p = f.
Proof.
  intros Hne Hrep. apply InterpolatePoint_fuel_returns; auto.
Qed.



(** ** Ascending vectors *)









(** ** InterpolatePoint over exact arithmetic *)






(** ** Cascading *)

Lemma rewrap_code (s : Q) :
  (let phase := if Qltb s (- M_PI) then (s + 2 * M_PI)%Q else s in
   if Qgtb phase M_PI then (phase - 2 * M_PI)%Q else phase) = rewrap s.
Proof.
  unfold rewrap, Qgtb. cbv zeta.
  destruct (Qltb s (- M_PI)) eqn:E; [|reflexivity].
  assert (Qltb M_PI (s + 2 * M_PI) = false) as ->; [|reflexivity].
  apply Qltb_ge. apply Qltb_lt in E. pose proof M_PI_pos. lra.
Qed.


(** One point cascaded against [rhs]. *)
Lemma cascade_point_value (rhs : SParameterVector) us point :
  InterpolatePoint rhs (m_frequency us) = Ret point ->
  cascade_point rhs us =
    Ret {| m_frequency := m_frequency us;
           m_amplitude := (m_amplitude us * m_amplitude point)%Q;
           m_phase := rewrap (m_phase us + m_phase point) |}.
Proof.
  intros H. unfold cascade_point. rewrite H. simpl.
  now rewrite <- rewrap_code.
Qed.

Lemma cascade_loop_ok (rhs : SParameterVector) :
  rhs <> [] -> representable rhs ->
  forall todo (i : nat) (m : SParameterVector),
    (i + todo = length m)%nat -> representable m ->
    exists m',
      cascade_loop todo (Z.of_nat i) m rhs = Ret m' /\
      length m' = length m /\
      (forall j, (j < i)%nat -> m' !! j = m !! j) /\
      (forall j us, (i <= j)%nat -> m !! j = Some us ->
         exists point,
           InterpolatePoint rhs (m_frequency us) = Ret point /\
           m' !! j =
             Some {| m_frequency := m_frequency us;
                     m_amplitude := (m_amplitude us * m_amplitude point)%Q;
                     m_phase := rewrap (m_phase us + m_phase point) |}).
Proof.
  intros Hne Hrep. induction todo as [|todo IH]; intros i m Hlen Hm.
  - exists m. simpl. repeat split; auto.
    intros j us Hj Hus. apply lookup_lt_Some in Hus. lia.
  - simpl.
    destruct (m !! i) as [us|] eqn:Hus; [|apply lookup_ge_None in Hus; lia].
    rewrite (at_nat m i us Hus). simpl.
    destruct (InterpolatePoint_returns rhs (m_frequency us) Hne Hrep)
      as (point & Hpoint & _).
    rewrite (cascade_point_value rhs us point Hpoint). simpl.
    rewrite Nat2Z.id.
    unfold representable, size_of in Hm.
    rewrite wrap_small by lia.
    replace (Z.of_nat i + 1) with (Z.of_nat (S i)) by lia.
    set (us' := {| m_frequency := m_frequency us;
                   m_amplitude := (m_amplitude us * m_amplitude point)%Q;
                   m_phase := rewrap (m_phase us + m_phase point) |}).
    destruct (IH (S i) (<[i := us']> m)) as (m' & Hr & Hl & Hbefore & Hafter).
    { rewrite length_insert. lia. }
    { unfold representable, size_of. rewrite length_insert. exact Hm. }
    exists m'. split; [exact Hr|].
    rewrite length_insert in Hl. split; [exact Hl|]. split.
    + intros j Hj. rewrite Hbefore by lia.
      apply list_lookup_insert_ne. lia.
    + intros j us0 Hj Hus0.
      destruct (Nat.eq_dec j i) as [->|Hji].
      * assert (us0 = us) as -> by congruence.
        exists point. split; [exact Hpoint|].
        rewrite Hbefore by lia.
        apply list_lookup_insert_eq. apply lookup_lt_Some in Hus. exact Hus.
      * apply Hafter; [lia|].
        rewrite list_lookup_insert_ne by lia. exact Hus0.
Qed.



(** ** The empty vector and the end of the vector *)

(** C4, at the failing input.  On an empty vector [InterpolatePoint]
    reads [m_points[0]], which does not exist, whatever the frequency; so
    do [InterpolateMagnitude] and [InterpolateAngle]. *)
Theorem InterpolatePoint_empty (f : Q) :
  at_ [] 0 = Fault /\
  wrap (size_of [] - 1) = SIZE_MODULUS - 1 /\
  InterpolatePoint [] f = Fault /\
  InterpolateMagnitude [] f = Fault /\
  InterpolateAngle [] f = Fault /\
  (forall fuel, InterpolatePoint_fuel fuel [] f = Fault).
Proof. repeat split. Qed.

(** C5, at the failing input.  At the last bin but one the guard
    [bin + 1 >= size] lets the call through and the neighbour read is
    [m_points[bin + 2]], one past the end. *)
Theorem GetGroupDelay_last_but_one (v : SParameterVector) :
  representable v -> 2 <= size_of v ->
  let bin := size_of v - 2 in
  (size_of v <=? wrap (bin + 1)) = false /\
  (exists a, at_ v bin = Ret a) /\
  wrap (wrap (bin + 1) + 1) = size_of v /\
  at_ v (size_of v) = Fault /\
  GetGroupDelay v bin = Fault.
Proof.
  intros Hrep Hsz bin. unfold representable in Hrep.
  assert (E1 : wrap (bin + 1) = size_of v - 1).
  { replace (bin + 1) with (size_of v - 1) by (unfold bin; lia).
    apply wrap_small. lia. }
  assert (E2 : wrap (wrap (bin + 1) + 1) = size_of v).
  { rewrite E1. replace (size_of v - 1 + 1) with (size_of v) by lia.
    apply wrap_small. lia. }
  assert (E3 : (size_of v <=? wrap (bin + 1)) = false).
  { rewrite E1. apply Z.leb_gt. lia. }
  assert (E4 : at_ v (size_of v) = Fault).
  { apply at_out_of_bounds. lia. }
  destruct (at_in_bounds v bin) as [a Ha]; [unfold bin; lia|].
  repeat split; eauto.
  unfold GetGroupDelay. rewrite E3, Ha, E2, E4. reflexivity.
Qed.

Lemma GetGroupDelay_last_but_one_witness :
  let v := [mkPoint 1000000000 (1 # 2) 0; mkPoint 2000000000 (4 # 5) 1] in
  representable v /\ 2 <= size_of v /\ GetGroupDelay v 0 = Fault.
Proof.
  intros v.
  assert (H1 : representable v) by reflexivity.
  assert (H2 : 2 <= size_of v) by (unfold size_of; simpl; lia).
  split; [exact H1|]. split; [exact H2|].
  exact (proj2 (proj2 (proj2 (proj2 (GetGroupDelay_last_but_one v H1 H2))))).
Defined.

(** ** Allocate *)

Lemma port_pairs_elem n d s :
  (d, s) ∈ port_pairs n <-> (1 <= d <= n /\ 1 <= s <= n).
Proof.
  unfold port_pairs. rewrite list_elem_of_bind. split.
  - intros (d' & Hin & Hd). apply list_elem_of_bind in Hin.
    destruct Hin as (s' & Hin & Hs).
    apply list_elem_of_singleton in Hin. injection Hin as -> ->.
    apply elem_of_seqZ in Hd, Hs. lia.
  - intros [Hd Hs]. exists d. split; [|apply elem_of_seqZ; lia].
    apply list_elem_of_bind. exists s.
    split; [apply list_elem_of_singleton; reflexivity | apply elem_of_seqZ; lia].
Qed.

Lemma row_pairs (d n : Z) :
  (seqZ 1 n ≫= fun s => [(d, s)]) = (fun s => (d, s)) <$> seqZ 1 n.
Proof. induction (seqZ 1 n) as [|s l IH]; csimpl; [reflexivity | now rewrite IH]. Qed.

Lemma port_pairs_NoDup n : NoDup (port_pairs n).
Proof.
  unfold port_pairs. apply NoDup_bind.
  - intros d1 d2 [d s] _ _ H1 H2.
    apply list_elem_of_bind in H1, H2.
    destruct H1 as (s1 & H1 & _). destruct H2 as (s2 & H2 & _).
    apply list_elem_of_singleton in H1, H2. congruence.
  - intros d _. rewrite row_pairs. apply NoDup_fmap_2; [|apply NoDup_seqZ].
    intros s1 s2. congruence.
  - apply NoDup_seqZ.
Qed.

Lemma port_pairs_length n : length (port_pairs n) = (Z.to_nat n * Z.to_nat n)%nat.
Proof.
  unfold port_pairs.
  assert (H : forall l : list Z,
             length (l ≫= fun d => seqZ 1 n ≫= fun s => [(d, s)])
             = (length l * Z.to_nat n)%nat).
  { induction l as [|d l IH]; csimpl; [reflexivity|].
    rewrite length_app, IH, row_pairs, length_fmap, length_seqZ. reflexivity. }
  rewrite H, length_seqZ. reflexivity.
Qed.

(** The two nested loops of [Allocate] visit the port pairs in order. *)
Lemma Allocate_loops n st :
  foldl (Allocate_row n) st (seqZ 1 n) = allocate_keys st (port_pairs n).
Proof.
  unfold allocate_keys, port_pairs.
  generalize (seqZ 1 n) at 1 3. intros ds. revert st.
  induction ds as [|d ds IH]; intros st; csimpl; [reflexivity|].
  rewrite foldl_app, <- IH. f_equal.
  unfold Allocate_row. rewrite row_pairs, foldl_fmap. reflexivity.
Qed.

Lemma Allocate_unfold n (h : store) (this : SParameters) :
  Allocate n (h, this) =
    (let st' := allocate_keys (h, m_params this) (port_pairs n) in
     (st'.1, {| m_params := st'.2; m_nports := n |})).
Proof.
  unfold Allocate. rewrite Allocate_loops.
  destruct (allocate_keys _ _). reflexivity.
Qed.

(** What a run of allocations does to the store and to the map. *)
Lemma allocate_keys_ok (ks : list (Z * Z)) :
  forall st : store * gmap (Z * Z) positive,
    let st' := allocate_keys st ks in
    dom st'.2 = dom st.2 ∪ list_to_set ks /\
    (forall k, k ∉ ks -> st'.2 !! k = st.2 !! k) /\
    (forall l v, st.1 !! l = Some v -> st'.1 !! l = Some v) /\
    (forall k, k ∈ ks ->
       exists l, st'.2 !! k = Some l /\ st'.1 !! l = Some [] /\ st.1 !! l = None) /\
    (forall k1 k2 l, k1 ∈ ks -> k2 ∈ ks ->
       st'.2 !! k1 = Some l -> st'.2 !! k2 = Some l -> k1 = k2).
Proof.
  induction ks as [|k0 ks IH]; intros st.
  - simpl. split; [set_solver|]. split; [auto|]. split; [auto|].
    split; intros; exfalso; eapply not_elem_of_nil; eauto.
  - cbv zeta. unfold allocate_keys. simpl.
    fold (allocate_keys (Allocate_entry st k0.1 k0.2) ks).
    set (st1 := Allocate_entry st k0.1 k0.2).
    set (l0 := fresh (dom st.1)).
    assert (Hst1 : st1 = (<[l0 := []]> st.1, <[k0 := l0]> st.2)).
    { unfold st1, Allocate_entry, new_SParameterVector. simpl.
      destruct k0. reflexivity. }
    assert (Hl0 : st.1 !! l0 = None).
    { apply not_elem_of_dom. apply is_fresh. }
    destruct (IH st1) as (Hdom & Hother & Hkeep & Hnew & Hinj).
    set (st' := allocate_keys st1 ks) in *.
    assert (Hgrow : forall l v, st.1 !! l = Some v -> st'.1 !! l = Some v).
    { intros l v Hl. apply Hkeep. rewrite Hst1. simpl.
      rewrite lookup_insert_ne; [exact Hl|]. intros <-. congruence. }
    assert (Hk0 : k0 ∉ ks ->
              st'.2 !! k0 = Some l0 /\ st'.1 !! l0 = Some [] /\ st.1 !! l0 = None).
    { intros Hnot. split; [|split; [|exact Hl0]].
      - rewrite Hother by assumption. rewrite Hst1. simpl.
        apply lookup_insert_eq.
      - apply Hkeep. rewrite Hst1. simpl. apply lookup_insert_eq. }
    assert (Hfresh1 : forall k, k ∈ ks ->
              exists l, st'.2 !! k = Some l /\ st'.1 !! l = Some [] /\
                        st.1 !! l = None /\ l <> l0).
    { intros k Hk. destruct (Hnew k Hk) as (l & H1 & H2 & H3).
      exists l. rewrite Hst1 in H3. simpl in H3.
      destruct (decide (l = l0)) as [->|Hne].
      - rewrite lookup_insert_eq in H3. discriminate.
      - rewrite lookup_insert_ne in H3 by congruence. auto. }
    split; [|split; [|split; [exact Hgrow|split]]].
    + rewrite Hdom, Hst1. simpl. rewrite dom_insert_L. set_solver.
    + intros k Hk. apply not_elem_of_cons in Hk. destruct Hk as [Hne Hk].
      rewrite Hother by assumption. rewrite Hst1. simpl.
      apply lookup_insert_ne. congruence.
    + intros k Hk. destruct (decide (k ∈ ks)) as [Hin|Hnot].
      * destruct (Hfresh1 k Hin) as (l & H1 & H2 & H3 & _). eauto.
      * apply elem_of_cons in Hk. destruct Hk as [->|Hk]; [|contradiction].
        exists l0. apply Hk0. assumption.
    + intros k1 k2 l Hk1 Hk2 H1 H2.
      destruct (decide (k1 ∈ ks)) as [Hin1|Hnot1];
        destruct (decide (k2 ∈ ks)) as [Hin2|Hnot2].
      * eapply Hinj; eauto.
      * apply elem_of_cons in Hk2. destruct Hk2 as [->|Hk2]; [|contradiction].
        destruct (Hk0 Hnot2) as (E & _).
        destruct (Hfresh1 k1 Hin1) as (l' & E' & _ & _ & Hne). congruence.
      * apply elem_of_cons in Hk1. destruct Hk1 as [->|Hk1]; [|contradiction].
        destruct (Hk0 Hnot1) as (E & _).
        destruct (Hfresh1 k2 Hin2) as (l' & E' & _ & _ & Hne). congruence.
      * apply elem_of_cons in Hk1, Hk2.
        destruct Hk1 as [->|Hk1]; [|contradiction].
        destruct Hk2 as [->|Hk2]; [|contradiction]. reflexivity.
Qed.

(** [Clear] leaves an empty mapping and the port count as it was. *)
Lemma Clear_empties (st st' : store * SParameters) :
  Clear st = Ret st' ->
  m_params st'.2 = ∅ /\ m_nports st'.2 = m_nports st.2.
Proof.
  unfold Clear. destruct st as [h this].
  destruct (delete_all h _) as [h'| |]; simpl; try discriminate.
  intros [= <-]. split; reflexivity.
Qed.

(** C8 (amended).  For every model state and every [n], after
    [Allocate(n)] the port-count field equals [n] and the mapping holds,
    for each ordered port pair [(d, s)] with [d] and [s] in [[1, n]], the
    address of a fresh empty vector (an address unused before, a
    different one for each pair).  Entries for pairs outside
    [[1, n] × [1, n]] are kept as they were and no vector is taken out of
    the store, so the mapping has exactly [n²] entries when [n >= 0] and
    its previous keys all lay within [[1, n] × [1, n]], in particular when
    it was empty (a model just constructed, or after [Clear]). *)
Theorem Allocate_entries (n : Z) (h : store) (this : SParameters) :
  let st' := Allocate n (h, this) in
  m_nports st'.2 = n /\
  dom (m_params st'.2) = dom (m_params this) ∪ list_to_set (port_pairs n) /\
  (forall d s, 1 <= d <= n -> 1 <= s <= n ->
     exists l, m_params st'.2 !! (d, s) = Some l /\
               st'.1 !! l = Some [] /\ h !! l = None) /\
  (forall k1 k2 l, k1 ∈ port_pairs n -> k2 ∈ port_pairs n ->
     m_params st'.2 !! k1 = Some l -> m_params st'.2 !! k2 = Some l -> k1 = k2) /\
  (forall k, k ∉ port_pairs n -> m_params st'.2 !! k = m_params this !! k) /\
  (forall l v, h !! l = Some v -> st'.1 !! l = Some v) /\
  (dom (m_params this) ⊆ list_to_set (port_pairs n) -> 0 <= n ->
     Z.of_nat (size (m_params st'.2)) = n * n) /\
  (forall st0, Clear st0 = Ret (h, this) -> 0 <= n ->
     Z.of_nat (size (m_params st'.2)) = n * n).
Proof.
  rewrite Allocate_unfold. cbv zeta. simpl.
  destruct (allocate_keys_ok (port_pairs n) (h, m_params this))
    as (Hdom & Hother & Hkeep & Hnew & Hinj).
  simpl in *.
  assert (Hsize : dom (m_params this) ⊆ list_to_set (port_pairs n) -> 0 <= n ->
            Z.of_nat (size (allocate_keys (h, m_params this) (port_pairs n)).2)
            = n * n).
  { intros Hsub Hn.
    rewrite <- size_dom, Hdom.
    replace (dom (m_params this) ∪ list_to_set (port_pairs n))
      with (list_to_set (port_pairs n) : gset (Z * Z)) by set_solver.
    rewrite size_list_to_set by apply port_pairs_NoDup.
    rewrite port_pairs_length. lia. }
  split; [reflexivity|]. split; [exact Hdom|].
  split. { intros d s Hd Hs. apply Hnew. apply port_pairs_elem. auto. }
  split; [exact Hinj|]. split; [exact Hother|]. split; [exact Hkeep|].
  split; [exact Hsize|].
  intros st0 Hclear. apply Hsize.
  apply Clear_empties in Hclear. destruct Hclear as [Hempty _].
  simpl in Hempty. rewrite Hempty, dom_empty_L. apply empty_subseteq.
Qed.

Lemma Allocate_entries_witness :
  let st' := Allocate 2 (∅, SParameters_new) in
  dom (m_params SParameters_new) ⊆ list_to_set (port_pairs 2) /\ 0 <= 2 /\
  Z.of_nat (size (m_params st'.2)) = 2 * 2 /\
  exists l, m_params st'.2 !! (2, 1) = Some l /\ st'.1 !! l = Some [].
Proof.
  intros st'.
  assert (H1 : dom (m_params SParameters_new) ⊆@{gset (Z * Z)} list_to_set (port_pairs 2)).
  { simpl. rewrite dom_empty_L. apply empty_subseteq. }
  assert (H2 : 0 <= 2) by lia.
  destruct (Allocate_entries 2 ∅ SParameters_new)
    as (_ & _ & Hnew & _ & _ & _ & Hsize & _).
  split; [exact H1|]. split; [exact H2|]. split; [exact (Hsize H1 H2)|].
  destruct (Hnew 2 1) as (l & Hl & Hv & _); [lia | lia |].
  exists l. split; [exact Hl | exact Hv].
Defined.

(** C8 as stated fails: a model allocated for three ports and then for
    two still holds the nine entries of the three-port allocation, five of
    them with their prior vectors. *)
Lemma Allocate_keeps_prior_entries :
  let st3 := Allocate 3 (∅, SParameters_new) in
  let st2 := Allocate 2 st3 in
  m_nports st2.2 = 2 /\
  size (m_params st2.2) = 9%nat /\
  size (m_params st2.2) <> Z.to_nat (2 * 2) /\
  m_params st2.2 !! (3, 3) = m_params st3.2 !! (3, 3) /\
  is_Some (m_params st2.2 !! (3, 3)).
Proof.
  vm_compute. repeat split; try discriminate. eexists. reflexivity.
Qed.

(** ** Text *)

Lemma append_String x (a b : string) : String x a +:+ b = String x (a +:+ b).
Proof. reflexivity. Qed.

Lemma append_Empty (b : string) : EmptyString +:+ b = b.
Proof. reflexivity. Qed.

Ltac append_simpl := rewrite ?append_String, ?append_Empty; simpl.

Lemma append_assoc (a b c : string) : (a +:+ b) +:+ c = a +:+ (b +:+ c).
Proof.
  induction a as [|x a IH]; append_simpl; [reflexivity | now rewrite IH].
Qed.

Lemma append_empty_r (a : string) : a +:+ EmptyString = a.
Proof.
  induction a as [|x a IH]; append_simpl; [reflexivity | now rewrite IH].
Qed.

Lemma free_of_append c (a b : string) :
  free_of c (a +:+ b) <-> free_of c a /\ free_of c b.
Proof.
  induction a as [|x a IH]; append_simpl; [tauto | rewrite IH; tauto].
Qed.

Lemma split_on_free c (a : string) : free_of c a -> split_on c a = [a].
Proof.
  induction a as [|x a IH]; simpl; [reflexivity|].
  intros [Hx Ha]. rewrite (IH Ha).
  destruct (Ascii.eqb_spec x c); [contradiction | reflexivity].
Qed.

Lemma split_on_append c (a b : string) :
  free_of c a -> split_on c (a +:+ String c b) = a :: split_on c b.
Proof.
  induction a as [|x a IH]; append_simpl.
  - intros _. now rewrite Ascii.eqb_refl.
  - intros [Hx Ha]. rewrite (IH Ha).
    destruct (Ascii.eqb_spec x c); [contradiction | reflexivity].
Qed.

(** The fields of a line are found again by cutting it at the spaces. *)
Lemma split_on_join_fields (fs : list string) :
  fs <> [] -> Forall (free_of space) fs ->
  split_on space (join_fields fs) = fs.
Proof.
  induction fs as [|f fs IH]; [congruence|].
  intros _ Hall. apply Forall_cons in Hall. destruct Hall as [Hf Hfs].
  destruct fs as [|g fs].
  - simpl. now apply split_on_free.
  - change (join_fields (f :: g :: fs))
      with (f +:+ String space (join_fields (g :: fs))).
    rewrite split_on_append by assumption.
    rewrite IH; [reflexivity | discriminate | assumption].
Qed.

Lemma free_of_join_fields c (fs : list string) :
  c <> space -> Forall (free_of c) fs -> free_of c (join_fields fs).
Proof.
  intros Hc. induction fs as [|f fs IH]; [simpl; auto|].
  intros Hall. apply Forall_cons in Hall. destruct Hall as [Hf Hfs].
  destruct fs as [|g fs]; [exact Hf|].
  change (join_fields (f :: g :: fs))
    with (f +:+ String space (join_fields (g :: fs))).
  apply free_of_append. split; [exact Hf|]. simpl. split; [congruence|].
  now apply IH.
Qed.

(** The lines of a file are found again by cutting it at the newlines;
    the last line ends in a newline, which leaves an empty rest. *)
Lemma split_on_file_lines (ls : list string) :
  Forall (free_of "010"%char) ls ->
  split_on "010"%char (file_lines ls) = ls ++ [EmptyString].
Proof.
  induction ls as [|l ls IH]; [reflexivity|].
  intros Hall. apply Forall_cons in Hall. destruct Hall as [Hl Hls].
  simpl. unfold newline. append_simpl.
  rewrite split_on_append by assumption. now rewrite IH.
Qed.

Lemma digit_plain (c : ascii) (z : Z) :
  (c = space \/ c = "010"%char) -> digit z <> c.
Proof.
  intros Hc. unfold digit.
  assert (H : (Z.to_nat (z mod 10) < 10)%nat).
  { pose proof (Z.mod_pos_bound z 10). lia. }
  revert H. generalize (Z.to_nat (z mod 10)). intros k Hk.
  do 10 (destruct k as [|k]; [destruct Hc as [-> | ->]; vm_compute; discriminate|]).
  lia.
Qed.

Lemma fixed_digits_plain (c : ascii) (n : nat) :
  (c = space \/ c = "010"%char) -> forall z, free_of c (fixed_digits n z).
Proof.
  intros Hc. induction n as [|n IH]; intros z; simpl; [exact I|].
  apply free_of_append. split; [apply IH|]. simpl.
  split; [now apply digit_plain | exact I].
Qed.

Lemma uint_digits_plain (c : ascii) (u : Decimal.uint) :
  (c = space \/ c = "010"%char) -> free_of c (uint_digits u).
Proof.
  intros Hc. induction u; simpl; try exact I;
    (split; [destruct Hc as [-> | ->]; discriminate | assumption]).
Qed.

Lemma fmt_f_plain (c : ascii) (x : Q) :
  (c = space \/ c = "010"%char) -> free_of c (fmt_f x).
Proof.
  intros Hc. unfold fmt_f.
  apply free_of_append; split; [|apply free_of_append; split;
                                  [|apply free_of_append; split]].
  - destruct (Qltb x 0); simpl; [|exact I].
    split; [destruct Hc as [-> | ->]; discriminate | exact I].
  - now apply uint_digits_plain.
  - simpl. split; [destruct Hc as [-> | ->]; discriminate | exact I].
  - now apply fixed_digits_plain.
Qed.

Lemma header_text_one_line (freqUnit : FreqUnit) :
  free_of "010"%char (header_text freqUnit).
Proof. destruct freqUnit; vm_compute; repeat split; discriminate. Qed.

(** ** SaveToFile *)

Lemma SaveToFile_two_ports (st : store * SParameters) path format freqUnit w :
  m_nports st.2 = 2 ->
  SaveToFile st path format freqUnit w =
    if can_open w path then
      s11 ← index st (1, 1);
      s12 ← index st (1, 2);
      s21 ← index st (2, 1);
      s22 ← index st (2, 2);
      fp ← write_lines (points s11) 0 (freq_scale freqUnit) (180 / M_PI)
             s11 s21 s12 s22 (header_line (freq_text freqUnit));
      Ret (write_file path fp (warned format w))
    else Ret (log (LogError (open_message path)) (warned format w)).
Proof.
  intros Hn. unfold SaveToFile, warned. rewrite Hn. simpl.
  destruct (is_mag_angle format); simpl; destruct (can_open w path); reflexivity.
Qed.

(* ===================================================================== *)
(** * Further properties of the vector operations *)
(* ===================================================================== *)

(** ** InterpolatePoint beyond the claims *)

(** X1.  On a representable vector [InterpolatePoint] returns exactly
    when the vector is not empty; the point it returns is at the
    requested frequency, and [InterpolateMagnitude] and
    [InterpolateAngle] return its amplitude and its phase. *)
Theorem InterpolatePoint_returns_iff_nonempty (v : SParameterVector) (f : Q) :
  representable v ->
  ((exists p, InterpolatePoint v f = Ret p) <-> v <> []) /\
  (forall p, InterpolatePoint v f = Ret p ->
     m_frequency p = f /\
     InterpolateMagnitude v f = Ret (m_amplitude p) /\
     InterpolateAngle v f = Ret (m_phase p)).
Proof.
  intros Hrep. split.
  - split.
    + intros [p Hp] ->. discriminate Hp.
    + intros Hne. destruct (InterpolatePoint_returns v f Hne Hrep) as (p & Hp & _).
      eauto.
  - intros p Hp.
    assert (Hne : v <> []) by (intros ->; discriminate Hp).
    destruct (InterpolatePoint_returns v f Hne Hrep) as (p' & Hp' & Hf).
    assert (p' = p) as -> by congruence.
    split; [exact Hf|].
    unfold InterpolateMagnitude, InterpolateAngle. rewrite Hp. split; reflexivity.
Qed.

Lemma InterpolatePoint_returns_iff_nonempty_witness :
  let v := [mkPoint 1000000000 (1 # 2) 0;
            mkPoint 2000000000 (4 # 5) (M_PI / 2)] in
  representable v /\
  InterpolateMagnitude v 1500000000 = Ret (13000000000 # 20000000000)%Q.
Proof.
  intros v.
  assert (H : representable v) by reflexivity.
  split; [exact H|].
  destruct (InterpolatePoint_returns_iff_nonempty v 1500000000 H) as [_ Hp].
  destruct (Hp _ eq_refl) as (_ & Hm & _). exact Hm.
Defined.






Lemma search_loop_S (v : SParameterVector) (f : Q) fuel pos lo hi :
  search_loop (S fuel) v f pos lo hi =
    (pivot ← at_ v pos;
     if wrap (hi - lo) <=? 1 then Ret (lo, hi)
     else if Qgtb (m_frequency pivot) f then
       search_loop fuel v f (wrap (lo + wrap (pos - lo) / 2)) lo pos
     else
       search_loop fuel v f (wrap (hi - wrap (hi - pos) / 2)) pos hi).
Proof. reflexivity. Qed.

(** The binary search halves its bracket: with [pos] in the middle of a
    bracket of width at most [2^k], [k + 1] iterations are enough. *)
Lemma search_loop_log (v : SParameterVector) (f : Q) :
  representable v ->
  forall (k : nat) pos lo hi,
    0 <= lo -> lo <= pos <= hi -> hi < size_of v ->
    ((pos - lo = (hi - lo) / 2) \/ (hi - pos = (hi - lo) / 2)) ->
    hi - lo <= 2 ^ Z.of_nat k ->
    exists r, search_loop (S k) v f pos lo hi = Ret r.
Proof.
  intros Hrep. unfold representable in Hrep.
  induction k as [|k IH]; intros pos lo hi Hlo Hpos Hhi Hmid Hw.
  - simpl. destruct (at_in_bounds v pos) as [pivot Hpivot]; [lia|].
    rewrite Hpivot. simpl. rewrite wrap_small by lia.
    change (2 ^ Z.of_nat 0) with 1 in Hw.
    assert ((hi - lo <=? 1) = true) as -> by (apply Z.leb_le; lia). eauto.
  - rewrite search_loop_S.
    destruct (at_in_bounds v pos) as [pivot Hpivot]; [lia|].
    rewrite Hpivot. cbn [mbind result_bind].
    rewrite (wrap_small (hi - lo)) by lia.
    destruct (hi - lo <=? 1) eqn:Hgap; [eauto|].
    apply Z.leb_gt in Hgap.
    assert (Hpow : 2 ^ Z.of_nat (S k) = 2 * 2 ^ Z.of_nat k).
    { rewrite Nat2Z.inj_succ. apply Z.pow_succ_r. lia. }
    assert (Hhalf : (hi - lo) / 2 <= 2 ^ Z.of_nat k /\
                    hi - lo - (hi - lo) / 2 <= 2 ^ Z.of_nat k /\
                    1 <= (hi - lo) / 2 /\ (hi - lo) / 2 < hi - lo).
    { pose proof (Z.div_mod (hi - lo) 2 ltac:(lia)).
      pose proof (Z.mod_pos_bound (hi - lo) 2 ltac:(lia)). lia. }
    destruct (Qgtb (m_frequency pivot) f).
    + rewrite (wrap_small (pos - lo)) by lia.
      assert (Hd : 0 <= (pos - lo) / 2 <= pos - lo).
      { pose proof (Z.div_mod (pos - lo) 2 ltac:(lia)).
        pose proof (Z.mod_pos_bound (pos - lo) 2 ltac:(lia)). lia. }
      rewrite (wrap_small (lo + (pos - lo) / 2)) by lia.
      apply IH; lia.
    + rewrite (wrap_small (hi - pos)) by lia.
      assert (Hd : 0 <= (hi - pos) / 2 <= hi - pos).
      { pose proof (Z.div_mod (hi - pos) 2 ltac:(lia)).
        pose proof (Z.mod_pos_bound (hi - pos) 2 ltac:(lia)). lia. }
      rewrite (wrap_small (hi - (hi - pos) / 2)) by lia.
      apply IH; lia.
Qed.

(** X3.  The search of [InterpolatePoint] is logarithmic: on a non-empty
    vector of [n] points it leaves its loop within
    [log2_up (n - 1) + 1] iterations, on the same bracket as with any
    larger number of iterations. *)
Theorem search_loop_logarithmic (v : SParameterVector) (f : Q) :
  v <> [] -> representable v ->
  let steps := S (Z.to_nat (Z.log2_up (size_of v - 1))) in
  exists lo hi,
    search_loop steps v f (size_of v / 2) 0 (size_of v - 1) = Ret (lo, hi) /\
    forall extra,
      search_loop (steps + extra) v f (size_of v / 2) 0 (size_of v - 1)
      = Ret (lo, hi).
Proof.
  intros Hne Hrep steps.
  pose proof (size_of_pos v Hne) as Hpos.
  destruct (search_loop_log v f Hrep (Z.to_nat (Z.log2_up (size_of v - 1)))
              (size_of v / 2) 0 (size_of v - 1)) as [[lo hi] Hr].
  - lia.
  - pose proof (Z.div_mod (size_of v) 2 ltac:(lia)).
    pose proof (Z.mod_pos_bound (size_of v) 2 ltac:(lia)). lia.
  - lia.
  - pose proof (Z.div_mod (size_of v) 2 ltac:(lia)).
    pose proof (Z.mod_pos_bound (size_of v) 2 ltac:(lia)).
    pose proof (Z.div_mod (size_of v - 1 - 0) 2 ltac:(lia)).
    pose proof (Z.mod_pos_bound (size_of v - 1 - 0) 2 ltac:(lia)). lia.
  - rewrite Z2Nat.id by apply Z.log2_up_nonneg.
    destruct (Z.eq_dec (size_of v) 1) as [E|Hn1].
    + rewrite E. vm_compute. discriminate.
    + replace (size_of v - 1 - 0) with (size_of v - 1) by lia.
      apply Z.log2_log2_up_spec. lia.
  - exists lo, hi. split; [exact Hr|].
    intros extra. now apply search_loop_fuel.
Qed.

Lemma search_loop_logarithmic_witness :
  let v := [mkPoint 1 1 0; mkPoint 2 1 0; mkPoint 3 1 0; mkPoint 4 1 0;
            mkPoint 5 1 0; mkPoint 6 1 0; mkPoint 7 1 0; mkPoint 8 1 0;
            mkPoint 9 1 0] in
  v <> [] /\ representable v /\
  exists lo hi,
    search_loop 4 v (13 # 2) 4 0 8 = Ret (lo, hi) /\
    search_loop 9 v (13 # 2) 4 0 8 = Ret (lo, hi).
Proof.
  intros v.
  assert (H1 : v <> []) by discriminate.
  assert (H2 : representable v) by reflexivity.
  split; [exact H1|]. split; [exact H2|].
  destruct (search_loop_logarithmic v (13 # 2) H1 H2) as (lo & hi & Hr & Hmore).
  exists lo, hi. split; [exact Hr | exact (Hmore 5%nat)].
Defined.

(** ** InterpolatePhase beyond the claims *)








(** X8.  At the last bin and at every bin past the end, short of
    [SIZE_MAX], [GetGroupDelay] returns 0 without reading a point; at
    [bin = SIZE_MAX] the sum [bin + 1] wraps to 0, the guard lets a
    non-empty vector through and the read of [m_points[SIZE_MAX]] is out
    of bounds. *)
Theorem GetGroupDelay_at_the_end (v : SParameterVector) (bin : Z) :
  representable v ->
  (size_of v - 1 <= bin -> 0 <= bin < SIZE_MODULUS - 1 ->
     GetGroupDelay v bin = Ret 0%Q) /\
  (bin = SIZE_MODULUS - 1 ->
     GetGroupDelay v bin = if size_of v =? 0 then Ret 0%Q else Fault).
Proof.
  intros Hrep. unfold representable in Hrep. unfold GetGroupDelay. split.
  - intros Hlast Hbin. rewrite wrap_small by lia.
    assert ((size_of v <=? bin + 1) = true) as -> by (apply Z.leb_le; lia).
    reflexivity.
  - intros ->.
    assert (wrap (SIZE_MODULUS - 1 + 1) = 0) as -> by reflexivity.
    destruct (size_of v =? 0) eqn:E.
    + apply Z.eqb_eq in E. rewrite E. reflexivity.
    + apply Z.eqb_neq in E.
      assert ((size_of v <=? 0) = false) as ->.
      { apply Z.leb_gt. unfold size_of in *. lia. }
      rewrite (at_out_of_bounds v (SIZE_MODULUS - 1)) by lia. reflexivity.
Qed.

Lemma GetGroupDelay_at_the_end_witness :
  let v := [mkPoint 1 1 3; mkPoint 2 1 2; mkPoint 3 1 1] in
  representable v /\
  GetGroupDelay v 2 = Ret 0%Q /\
  GetGroupDelay v 18446744073709551615 = Fault.
Proof.
  intros v. assert (H : representable v) by reflexivity.
  split; [exact H|].
  destruct (GetGroupDelay_at_the_end v 2 H) as [Hend _].
  destruct (GetGroupDelay_at_the_end v 18446744073709551615 H) as [_ Hmax].
  split.
  - apply Hend; [unfold size_of; simpl; lia | unfold SIZE_MODULUS; lia].
  - exact (Hmax eq_refl).
Defined.

(** ** Cascading beyond the claims *)





#[global] Instance rewrap_proper : Proper (Qeq ==> Qeq) rewrap.
Proof.
  intros s s' Hs. unfold rewrap.
  rewrite <- (Qltb_proper _ _ Hs _ _ (Qeq_refl (- M_PI))).
  rewrite <- (Qltb_proper _ _ (Qeq_refl M_PI) _ _ Hs).
  destruct (Qltb s (- M_PI)); [now rewrite Hs|].
  destruct (Qltb M_PI s); now rewrite Hs.
Qed.





(** X11.  [a *= b] on representable vectors returns exactly when [a] is
    empty or [b] is not: an empty [a] is left as it is whatever [b], and
    a non-empty [a] against an empty [b] is a fault at its first point. *)
Theorem mul_assign_returns_iff (a b : SParameterVector) :
  representable a -> representable b ->
  ((exists a', mul_assign a b = Ret a') <-> (a = [] \/ b <> [])) /\
  (a = [] -> mul_assign a b = Ret []) /\
  (a <> [] -> b = [] -> mul_assign a b = Fault).
Proof.
  intros Ha Hb.
  assert (Hempty : a <> [] -> b = [] -> mul_assign a b = Fault).
  { intros Hne ->. destruct a as [|us a]; [congruence | reflexivity]. }
  split; [|split; [intros ->; reflexivity | exact Hempty]].
  split.
  - intros [a' Hr]. destruct a as [|us a]; [auto|]. right. intros ->.
    rewrite Hempty in Hr; [discriminate | discriminate | reflexivity].
  - intros [-> | Hne]; [exists []; reflexivity|].
    destruct (cascade_loop_ok b Hne Hb (length a) 0 a eq_refl Ha)
      as (a' & Hr & _). exists a'. exact Hr.
Qed.

Lemma mul_assign_returns_iff_witness :
  let a := [mkPoint 1 1 0] in
  representable a /\ representable [] /\ mul_assign a [] = Fault.
Proof.
  intros a.
  assert (H1 : representable a) by reflexivity.
  assert (H2 : representable []) by reflexivity.
  split; [exact H1|]. split; [exact H2|].
  destruct (mul_assign_returns_iff a [] H1 H2) as (_ & _ & Hfault).
  apply Hfault; [discriminate | reflexivity].
Defined.

(** ** Vectors in the store *)

Lemma deref_Some (h : store) p v : h !! p = Some v -> deref h p = Ret v.
Proof. intros H. unfold deref. now rewrite H. Qed.

Lemma cascade_loop_at_separate (b : SParameterVector) (this rhs : positive) :
  this <> rhs ->
  forall todo i (h : store) (m : SParameterVector),
    h !! this = Some m -> h !! rhs = Some b ->
    cascade_loop_at todo i h this rhs =
      (m' ← cascade_loop todo i m b; Ret (<[this := m']> h)).
Proof.
  intros Hne. induction todo as [|todo IH]; intros i h m Hthis Hrhs.
  - simpl. now rewrite insert_id.
  - simpl. rewrite (deref_Some _ _ _ Hthis), (deref_Some _ _ _ Hrhs). simpl.
    destruct (at_ m i) as [us| |]; simpl; try reflexivity.
    destruct (cascade_point b us) as [us'| |]; simpl; try reflexivity.
    rewrite (IH _ _ (<[Z.to_nat i := us']> m)).
    + destruct (cascade_loop todo _ _ b) as [m'| |]; simpl; try reflexivity.
      now rewrite insert_insert_eq.
    + apply lookup_insert_eq.
    + rewrite lookup_insert_ne by assumption. exact Hrhs.
Qed.

(** X12.  On two vectors at different addresses of the store,
    [*this *= *rhs] is [operator*=] on their values: the vector at
    [this] receives the result and every other cell of the store,
    [rhs] among them, stays as it was. *)
Theorem mul_assign_at_separate (h : store) (this rhs : positive)
    (a b : SParameterVector) :
  this <> rhs -> h !! this = Some a -> h !! rhs = Some b ->
  mul_assign_at h this rhs = (a' ← mul_assign a b; Ret (<[this := a']> h)) /\
  forall h', mul_assign_at h this rhs = Ret h' ->
    (exists a', mul_assign a b = Ret a' /\ h' !! this = Some a') /\
    forall p, p <> this -> h' !! p = h !! p.
Proof.
  intros Hne Hthis Hrhs.
  assert (E : mul_assign_at h this rhs
              = (a' ← mul_assign a b; Ret (<[this := a']> h))).
  { unfold mul_assign_at, mul_assign. rewrite (deref_Some _ _ _ Hthis). simpl.
    now apply cascade_loop_at_separate. }
  split; [exact E|].
  intros h' Hr. rewrite E in Hr.
  destruct (mul_assign a b) as [a'| |]; simpl in Hr; try discriminate.
  injection Hr as <-. split.
  - exists a'. split; [reflexivity | apply lookup_insert_eq].
  - intros p Hp. now apply lookup_insert_ne.
Qed.

Lemma mul_assign_at_separate_witness :
  let a := [mkPoint 1500000000 (1 # 2) 1] in
  let b := [mkPoint 1000000000 1 0; mkPoint 2000000000 1 0] in
  let h : store := <[1%positive := a]> (<[2%positive := b]> ∅) in
  1%positive <> 2%positive /\ h !! 1%positive = Some a /\
  h !! 2%positive = Some b /\
  mul_assign_at h 1 2 = (a' ← mul_assign a b; Ret (<[1%positive := a']> h)).
Proof.
  intros a b h.
  assert (H1 : 1%positive <> 2%positive) by discriminate.
  assert (H2 : h !! 1%positive = Some a) by reflexivity.
  assert (H3 : h !! 2%positive = Some b) by reflexivity.
  split; [exact H1|]. split; [exact H2|]. split; [exact H3|].
  exact (proj1 (mul_assign_at_separate h 1 2 a b H1 H2 H3)).
Defined.

(** ** Clear, and Allocate followed by Clear *)

Lemma lookup_delete_list (ps : list positive) :
  forall (h : store) p,
    delete_list h ps !! p = if decide (p ∈ ps) then None else h !! p.
Proof.
  unfold delete_list. induction ps as [|q ps IH]; intros h p; simpl.
  - destruct (decide (p ∈ [])) as [Hin|_]; [|reflexivity].
    exfalso. eapply not_elem_of_nil; eauto.
  - rewrite IH.
    destruct (decide (p ∈ ps)) as [Hin|Hnot].
    + rewrite decide_True by (apply elem_of_cons; auto). reflexivity.
    + destruct (decide (p = q)) as [->|Hne].
      * rewrite decide_True by (apply elem_of_cons; auto).
        apply lookup_delete_eq.
      * rewrite decide_False
          by (intros Hin; apply elem_of_cons in Hin; destruct Hin; auto).
        now apply lookup_delete_ne.
Qed.

Lemma delete_all_Ret (ps : list positive) :
  forall (h h' : store),
    delete_all h ps = Ret h' <->
    NoDup ps /\ (forall p, p ∈ ps -> is_Some (h !! p)) /\ h' = delete_list h ps.
Proof.
  induction ps as [|q ps IH]; intros h h'.
  - simpl. split.
    + intros [= <-]. split; [constructor|]. split; [|reflexivity].
      intros p Hp. exfalso. eapply not_elem_of_nil; eauto.
    + intros (_ & _ & ->). reflexivity.
  - simpl. unfold delete_vector.
    destruct (h !! q) as [v|] eqn:Hq; simpl.
    + rewrite IH. unfold delete_list. simpl. split.
      * intros (Hnd & Hlive & ->). split; [|split; [|reflexivity]].
        -- constructor; [|exact Hnd]. intros Hin.
           destruct (Hlive q Hin) as [x Hx].
           rewrite lookup_delete_eq in Hx. discriminate.
        -- intros p Hp. apply elem_of_cons in Hp. destruct Hp as [->|Hp]; [eauto|].
           destruct (Hlive p Hp) as [x Hx].
           destruct (decide (p = q)) as [->|Hne].
           ++ rewrite lookup_delete_eq in Hx. discriminate.
           ++ rewrite lookup_delete_ne in Hx by congruence. eauto.
      * intros (Hnd & Hlive & ->). apply NoDup_cons in Hnd.
        destruct Hnd as [Hnot Hnd].
        split; [exact Hnd|]. split; [|reflexivity].
        intros p Hp. rewrite lookup_delete_ne by (intros ->; contradiction).
        apply Hlive. apply elem_of_cons. auto.
    + split; [discriminate|]. intros (_ & Hlive & _).
      destruct (Hlive q) as [x Hx]; [apply elem_of_cons; auto|]. congruence.
Qed.

Lemma delete_all_no_timeout (ps : list positive) :
  forall h : store, delete_all h ps <> Timeout.
Proof.
  induction ps as [|q ps IH]; intros h; simpl; [discriminate|].
  unfold delete_vector. destruct (h !! q); simpl; [apply IH | discriminate].
Qed.

Lemma addresses_elem (m : gmap (Z * Z) positive) p :
  p ∈ addresses m <-> exists k, m !! k = Some p.
Proof.
  unfold addresses. rewrite list_elem_of_fmap. split.
  - intros ([k q] & -> & Hin). apply elem_of_map_to_list in Hin. eauto.
  - intros [k Hk]. exists (k, p). split; [reflexivity|].
    now apply elem_of_map_to_list.
Qed.

Lemma addresses_NoDup (m : gmap (Z * Z) positive) :
  NoDup (addresses m) <->
  (forall k1 k2 p, m !! k1 = Some p -> m !! k2 = Some p -> k1 = k2).
Proof.
  unfold addresses. split.
  - intros Hnd k1 k2 p H1 H2.
    apply elem_of_map_to_list in H1, H2.
    pose proof (NoDup_map_to_list m) as Hkeys.
    revert Hnd H1 H2. generalize (map_to_list m). clear Hkeys.
    induction l as [|[k q] l IH]; intros Hnd H1 H2.
    + exfalso. eapply not_elem_of_nil; eauto.
    + simpl in Hnd. apply NoDup_cons in Hnd. destruct Hnd as [Hnot Hnd].
      apply elem_of_cons in H1, H2.
      destruct H1 as [E1|H1]; destruct H2 as [E2|H2].
      * congruence.
      * exfalso. apply Hnot. apply list_elem_of_fmap. exists (k2, p).
        split; [simpl; congruence | exact H2].
      * exfalso. apply Hnot. apply list_elem_of_fmap. exists (k1, p).
        split; [simpl; congruence | exact H1].
      * now apply IH.
  - intros Hinj. apply NoDup_fmap_2_strong; [|apply NoDup_map_to_list].
    intros [k1 p1] [k2 p2] H1 H2 Heq. simpl in Heq. subst p2.
    apply elem_of_map_to_list in H1, H2.
    now rewrite (Hinj k1 k2 p1 H1 H2).
Qed.

(** X13.  [Clear] returns exactly when the addresses held by the mapping
    are live and no address is held by two pairs; otherwise a vector is
    deleted twice, or one is deleted that does not exist, and the call is
    a fault.  When it returns, exactly the vectors held by the mapping
    are gone from the store, the mapping is empty, the port count is
    what it was, and a second [Clear] changes nothing. *)
Theorem Clear_returns_iff (h : store) (this : SParameters) :
  let sound :=
    (forall k1 k2 p, m_params this !! k1 = Some p ->
                     m_params this !! k2 = Some p -> k1 = k2) /\
    (forall k p, m_params this !! k = Some p -> is_Some (h !! p)) in
  ((exists st', Clear (h, this) = Ret st') <-> sound) /\
  (~ sound -> Clear (h, this) = Fault) /\
  (forall st', Clear (h, this) = Ret st' ->
     m_params st'.2 = ∅ /\ m_nports st'.2 = m_nports this /\
     (forall k p, m_params this !! k = Some p -> st'.1 !! p = None) /\
     (forall p, (forall k, m_params this !! k <> Some p) ->
        st'.1 !! p = h !! p) /\
     Clear st' = Ret st').
Proof.
  cbv zeta.
  assert (Hiff : forall h', delete_all h (addresses (m_params this)) = Ret h' <->
            ((forall k1 k2 p, m_params this !! k1 = Some p ->
                              m_params this !! k2 = Some p -> k1 = k2) /\
             (forall k p, m_params this !! k = Some p -> is_Some (h !! p))) /\
            h' = delete_list h (addresses (m_params this))).
  { intros h'. rewrite delete_all_Ret, addresses_NoDup. split.
    - intros (Hnd & Hlive & ->). split; [split|reflexivity]; [exact Hnd|].
      intros k p Hk. apply Hlive. apply addresses_elem. eauto.
    - intros ([Hnd Hlive] & ->). split; [exact Hnd|]. split; [|reflexivity].
      intros p Hp. apply addresses_elem in Hp. destruct Hp as [k Hk]. eauto. }
  assert (Hclear : forall st', Clear (h, this) = Ret st' <->
            delete_all h (addresses (m_params this)) = Ret st'.1 /\
            st'.2 = {| m_params := ∅; m_nports := m_nports this |}).
  { intros [h' this']. unfold Clear. fold (addresses (m_params this)).
    destruct (delete_all h (addresses (m_params this))) as [h''| |]; simpl.
    - split; [intros [= <- <-]; auto | intros [[= <-] ->]; reflexivity].
    - split; [discriminate | intros [? _]; discriminate].
    - split; [discriminate | intros [? _]; discriminate]. }
  split; [|split].
  - split.
    + intros [st' Hr]. apply Hclear in Hr. destruct Hr as [Hr _].
      apply Hiff in Hr. tauto.
    + intros Hsound.
      exists (delete_list h (addresses (m_params this)),
              {| m_params := ∅; m_nports := m_nports this |}).
      apply Hclear. simpl. split; [|reflexivity]. apply Hiff. auto.
  - intros Hnot. unfold Clear. fold (addresses (m_params this)).
    destruct (delete_all h (addresses (m_params this))) as [h'| |] eqn:E.
    + exfalso. apply Hnot. destruct (proj1 (Hiff h') eq_refl) as [Hs _].
      exact Hs.
    + reflexivity.
    + exfalso. now apply delete_all_no_timeout in E.
  - intros st' Hr. apply Hclear in Hr. destruct Hr as [Hr Hthis].
    apply Hiff in Hr. destruct Hr as [_ Hstore].
    rewrite Hthis. simpl. split; [reflexivity|]. split; [reflexivity|].
    split; [|split].
    + intros k p Hk. rewrite Hstore, lookup_delete_list.
      rewrite decide_True; [reflexivity|]. apply addresses_elem. eauto.
    + intros p Hp. rewrite Hstore, lookup_delete_list.
      rewrite decide_False; [reflexivity|].
      intros Hin. apply addresses_elem in Hin. destruct Hin as [k Hk].
      exact (Hp k Hk).
    + destruct st' as [h' this']. simpl in *. subst this'.
      unfold Clear. simpl. rewrite map_to_list_empty. reflexivity.
Qed.

Lemma Clear_returns_iff_witness :
  let st := Allocate 2 (∅, SParameters_new) in
  let shared := (st.1, {| m_params := <[(1, 2) := 1%positive]> (m_params st.2);
                          m_nports := 2 |}) in
  (forall k p, m_params st.2 !! k = Some p -> is_Some (st.1 !! p)) /\
  Clear shared = Fault.
Proof.
  intros st shared.
  destruct (Clear_returns_iff st.1 st.2) as [Hok _].
  destruct (Clear_returns_iff shared.1 shared.2) as (_ & Hbad & _).
  split.
  - apply Hok. eexists. vm_compute. reflexivity.
  - apply Hbad. intros [Hinj _].
    assert (H1 : m_params shared.2 !! (1, 1) = Some 1%positive)
      by (vm_compute; reflexivity).
    assert (H2 : m_params shared.2 !! (1, 2) = Some 1%positive)
      by (vm_compute; reflexivity).
    specialize (Hinj (1, 1) (1, 2) 1%positive H1 H2). discriminate.
Defined.

(** Every cell that a run of allocations adds to the store is held by
    one of the keys of the run. *)
Lemma allocate_keys_held (ks : list (Z * Z)) :
  NoDup ks ->
  forall (st : store * gmap (Z * Z) positive) l,
    st.1 !! l = None -> is_Some ((allocate_keys st ks).1 !! l) ->
    exists k, k ∈ ks /\ (allocate_keys st ks).2 !! k = Some l.
Proof.
  induction 1 as [|k0 ks Hnot Hnd IH]; intros st l Hnone Hsome.
  - simpl in Hsome. rewrite Hnone in Hsome. destruct Hsome. discriminate.
  - unfold allocate_keys in *. simpl in *.
    fold (allocate_keys (Allocate_entry st k0.1 k0.2) ks) in *.
    set (st1 := Allocate_entry st k0.1 k0.2) in *.
    set (l0 := fresh (dom st.1)).
    assert (Hst1 : st1 = (<[l0 := []]> st.1, <[k0 := l0]> st.2)).
    { unfold st1, Allocate_entry, new_SParameterVector. simpl.
      destruct k0. reflexivity. }
    destruct (allocate_keys_ok ks st1) as (_ & Hother & _ & _ & _).
    destruct (decide (l = l0)) as [->|Hne].
    + exists k0. split; [apply elem_of_cons; auto|].
      rewrite Hother by assumption. rewrite Hst1. simpl. apply lookup_insert_eq.
    + destruct (IH st1 l) as (k & Hk & Hl); [|exact Hsome|].
      * rewrite Hst1. simpl. rewrite lookup_insert_ne by congruence. exact Hnone.
      * exists k. split; [apply elem_of_cons; auto | exact Hl].
Qed.

(** X14.  On a model whose mapping is empty, [Allocate] followed by
    [Clear] gives the store back as it was: every vector that [Allocate]
    made is deleted, none is leaked; the mapping is empty again and the
    port count stays at the allocated one. *)
Theorem Allocate_then_Clear (n : Z) (h : store) (this : SParameters) :
  m_params this = ∅ ->
  Clear (Allocate n (h, this)) =
    Ret (h, {| m_params := ∅; m_nports := n |}).
Proof.
  intros Hempty.
  rewrite Allocate_unfold. cbv zeta.
  destruct (allocate_keys_ok (port_pairs n) (h, m_params this))
    as (Hdom & Hother & Hkeep & Hnew & Hinj).
  pose proof (allocate_keys_held (port_pairs n) (port_pairs_NoDup n)
                (h, m_params this)) as Hheld.
  set (st' := allocate_keys (h, m_params this) (port_pairs n)) in *.
  simpl in *.
  assert (Hkeys : forall k l, st'.2 !! k = Some l -> k ∈ port_pairs n).
  { intros k l Hk.
    assert (Hin : k ∈ dom st'.2) by (apply elem_of_dom; eauto).
    rewrite Hdom, Hempty, dom_empty_L in Hin. set_solver. }
  destruct (Clear_returns_iff st'.1 {| m_params := st'.2; m_nports := n |})
    as (Hret & _ & Hafter).
  simpl in *.
  destruct (proj2 Hret) as [[h'' this''] Hr].
  { split.
    - intros k1 k2 p H1 H2. eapply Hinj; eauto.
    - intros k p Hk. destruct (Hnew k (Hkeys _ _ Hk)) as (l & Hl & Hv & _).
      assert (l = p) as -> by congruence. eauto. }
  rewrite Hr.
  destruct (Hafter _ Hr) as (Hm & Hn & Hgone & Hrest & _). simpl in *.
  f_equal. f_equal.
  - apply map_eq. intros p.
    destruct (h !! p) as [v|] eqn:Hp.
    + rewrite Hrest; [now apply Hkeep|].
      intros k Hk. destruct (Hnew k (Hkeys _ _ Hk)) as (l & Hl & _ & Hfresh).
      congruence.
    + destruct (st'.1 !! p) as [v|] eqn:Hp'.
      * destruct (Hheld p Hp) as (k & _ & Hk); [eauto|].
        now apply (Hgone k).
      * rewrite Hrest; [exact Hp'|].
        intros k Hk. destruct (Hnew k (Hkeys _ _ Hk)) as (l & Hl & Hv & _).
        congruence.
  - destruct this''. simpl in *. congruence.
Qed.

Lemma Allocate_then_Clear_witness :
  m_params SParameters_new = ∅ /\
  Clear (Allocate 3 (∅, SParameters_new)) =
    Ret (∅, {| m_params := ∅; m_nports := 3 |}).
Proof.
  assert (H : m_params SParameters_new = ∅) by reflexivity.
  split; [exact H|]. exact (Allocate_then_Clear 3 ∅ SParameters_new H).
Defined.

(** X15.  [Allocate] over a model that already holds a vector for a pair
    of [[1, n] × [1, n]] leaks it: the vector stays in the store, no pair
    of the mapping holds its address any more, and a following [Clear]
    leaves it in the store. *)
Theorem Allocate_leaks_replaced (n : Z) (h : store) (this : SParameters)
    (d s : Z) (old : positive) (v : SParameterVector) :
  1 <= d <= n -> 1 <= s <= n ->
  m_params this !! (d, s) = Some old -> h !! old = Some v ->
  (forall k, m_params this !! k = Some old -> k = (d, s)) ->
  let st' := Allocate n (h, this) in
  st'.1 !! old = Some v /\
  (forall k, m_params st'.2 !! k <> Some old) /\
  (forall st'', Clear st' = Ret st'' -> st''.1 !! old = Some v).
Proof.
  intros Hd Hs Hold Hv Honly.
  rewrite Allocate_unfold. cbv zeta.
  destruct (allocate_keys_ok (port_pairs n) (h, m_params this))
    as (_ & Hother & Hkeep & Hnew & _).
  set (st' := allocate_keys (h, m_params this) (port_pairs n)) in *.
  simpl in *.
  assert (Hfree : forall k, st'.2 !! k <> Some old).
  { intros k Hk. destruct (decide (k ∈ port_pairs n)) as [Hin|Hnot].
    - destruct (Hnew k Hin) as (l & Hl & _ & Hfresh). congruence.
    - rewrite Hother in Hk by assumption.
      apply Honly in Hk. subst k. apply Hnot. apply port_pairs_elem. auto. }
  split; [now apply Hkeep|]. split; [exact Hfree|].
  intros st'' Hr.
  destruct (Clear_returns_iff st'.1 {| m_params := st'.2; m_nports := n |})
    as (_ & _ & Hafter).
  destruct (Hafter _ Hr) as (_ & _ & _ & Hrest & _). simpl in *.
  rewrite Hrest by exact Hfree. now apply Hkeep.
Qed.

Lemma Allocate_leaks_replaced_witness :
  let st1 := Allocate 1 (∅, SParameters_new) in
  let st2 := Allocate 1 st1 in
  1 <= 1 <= 1 /\
  m_params st1.2 !! (1, 1) = Some 1%positive /\ st1.1 !! 1%positive = Some [] /\
  st2.1 !! 1%positive = Some [] /\
  (forall st'', Clear st2 = Ret st'' -> st''.1 !! 1%positive = Some []).
Proof.
  intros st1 st2.
  assert (H1 : 1 <= 1 <= 1) by lia.
  assert (H2 : m_params st1.2 !! (1, 1) = Some 1%positive) by reflexivity.
  assert (H3 : st1.1 !! 1%positive = Some []) by reflexivity.
  assert (H4 : forall k, m_params st1.2 !! k = Some 1%positive -> k = (1, 1)).
  { intros k Hk. destruct (decide (k = (1, 1))) as [|Hne]; [assumption|].
    change (m_params st1.2) with (<[(1, 1) := 1%positive]> (∅ : gmap (Z * Z) positive)) in Hk.
    rewrite lookup_insert_ne in Hk by congruence.
    rewrite lookup_empty in Hk. discriminate. }
  split; [exact H1|]. split; [exact H2|]. split; [exact H3|].
  destruct (Allocate_leaks_replaced 1 st1.1 st1.2 1 1 1%positive [] H1 H1 H2 H3 H4)
    as (Hstill & _ & Hclear).
  split; [exact Hstill | exact Hclear].
Defined.

(** ** The cascade of two models *)

Lemma for_each_app {S A : Type} (body : S -> A -> result S) (l1 l2 : list A) :
  forall s, for_each body s (l1 ++ l2)
            = (s' ← for_each body s l1; for_each body s' l2).
Proof.
  induction l1 as [|x l1 IH]; intros s; simpl; [reflexivity|].
  destruct (body s x) as [s'| |]; simpl; [apply IH | reflexivity | reflexivity].
Qed.

Lemma for_each_fmap {S A B : Type} (body : S -> B -> result S) (g : A -> B)
    (l : list A) :
  forall s, for_each body s (g <$> l) = for_each (fun s x => body s (g x)) s l.
Proof.
  induction l as [|x l IH]; intros s; simpl; [reflexivity|].
  destruct (body s (g x)) as [s'| |]; simpl; [apply IH | reflexivity | reflexivity].
Qed.

Lemma for_each_ext {S A : Type} (f g : S -> A -> result S) (l : list A) :
  (forall s x, f s x = g s x) ->
  forall s, for_each f s l = for_each g s l.
Proof.
  intros Hfg. induction l as [|x l IH]; intros s; simpl; [reflexivity|].
  rewrite Hfg. destruct (g s x) as [s'| |]; simpl;
    [apply IH | reflexivity | reflexivity].
Qed.

(** The two nested loops visit the port pairs in order. *)
Lemma for_pairs_flat (n : Z) (body : store -> Z * Z -> result store) (h : store) :
  for_pairs n (fun h d s => body h (d, s)) h = for_each body h (port_pairs n).
Proof.
  unfold for_pairs, port_pairs.
  assert (H : forall (ds : list Z) (h : store),
            for_each (fun h d => for_each (fun h s => body h (d, s)) h (seqZ 1 n))
              h ds
            = for_each body h (ds ≫= fun d => seqZ 1 n ≫= fun s => [(d, s)])).
  { induction ds as [|d ds IH]; intros h0; csimpl; [reflexivity|].
    rewrite for_each_app, row_pairs, for_each_fmap.
    destruct (for_each _ h0 (seqZ 1 n)) as [h'| |]; simpl;
      [apply IH | reflexivity | reflexivity]. }
  apply H.
Qed.

(** A loop that meets a step that cannot return does not return. *)
Lemma for_each_stuck {S A : Type} (body : S -> A -> result S) (l : list A) x :
  x ∈ l -> (forall s s', body s x <> Ret s') ->
  forall s s', for_each body s l <> Ret s'.
Proof.
  intros Hin Hstuck. induction l as [|y l IH]; intros s s'.
  - exfalso. eapply not_elem_of_nil; eauto.
  - simpl. destruct (body s y) as [s1| |] eqn:E; simpl; try discriminate.
    apply elem_of_cons in Hin. destruct Hin as [->|Hin].
    + exfalso. exact (Hstuck _ _ E).
    + now apply IH.
Qed.

(** A loop over distinct pairs whose step replaces the vector of the left
    model by the result of [op] on the two vectors of the pair: the
    targets are distinct and none of them is a source. *)
Lemma for_each_update
    (op : SParameterVector -> SParameterVector -> result SParameterVector)
    (body : store -> positive -> positive -> result store)
    (m_t m_r : gmap (Z * Z) positive) :
  (forall (h : store) lt lr a b, lt <> lr -> h !! lt = Some a -> h !! lr = Some b ->
     body h lt lr = (a' ← op a b; Ret (<[lt := a']> h))) ->
  forall ks, NoDup ks -> forall h0 : store,
    (forall k, k ∈ ks -> exists lt lr a b a',
        m_t !! k = Some lt /\ m_r !! k = Some lr /\
        h0 !! lt = Some a /\ h0 !! lr = Some b /\ op a b = Ret a') ->
    (forall k1 k2 l, k1 ∈ ks -> k2 ∈ ks ->
        m_t !! k1 = Some l -> m_t !! k2 = Some l -> k1 = k2) ->
    (forall k1 k2 lt lr, k1 ∈ ks -> k2 ∈ ks ->
        m_t !! k1 = Some lt -> m_r !! k2 = Some lr -> lt <> lr) ->
    exists hf,
      for_each (fun h k => p ← entry m_t k; q ← entry m_r k; body h p q) h0 ks
      = Ret hf /\
      (forall k lt lr a b, k ∈ ks ->
         m_t !! k = Some lt -> m_r !! k = Some lr ->
         h0 !! lt = Some a -> h0 !! lr = Some b ->
         exists a', op a b = Ret a' /\ hf !! lt = Some a') /\
      (forall l, (forall k, k ∈ ks -> m_t !! k <> Some l) -> hf !! l = h0 !! l).
Proof.
  intros Hbody. induction 1 as [|k0 ks Hnot Hnd IH]; intros h0 Hall Hinj Hdis.
  - exists h0. split; [reflexivity|]. split; [|reflexivity].
    intros k lt lr a b Hk. exfalso. eapply not_elem_of_nil; eauto.
  - destruct (Hall k0) as (lt0 & lr0 & a0 & b0 & a0' & Ht0 & Hr0 & Ha0 & Hb0 & Hop0);
      [apply elem_of_cons; auto|].
    assert (Hne0 : lt0 <> lr0).
    { apply (Hdis k0 k0); auto; apply elem_of_cons; auto. }
    set (h1 := <[lt0 := a0']> h0).
    assert (Hfresh0 : forall k, k ∈ ks -> m_t !! k <> Some lt0).
    { intros k Hk Hl. apply Hnot.
      assert (E : k0 = k)
        by (apply (Hinj k0 k lt0); auto; apply elem_of_cons; auto).
      rewrite E. exact Hk. }
    assert (Hsame : forall k l, k ∈ ks ->
              (m_t !! k = Some l \/ m_r !! k = Some l) -> h1 !! l = h0 !! l).
    { intros k l Hk Hl. unfold h1. apply lookup_insert_ne. intros <-.
      destruct Hl as [Hl|Hl].
      - exact (Hfresh0 k Hk Hl).
      - apply (Hdis k0 k lt0 lt0); auto; apply elem_of_cons; auto. }
    destruct (IH h1) as (hf & Hloop & Hres & Hframe).
    { intros k Hk.
      destruct (Hall k) as (lt & lr & a & b & a' & Ht & Hr & Ha & Hb & Hop);
        [apply elem_of_cons; auto|].
      exists lt, lr, a, b, a'. repeat split; try assumption.
      - rewrite (Hsame k lt Hk); auto.
      - rewrite (Hsame k lr Hk); auto. }
    { intros k1 k2 l H1 H2. apply Hinj; apply elem_of_cons; auto. }
    { intros k1 k2 lt lr H1 H2. apply Hdis; apply elem_of_cons; auto. }
    exists hf. split; [|split].
    + assert (E1 : entry m_t k0 = Ret lt0) by (unfold entry; now rewrite Ht0).
      assert (E2 : entry m_r k0 = Ret lr0) by (unfold entry; now rewrite Hr0).
      cbn [for_each]. rewrite E1, E2. cbn [mbind result_bind].
      rewrite (Hbody h0 lt0 lr0 a0 b0 Hne0 Ha0 Hb0), Hop0.
      cbn [mbind result_bind]. exact Hloop.
    + intros k lt lr a b Hk Ht Hr Ha Hb.
      apply elem_of_cons in Hk. destruct Hk as [->|Hk].
      * assert (lt = lt0) as -> by congruence.
        assert (lr = lr0) as -> by congruence.
        assert (a = a0) as -> by congruence.
        assert (b = b0) as -> by congruence.
        exists a0'. split; [exact Hop0|].
        rewrite Hframe; [apply lookup_insert_eq | exact Hfresh0].
      * apply (Hres k lt lr a b Hk Ht Hr).
        -- rewrite (Hsame k lt Hk); auto.
        -- rewrite (Hsame k lr Hk); auto.
    + intros l Hl. rewrite Hframe.
      * unfold h1. apply lookup_insert_ne. intros <-.
        apply (Hl k0); [apply elem_of_cons; auto | exact Ht0].
      * intros k Hk. apply Hl. apply elem_of_cons. auto.
Qed.

Lemma copy_assign_at_value (h : store) lt lr (a b : SParameterVector) :
  lt <> lr -> h !! lt = Some a -> h !! lr = Some b ->
  copy_assign_at h lt lr = (a' ← Ret b; Ret (<[lt := a']> h)).
Proof.
  intros _ Ha Hb. unfold copy_assign_at.
  now rewrite (deref_Some _ _ _ Ha), (deref_Some _ _ _ Hb).
Qed.

Lemma mul_assign_at_value (h : store) lt lr (a b : SParameterVector) :
  lt <> lr -> h !! lt = Some a -> h !! lr = Some b ->
  mul_assign_at h lt lr = (a' ← mul_assign a b; Ret (<[lt := a']> h)).
Proof.
  intros Hne Ha Hb. unfold mul_assign_at, mul_assign.
  rewrite (deref_Some _ _ _ Ha). simpl.
  now apply cascade_loop_at_separate.
Qed.

(** X16.  [*this *= rhs] on a model whose mapping is empty, with a
    right-hand side that is not empty and holds a live vector for each
    pair of its [n >= 0] ports: the left model gets [n] ports and, for each
    pair, a vector of its own (at an address unused before) with the
    points of the right-hand side's vector; no vector that existed
    before is changed. *)
Theorem SParameters_mul_assign_adopts (empty : SParameters -> bool)
    (h : store) (this rhs : SParameters) :
  empty rhs = false -> m_params this = ∅ -> 0 <= m_nports rhs ->
  (forall d s, 1 <= d <= m_nports rhs -> 1 <= s <= m_nports rhs ->
     exists q v, m_params rhs !! (d, s) = Some q /\ h !! q = Some v) ->
  exists h' this',
    SParameters_mul_assign empty (h, this) rhs = Ret (h', this') /\
    m_nports this' = m_nports rhs /\
    dom (m_params this') = list_to_set (port_pairs (m_nports rhs)) /\
    (forall d s, 1 <= d <= m_nports rhs -> 1 <= s <= m_nports rhs ->
       exists p, m_params this' !! (d, s) = Some p /\ h !! p = None /\
         index (h', this') (d, s) = index (h, rhs) (d, s)) /\
    (forall p v, h !! p = Some v -> h' !! p = Some v).
Proof.
  intros Hrhs Hempty _ Hfull.
  unfold SParameters_mul_assign. rewrite Hrhs. cbn [fst snd].
  rewrite bool_decide_eq_true_2 by exact Hempty.
  rewrite Allocate_unfold. cbv zeta. cbn [fst snd m_params m_nports].
  set (n := m_nports rhs) in *.
  destruct (allocate_keys_ok (port_pairs n) (h, m_params this))
    as (Hdom & Hother & Hkeep & Hnew & Hinj).
  set (st1 := allocate_keys (h, m_params this) (port_pairs n)) in *.
  simpl in *.
  rewrite (for_pairs_flat n
             (fun h0 k => p ← entry st1.2 k; q ← entry (m_params rhs) k;
                          copy_assign_at h0 p q)).
  destruct (for_each_update (fun _ b => Ret b) copy_assign_at st1.2 (m_params rhs)
              copy_assign_at_value (port_pairs n) (port_pairs_NoDup n) st1.1)
    as (hf & Hloop & Hres & Hframe).
  { intros [d s] Hk. pose proof Hk as Hk'. apply port_pairs_elem in Hk'.
    destruct (Hnew _ Hk) as (l & Hl & Hv & _).
    destruct (Hfull d s) as (q & v & Hq & Hqv); [tauto | tauto |].
    exists l, q, [], v, v. repeat split; auto. }
  { exact Hinj. }
  { intros [d1 s1] [d2 s2] lt lr H1 H2 Ht Hr ->.
    destruct (Hnew _ H1) as (l & Hl & _ & Hfresh).
    apply port_pairs_elem in H2.
    destruct (Hfull d2 s2) as (q & v & Hq & Hqv); [tauto | tauto |].
    congruence. }
  exists hf, {| m_params := st1.2; m_nports := n |}.
  split; [rewrite Hloop; reflexivity|].
  split; [reflexivity|].
  split.
  { cbn [m_params]. rewrite Hdom, Hempty, dom_empty_L. apply (left_id_L ∅ (∪)). }
  split.
  - intros d s Hd Hs.
    assert (Hk : (d, s) ∈ port_pairs n) by (apply port_pairs_elem; auto).
    destruct (Hnew _ Hk) as (l & Hl & Hv & Hfresh).
    destruct (Hfull d s Hd Hs) as (q & v & Hq & Hqv).
    exists l. split; [exact Hl|]. split; [exact Hfresh|].
    destruct (Hres (d, s) l q [] v Hk Hl Hq Hv (Hkeep _ _ Hqv))
      as (a' & Ha' & Hfinal).
    injection Ha' as <-.
    unfold index. cbn [fst snd m_params]. now rewrite Hl, Hfinal, Hq, Hqv.
  - intros p v Hp. rewrite Hframe; [now apply Hkeep|].
    intros k Hk Hl. destruct (Hnew _ Hk) as (l & Hl' & _ & Hfresh). congruence.
Qed.

Lemma SParameters_mul_assign_adopts_witness :
  let empty := fun m : SParameters => bool_decide (m_params m = ∅) in
  let v := [mkPoint 1000000000 (1 # 2) 0] in
  let h : store := <[7%positive := v]> ∅ in
  let rhs := {| m_params := <[(1, 1) := 7%positive]> ∅; m_nports := 1 |} in
  empty rhs = false /\ m_params SParameters_new = ∅ /\ 0 <= m_nports rhs /\
  exists h' this',
    SParameters_mul_assign empty (h, SParameters_new) rhs = Ret (h', this') /\
    m_nports this' = 1 /\ index (h', this') (1, 1) = Ret v.
Proof.
  intros empty v h rhs.
  assert (H1 : empty rhs = false) by reflexivity.
  assert (H2 : m_params SParameters_new = ∅) by reflexivity.
  assert (H3 : 0 <= m_nports rhs) by (simpl; lia).
  split; [exact H1|]. split; [exact H2|]. split; [exact H3|].
  destruct (SParameters_mul_assign_adopts empty h SParameters_new rhs H1 H2 H3)
    as (h' & this' & Hr & Hn & _ & Hcopy & _).
  { intros d s Hd Hs. simpl in Hd, Hs.
    assert (d = 1) as -> by lia. assert (s = 1) as -> by lia.
    exists 7%positive, v. split; reflexivity. }
  exists h', this'. split; [exact Hr|]. split; [exact Hn|].
  destruct (Hcopy 1 1) as (p & _ & _ & Hindex); [simpl; lia | simpl; lia |].
  rewrite Hindex. reflexivity.
Defined.

(** X17.  [*this *= rhs] on two populated models: with a live vector for
    each pair of the left model's ports on both sides, the right ones not
    empty, the left addresses distinct from each other and from the right
    ones, each vector of the left model becomes its cascade with the
    vector of the same pair; the mapping, the port count and every other
    cell of the store stay as they were.  Pairs that the right-hand side
    holds beyond the left model's port count play no part. *)
Theorem SParameters_mul_assign_cascades (empty : SParameters -> bool)
    (h : store) (this rhs : SParameters) :
  empty rhs = false -> m_params this <> ∅ -> 0 <= m_nports this ->
  (forall k, k ∈ port_pairs (m_nports this) ->
     exists p q a b,
       m_params this !! k = Some p /\ m_params rhs !! k = Some q /\
       h !! p = Some a /\ h !! q = Some b /\
       b <> [] /\ representable a /\ representable b) ->
  (forall k1 k2 p, k1 ∈ port_pairs (m_nports this) ->
     k2 ∈ port_pairs (m_nports this) ->
     m_params this !! k1 = Some p -> m_params this !! k2 = Some p -> k1 = k2) ->
  (forall k1 k2 p q, k1 ∈ port_pairs (m_nports this) ->
     k2 ∈ port_pairs (m_nports this) ->
     m_params this !! k1 = Some p -> m_params rhs !! k2 = Some q -> p <> q) ->
  exists h',
    SParameters_mul_assign empty (h, this) rhs = Ret (h', this) /\
    (forall k p q a b, k ∈ port_pairs (m_nports this) ->
       m_params this !! k = Some p -> m_params rhs !! k = Some q ->
       h !! p = Some a -> h !! q = Some b ->
       exists a', mul_assign a b = Ret a' /\ h' !! p = Some a') /\
    (forall l, (forall k, k ∈ port_pairs (m_nports this) ->
                 m_params this !! k <> Some l) ->
       h' !! l = h !! l).
Proof.
  intros Hrhs Hfull _ Hall Hinj Hdis.
  unfold SParameters_mul_assign. rewrite Hrhs. cbn [fst snd].
  rewrite bool_decide_eq_false_2 by exact Hfull.
  rewrite (for_pairs_flat (m_nports this)
             (fun h0 k => p ← entry (m_params this) k;
                          q ← entry (m_params rhs) k;
                          mul_assign_at h0 p q)).
  destruct (for_each_update mul_assign mul_assign_at (m_params this) (m_params rhs)
              mul_assign_at_value (port_pairs (m_nports this))
              (port_pairs_NoDup _) h)
    as (hf & Hloop & Hres & Hframe).
  { intros k Hk.
    destruct (Hall k Hk) as (p & q & a & b & Hp & Hq & Ha & Hb & Hne & Hra & Hrb).
    destruct (cascade_loop_ok b Hne Hrb (length a) 0 a eq_refl Hra)
      as (a' & Hr & _).
    exists p, q, a, b, a'. repeat split; assumption. }
  { exact Hinj. }
  { exact Hdis. }
  exists hf. split; [rewrite Hloop; reflexivity|].
  split; [exact Hres | exact Hframe].
Qed.

(** X18.  The port counts of the two models are not compared: when the
    right-hand side, or the left model itself, lacks a pair of the ports
    that the loops visit, the call does not return (it dereferences a
    null pointer or the end iterator), whatever the other pairs hold. *)
Theorem SParameters_mul_assign_missing_pair (empty : SParameters -> bool)
    (h : store) (this rhs : SParameters) (d s : Z) :
  empty rhs = false ->
  (m_params this <> ∅ ->
   1 <= d <= m_nports this -> 1 <= s <= m_nports this ->
   m_params this !! (d, s) = None \/ m_params rhs !! (d, s) = None ->
   forall r, SParameters_mul_assign empty (h, this) rhs <> Ret r) /\
  (m_params this = ∅ ->
   1 <= d <= m_nports rhs -> 1 <= s <= m_nports rhs ->
   m_params rhs !! (d, s) = None ->
   forall r, SParameters_mul_assign empty (h, this) rhs <> Ret r).
Proof.
  intros Hrhs. unfold SParameters_mul_assign. rewrite Hrhs. cbn [fst snd].
  split.
  - intros Hfull Hd Hs Hmiss r.
    rewrite bool_decide_eq_false_2 by exact Hfull.
    rewrite (for_pairs_flat (m_nports this)
               (fun h0 k => p ← entry (m_params this) k;
                            q ← entry (m_params rhs) k;
                            mul_assign_at h0 p q)).
    destruct (for_each _ h (port_pairs (m_nports this))) as [h'| |] eqn:E;
      simpl; try discriminate.
    exfalso. revert E. apply (for_each_stuck _ _ (d, s)).
    + apply port_pairs_elem. auto.
    + intros h0 h1. unfold entry.
      destruct Hmiss as [-> | Hq]; [discriminate|].
      destruct (m_params this !! (d, s)); simpl; [|discriminate].
      rewrite Hq. discriminate.
  - intros Hempty Hd Hs Hmiss r.
    rewrite bool_decide_eq_true_2 by exact Hempty.
    rewrite Allocate_unfold. cbv zeta. cbn [fst snd m_params m_nports].
    set (st1 := allocate_keys (h, m_params this) (port_pairs (m_nports rhs))).
    rewrite (for_pairs_flat (m_nports rhs)
               (fun h0 k => p ← entry st1.2 k; q ← entry (m_params rhs) k;
                            copy_assign_at h0 p q)).
    destruct (for_each _ st1.1 (port_pairs (m_nports rhs))) as [h'| |] eqn:E;
      simpl; try discriminate.
    exfalso. revert E. apply (for_each_stuck _ _ (d, s)).
    + apply port_pairs_elem. auto.
    + intros h0 h1. unfold entry.
      destruct (st1.2 !! (d, s)); simpl; [|discriminate].
      rewrite Hmiss. discriminate.
Qed.

Lemma SParameters_mul_assign_missing_pair_witness :
  let empty := fun m : SParameters => bool_decide (m_params m = ∅) in
  let st3 := Allocate 3 (∅, SParameters_new) in
  let st2 := Allocate 2 st3 in
  let this := {| m_params := m_params st3.2; m_nports := 3 |} in
  let rhs := {| m_params := <[(1, 1) := 1%positive]> ∅; m_nports := 1 |} in
  empty rhs = false /\ m_params this <> ∅ /\
  forall r, SParameters_mul_assign empty (st3.1, this) rhs <> Ret r.
Proof.
  intros empty st3 st2 this rhs.
  assert (H1 : empty rhs = false) by reflexivity.
  assert (H2 : m_params this <> ∅).
  { intros E. assert (Hl : m_params this !! (1, 1) = Some 1%positive)
      by (vm_compute; reflexivity).
    rewrite E, lookup_empty in Hl. discriminate. }
  split; [exact H1|]. split; [exact H2|].
  destruct (SParameters_mul_assign_missing_pair empty st3.1 this rhs 2 2 H1)
    as [Hmiss _].
  apply Hmiss; [exact H2 | simpl; lia | simpl; lia |].
  right. reflexivity.
Defined.

Lemma SParameters_mul_assign_cascades_witness :
  let empty := fun m : SParameters => bool_decide (m_params m = ∅) in
  let a := [mkPoint 1500000000 (1 # 2) 1] in
  let b := [mkPoint 1000000000 (1 # 2) 0; mkPoint 2000000000 (1 # 2) 0] in
  let h : store := <[1%positive := a]> (<[2%positive := b]> ∅) in
  let this := {| m_params := <[(1, 1) := 1%positive]> ∅; m_nports := 1 |} in
  let rhs := {| m_params := <[(1, 1) := 2%positive]> ∅; m_nports := 1 |} in
  empty rhs = false /\ m_params this <> ∅ /\ 0 <= m_nports this /\
  exists h' a',
    SParameters_mul_assign empty (h, this) rhs = Ret (h', this) /\
    mul_assign a b = Ret a' /\ h' !! 1%positive = Some a' /\
    h' !! 2%positive = Some b.
Proof.
  intros empty a b h this rhs.
  assert (H1 : empty rhs = false) by reflexivity.
  assert (H2 : m_params this <> ∅).
  { intros E. assert (Hl : m_params this !! (1, 1) = Some 1%positive)
      by reflexivity.
    rewrite E, lookup_empty in Hl. discriminate. }
  assert (H3 : 0 <= m_nports this) by (simpl; lia).
  assert (Hk : forall k, k ∈ port_pairs (m_nports this) -> k = (1, 1)).
  { intros [d s] Hin. apply port_pairs_elem in Hin. simpl in Hin.
    f_equal; lia. }
  assert (Hin : (1, 1) ∈ port_pairs (m_nports this))
    by (apply port_pairs_elem; simpl; lia).
  split; [exact H1|]. split; [exact H2|]. split; [exact H3|].
  destruct (SParameters_mul_assign_cascades empty h this rhs H1 H2 H3)
    as (h' & Hr & Hres & Hframe).
  - intros k Hkin. rewrite (Hk k Hkin).
    exists 1%positive, 2%positive, a, b.
    repeat split; try reflexivity. discriminate.
  - intros k1 k2 p Hk1 Hk2 _ _. now rewrite (Hk k1 Hk1), (Hk k2 Hk2).
  - intros k1 k2 p q Hk1 Hk2. rewrite (Hk k1 Hk1), (Hk k2 Hk2).
    intros [= <-] [= <-]. discriminate.
  - destruct (Hres (1, 1) 1%positive 2%positive a b Hin eq_refl eq_refl
                eq_refl eq_refl) as (a' & Ha' & Hfinal).
    exists h', a'. split; [exact Hr|]. split; [exact Ha'|].
    split; [exact Hfinal|].
    rewrite Hframe; [reflexivity|].
    intros k Hkin. rewrite (Hk k Hkin). discriminate.
Defined.

(** X20.  Whatever the model, the format and the unit, a call of
    [SaveToFile] that returns has only added to the log, at most two
    messages, and has left every file other than [path] as it was; the
    file at [path] is changed only when no error is logged. *)
Theorem SaveToFile_frame (st : store * SParameters) (path : string)
    (format : ParameterFormat) (freqUnit : FreqUnit) (w w' : World) :
  SaveToFile st path format freqUnit w = Ret w' ->
  (exists added, logged w' = logged w ++ added /\ (length added <= 2)%nat /\
     ((exists msg, LogError msg ∈ added) -> files w' = files w)) /\
  (forall other, other <> path -> files w' !! other = files w !! other).
Proof.
  unfold SaveToFile.
  destruct (negb (m_nports st.2 =? 2)).
  { intros [= <-]. split; [|reflexivity].
    exists [LogError two_port_message]. simpl. split; [reflexivity|].
    split; [lia | reflexivity]. }
  set (w1 := if negb (is_mag_angle format)
             then log (LogWarning format_message) w else w).
  assert (Hw1 : files w1 = files w /\
                exists pre, logged w1 = logged w ++ pre /\ (length pre <= 1)%nat /\
                            forall msg, LogError msg ∉ pre).
  { unfold w1. destruct (negb (is_mag_angle format)); simpl.
    - split; [reflexivity|]. exists [LogWarning format_message].
      split; [reflexivity|]. split; [simpl; lia|].
      intros msg Hin. apply list_elem_of_singleton in Hin. discriminate.
    - split; [reflexivity|]. exists []. rewrite app_nil_r.
      split; [reflexivity|]. split; [simpl; lia|].
      intros msg Hin. eapply not_elem_of_nil; eauto. }
  destruct Hw1 as (Hfiles & pre & Hlog & Hlen & Hnoerr).
  destruct (negb (can_open w1 path)).
  { intros [= <-]. simpl. split; [|now rewrite Hfiles].
    exists (pre ++ [LogError (open_message path)]).
    rewrite Hlog, <- app_assoc. split; [reflexivity|].
    split; [rewrite length_app; simpl; lia | intros _; exact Hfiles]. }
  destruct (index st (1, 1)) as [s11| |]; simpl; try discriminate.
  destruct (index st (1, 2)) as [s12| |]; simpl; try discriminate.
  destruct (index st (2, 1)) as [s21| |]; simpl; try discriminate.
  destruct (index st (2, 2)) as [s22| |]; simpl; try discriminate.
  destruct (write_lines _ _ _ _ _ _ _ _ _) as [fp| |]; simpl; try discriminate.
  intros [= <-]. simpl. split.
  - exists pre. split; [exact Hlog|]. split; [lia|].
    intros [msg Hin]. exfalso. exact (Hnoerr msg Hin).
  - intros other Hne. rewrite lookup_insert_ne by congruence. now rewrite Hfiles.
Qed.

Lemma SaveToFile_frame_witness :
  let st := Allocate 2 (∅, SParameters_new) in
  let w := mkWorld (<["other.s2p" := "kept"]> ∅) [] (fun _ => true) in
  exists w',
    SaveToFile st "out.s2p" (FORMAT_other 1) FREQ_GHZ w = Ret w' /\
    files w' !! "other.s2p" = Some "kept".
Proof.
  intros st w. eexists. split; [vm_compute; reflexivity|].
  match goal with
  | |- files ?w' !! _ = _ =>
      assert (Hr : SaveToFile st "out.s2p" (FORMAT_other 1) FREQ_GHZ w = Ret w')
        by (vm_compute; reflexivity);
      destruct (SaveToFile_frame st "out.s2p" (FORMAT_other 1) FREQ_GHZ w w' Hr)
        as [_ Hother]
  end.
  rewrite Hother by discriminate. reflexivity.
Defined.

(** ** A vector cascaded with itself *)









(* ===================================================================== *)
(** * Properties of the single-precision model *)
(* ===================================================================== *)

(** ** The constants *)

(** [IEEE.M_PI] and [IEEE.FLT_EPSILON] are the numbers [M_PI] and
    [FLT_EPSILON] of the exact model. *)
Lemma IEEE_constants :
  (IEEE.value IEEE.M_PI == M_PI)%Q /\
  (IEEE.value IEEE.FLT_EPSILON == FLT_EPSILON)%Q /\
  (IEEE.value IEEE.two_pi == 2 * M_PI)%Q /\
  IEEE.fmt IEEE.M_PI = "3.141593" /\
  IEEE.fmt (IEEE.to_double IEEE.rad2deg) = "57.295780".
Proof. repeat split; vm_compute; reflexivity. Qed.

(** ** The order of the numbers *)

Lemma SFcompare_rank (x y : spec_float) :
  SFcompare x y =
    match IEEE.rank x, IEEE.rank y with
    | Some a, Some b =>
        Some match a.1.1 ?= b.1.1 with
             | Eq => match a.1.2 ?= b.1.2 with
                     | Eq => a.2 ?= b.2
                     | c => c
                     end
             | c => c
             end
    | _, _ => None
    end.
Proof.
  destruct x as [[]|[]| |[] m1 e1], y as [[]|[]| |[] m2 e2];
    try reflexivity; simpl.
  rewrite Z.compare_opp. rewrite (Z.compare_antisym e1 e2).
  destruct (e1 ?= e2); reflexivity.
Qed.

Lemma flt_rank (x y : spec_float) :
  IEEE.flt x y = true <->
  exists a b, IEEE.rank x = Some a /\ IEEE.rank y = Some b /\ IEEE.lex_lt a b.
Proof.
  unfold IEEE.flt, SFltb. rewrite SFcompare_rank.
  destruct (IEEE.rank x) as [[[a1 a2] a3]|], (IEEE.rank y) as [[[b1 b2] b3]|];
    try (split; [discriminate | intros (a & b & H1 & H2 & _); discriminate]).
  unfold IEEE.lex_lt. simpl.
  split.
  - intros H. eexists _, _. split; [reflexivity|]. split; [reflexivity|].
    simpl.
    destruct (Z.compare_spec a1 b1); try discriminate; [|lia].
    destruct (Z.compare_spec a2 b2); try discriminate; [|lia].
    destruct (Z.compare_spec a3 b3); try discriminate. lia.
  - intros (a & b & [= <-] & [= <-] & H). simpl in H.
    destruct (Z.compare_spec a1 b1); [|reflexivity|lia].
    destruct (Z.compare_spec a2 b2); [|reflexivity|lia].
    destruct (Z.compare_spec a3 b3); [lia|reflexivity|lia].
Qed.

Lemma fle_rank (x y : spec_float) :
  IEEE.fle x y = true <->
  exists a b, IEEE.rank x = Some a /\ IEEE.rank y = Some b /\ (IEEE.lex_lt a b \/ a = b).
Proof.
  unfold IEEE.fle, SFleb. rewrite SFcompare_rank.
  destruct (IEEE.rank x) as [[[a1 a2] a3]|], (IEEE.rank y) as [[[b1 b2] b3]|];
    try (split; [discriminate | intros (a & b & H1 & H2 & _); discriminate]).
  unfold IEEE.lex_lt. simpl.
  split.
  - intros H. eexists _, _. split; [reflexivity|]. split; [reflexivity|].
    simpl.
    destruct (Z.compare_spec a1 b1); try discriminate; [|lia].
    destruct (Z.compare_spec a2 b2); try discriminate; [|lia].
    destruct (Z.compare_spec a3 b3); try discriminate; [|lia].
    right. congruence.
  - intros (a & b & [= <-] & [= <-] & H). simpl in H.
    assert (a1 < b1 \/ a1 = b1 /\ (a2 < b2 \/ a2 = b2 /\ a3 <= b3)) as H'.
    { destruct H as [H|[= -> -> ->]]; lia. }
    clear H.
    destruct (Z.compare_spec a1 b1); [|reflexivity|lia].
    destruct (Z.compare_spec a2 b2); [|reflexivity|lia].
    destruct (Z.compare_spec a3 b3); [reflexivity|reflexivity|lia].
Qed.

Lemma rank_is_nan (x : spec_float) : IEEE.is_nan x = false <-> exists a, IEEE.rank x = Some a.
Proof.
  destruct x as [[]|[]| |[] m e]; simpl; split; eauto;
    try discriminate; intros [a H]; discriminate.
Qed.

Lemma flt_fle (x y : spec_float) : IEEE.flt x y = true -> IEEE.fle x y = true.
Proof.
  rewrite flt_rank, fle_rank. intros (a & b & ? & ? & ?); eauto 6.
Qed.

Lemma flt_irrefl (x : spec_float) : IEEE.flt x x = false.
Proof.
  destruct (IEEE.flt x x) eqn:E; [|reflexivity].
  apply flt_rank in E. destruct E as (a & b & Ha & Hb & H).
  rewrite Ha in Hb. injection Hb as <-. unfold IEEE.lex_lt in H. lia.
Qed.

Lemma flt_asym (x y : spec_float) : IEEE.flt x y = true -> IEEE.flt y x = false.
Proof.
  intros H. destruct (IEEE.flt y x) eqn:E; [|reflexivity].
  apply flt_rank in H, E.
  destruct H as (a & b & Ha & Hb & H), E as (b' & a' & Hb' & Ha' & H').
  rewrite Ha in Ha'. rewrite Hb in Hb'. injection Ha' as <-. injection Hb' as <-.
  unfold IEEE.lex_lt in *. lia.
Qed.

Lemma flt_trans (x y z : spec_float) :
  IEEE.flt x y = true -> IEEE.flt y z = true -> IEEE.flt x z = true.
Proof.
  rewrite !flt_rank.
  intros (a & b & Ha & Hb & H) (b' & c & Hb' & Hc & H').
  rewrite Hb in Hb'. injection Hb' as <-.
  exists a, c. repeat split; try assumption. unfold IEEE.lex_lt in *. lia.
Qed.

Lemma fle_flt_trans (x y z : spec_float) :
  IEEE.fle x y = true -> IEEE.flt y z = true -> IEEE.flt x z = true.
Proof.
  rewrite !flt_rank, fle_rank.
  intros (a & b & Ha & Hb & H) (b' & c & Hb' & Hc & H').
  rewrite Hb in Hb'. injection Hb' as <-.
  exists a, c. repeat split; try assumption.
  destruct H as [H| ->]; [|assumption]. unfold IEEE.lex_lt in *. lia.
Qed.

Lemma flt_fle_trans (x y z : spec_float) :
  IEEE.flt x y = true -> IEEE.fle y z = true -> IEEE.flt x z = true.
Proof.
  rewrite !flt_rank, fle_rank.
  intros (a & b & Ha & Hb & H) (b' & c & Hb' & Hc & H').
  rewrite Hb in Hb'. injection Hb' as <-.
  exists a, c. repeat split; try assumption.
  destruct H' as [H'| <-]; [|assumption]. unfold IEEE.lex_lt in *. lia.
Qed.

(** Of two numbers, the one that is not above the other is at most the
    other. *)
Lemma not_fgt_fle (x y : spec_float) :
  IEEE.is_nan x = false -> IEEE.is_nan y = false -> IEEE.fgt x y = false -> IEEE.fle x y = true.
Proof.
  intros Hx Hy H. apply rank_is_nan in Hx, Hy.
  destruct Hx as [a Ha], Hy as [b Hb].
  apply fle_rank. exists a, b. repeat split; try assumption.
  destruct a as [[a1 a2] a3], b as [[b1 b2] b3].
  assert (~ IEEE.lex_lt (b1, b2, b3) (a1, a2, a3)) as Hn.
  { intros Hlt. unfold IEEE.fgt in H.
    assert (IEEE.flt y x = true) by (apply flt_rank; eauto 6).
    unfold IEEE.flt in *. congruence. }
  unfold IEEE.lex_lt in *. simpl in *.
  destruct (Z.eq_dec a1 b1), (Z.eq_dec a2 b2), (Z.eq_dec a3 b3);
    try (left; lia).
  right. congruence.
Qed.

Lemma fle_refl (x : spec_float) : IEEE.is_nan x = false -> IEEE.fle x x = true.
Proof.
  intros H. apply rank_is_nan in H. destruct H as [a Ha].
  apply fle_rank. eauto 6.
Qed.

Lemma flt_not_nan (x y : spec_float) :
  IEEE.flt x y = true -> IEEE.is_nan x = false /\ IEEE.is_nan y = false.
Proof.
  rewrite flt_rank, !rank_is_nan. intros (a & b & ? & ? & _). eauto.
Qed.

Lemma fle_not_nan (x y : spec_float) :
  IEEE.fle x y = true -> IEEE.is_nan x = false /\ IEEE.is_nan y = false.
Proof.
  rewrite fle_rank, !rank_is_nan. intros (a & b & ? & ? & _). eauto.
Qed.

Lemma fle_not_fgt (x y : spec_float) : IEEE.fle x y = true -> IEEE.fgt x y = false.
Proof.
  intros H. unfold IEEE.fgt. destruct (SFltb y x) eqn:E; [|reflexivity].
  change (IEEE.flt y x = true) in E.
  pose proof (fle_flt_trans _ _ _ H E) as H'.
  now rewrite flt_irrefl in H'.
Qed.

Lemma feq_refl (x : spec_float) : IEEE.is_nan x = false -> IEEE.feq x x = true.
Proof.
  intros H. unfold IEEE.feq, SFeqb. rewrite SFcompare_rank.
  apply rank_is_nan in H. destruct H as [a ->].
  now rewrite !Z.compare_refl.
Qed.

(** ** Vector access *)

Lemma IEEE_at_Ret (v : IEEE.SParameterVector) i p :
  IEEE.at_ v i = Ret p <-> 0 <= i < IEEE.size_of v /\ v !! Z.to_nat i = Some p.
Proof.
  unfold IEEE.at_.
  destruct (0 <=? i) eqn:E1; destruct (i <? IEEE.size_of v) eqn:E2; simpl;
    try (split; [discriminate | intros [[? ?] _]; lia]).
  apply Z.leb_le in E1. apply Z.ltb_lt in E2.
  destruct (v !! Z.to_nat i) eqn:E.
  - split; [intros [= ->]; auto | intros [_ [= ->]]; reflexivity].
  - split; [discriminate | intros [_ ?]; discriminate].
Qed.

Lemma IEEE_at_in_bounds (v : IEEE.SParameterVector) i :
  0 <= i < IEEE.size_of v -> exists p, IEEE.at_ v i = Ret p.
Proof.
  intros H. destruct (v !! Z.to_nat i) as [p|] eqn:E.
  - exists p. apply IEEE_at_Ret. auto.
  - apply lookup_ge_None in E. unfold IEEE.size_of in H. lia.
Qed.

Lemma IEEE_at_out_of_bounds (v : IEEE.SParameterVector) i :
  ~ (0 <= i < IEEE.size_of v) -> IEEE.at_ v i = Fault.
Proof.
  intros H. destruct (IEEE.at_ v i) as [p| |] eqn:E; try reflexivity.
  - apply IEEE_at_Ret in E. tauto.
  - unfold IEEE.at_ in E. repeat case_match; discriminate.
Qed.

Lemma IEEE_at_nat (v : IEEE.SParameterVector) (i : nat) p :
  v !! i = Some p -> IEEE.at_ v (Z.of_nat i) = Ret p.
Proof.
  intros H. apply IEEE_at_Ret. rewrite Nat2Z.id. split; [|exact H].
  apply lookup_lt_Some in H. unfold IEEE.size_of. lia.
Qed.

(** ** The binary search *)

(** The loop ends within [fuel] iterations on a bracket of width at
    most one inside the bracket it started from.  It keeps, at its low
    end, whatever holds of every index whose frequency is not above [f],
    and at its high end whatever holds of every index whose frequency
    is above [f]. *)
Lemma IEEE_search_loop_ok (v : IEEE.SParameterVector) (f : IEEE.float)
    (Plo Phi : Z -> Prop) :
  IEEE.representable v ->
  (forall i p, IEEE.at_ v i = Ret p -> IEEE.fgt (IEEE.m_frequency p) f = false -> Plo i) ->
  (forall i p, IEEE.at_ v i = Ret p -> IEEE.fgt (IEEE.m_frequency p) f = true -> Phi i) ->
  forall fuel pos lo hi,
    IEEE.search_inv v pos lo hi ->
    Z.max 1 (hi - lo) <= Z.of_nat fuel ->
    exists lo' hi',
      IEEE.search_loop fuel v f pos lo hi = Ret (lo', hi') /\
      lo <= lo' /\ lo' <= hi' /\ hi' <= hi /\ hi' - lo' <= 1 /\
      (1 <= hi - lo -> hi' = lo' + 1) /\
      (Plo lo -> Plo lo') /\
      (Phi hi -> Phi hi').
Proof.
  intros Hrep HPlo HPhi. unfold IEEE.representable in Hrep.
  induction fuel as [|fuel IH]; intros pos lo hi (Hlo & Hpos & Hhi & Hmid) Hfuel.
  - lia.
  - simpl.
    destruct (IEEE_at_in_bounds v pos) as [pivot Hpivot]; [lia|].
    rewrite Hpivot. simpl.
    rewrite (wrap_small (hi - lo)) by lia.
    destruct (hi - lo <=? 1) eqn:Hgap.
    + apply Z.leb_le in Hgap.
      exists lo, hi. repeat split; auto; lia.
    + apply Z.leb_gt in Hgap.
      destruct (IEEE.fgt (IEEE.m_frequency pivot) f) eqn:Hcmp.
      * rewrite (wrap_small (pos - lo)) by lia.
        assert (Hd : 0 <= (pos - lo) / 2 < pos - lo).
        { split; [apply Z.div_pos; lia | apply Z.div_lt; lia]. }
        assert (Hd2 : pos - lo = 1 \/ 1 <= (pos - lo) / 2).
        { destruct (Z.eq_dec (pos - lo) 1); [left; assumption | right].
          apply Z.div_le_lower_bound; lia. }
        rewrite (wrap_small (lo + (pos - lo) / 2)) by lia.
        destruct (IH (lo + (pos - lo) / 2) lo pos) as (lo' & hi' & Hr & H).
        { unfold IEEE.search_inv. repeat split; lia. }
        { lia. }
        exists lo', hi'. rewrite Hr. split; [reflexivity|].
        destruct H as (H1 & H2 & H3 & H4 & H5 & H6 & H7).
        repeat split; try lia; auto.
        intros _. apply H7. eapply HPhi; eauto.
      * rewrite (wrap_small (hi - pos)) by lia.
        assert (Hd : 0 <= (hi - pos) / 2 < hi - pos).
        { split; [apply Z.div_pos; lia | apply Z.div_lt; lia]. }
        assert (Hd2 : hi - pos = 1 \/ 1 <= (hi - pos) / 2).
        { destruct (Z.eq_dec (hi - pos) 1); [left; assumption | right].
          apply Z.div_le_lower_bound; lia. }
        rewrite (wrap_small (hi - (hi - pos) / 2)) by lia.
        destruct (IH (hi - (hi - pos) / 2) pos hi) as (lo' & hi' & Hr & H).
        { unfold IEEE.search_inv. repeat split; lia. }
        { lia. }
        exists lo', hi'. rewrite Hr. split; [reflexivity|].
        destruct H as (H1 & H2 & H3 & H4 & H5 & H6 & H7).
        repeat split; try lia; auto.
        intros _. apply H6. eapply HPlo; eauto.
Qed.

(** More fuel does not change what the loop returns. *)
Lemma IEEE_search_loop_fuel (v : IEEE.SParameterVector) (f : IEEE.float) fuel :
  forall pos lo hi r extra,
    IEEE.search_loop fuel v f pos lo hi = Ret r ->
    IEEE.search_loop (fuel + extra) v f pos lo hi = Ret r.
Proof.
  induction fuel as [|fuel IH]; intros pos lo hi r extra H.
  - discriminate H.
  - simpl in *. destruct (IEEE.at_ v pos) as [pivot| |]; simpl in *; try discriminate.
    destruct (wrap (hi - lo) <=? 1); [assumption|].
    destruct (IEEE.fgt (IEEE.m_frequency pivot) f); apply IH; assumption.
Qed.

(** ** InterpolatePoint *)

Lemma IEEE_lowest_at (v : IEEE.SParameterVector) p :
  IEEE.lowest v = Some p -> IEEE.at_ v 0 = Ret p.
Proof.
  intros H. apply (IEEE_at_nat v 0). destruct v; [discriminate|exact H].
Qed.

Lemma IEEE_highest_at (v : IEEE.SParameterVector) p :
  IEEE.highest v = Some p -> IEEE.at_ v (IEEE.size_of v - 1) = Ret p.
Proof.
  unfold IEEE.highest. rewrite last_lookup. intros H.
  assert (Hlen : (0 < length v)%nat).
  { apply lookup_lt_Some in H. destruct v; simpl in *; lia. }
  replace (IEEE.size_of v - 1) with (Z.of_nat (pred (length v)))
    by (unfold IEEE.size_of; lia).
  now apply IEEE_at_nat.
Qed.

Lemma IEEE_nonempty_ends (v : IEEE.SParameterVector) :
  v <> [] -> exists first final, IEEE.lowest v = Some first /\ IEEE.highest v = Some final.
Proof.
  intros H. destruct v as [|p v]; [congruence|].
  exists p. destruct (last (p :: v)) as [q|] eqn:E; [eauto|].
  apply last_None in E. discriminate.
Qed.

Lemma IEEE_size_of_pos (v : IEEE.SParameterVector) : v <> [] -> 1 <= IEEE.size_of v.
Proof. destruct v; [congruence|]. unfold IEEE.size_of. simpl. lia. Qed.

(** The three cases of [InterpolatePoint] on a vector that is not empty. *)
Lemma IEEE_InterpolatePoint_fuel_cases fuel (v : IEEE.SParameterVector) f first final :
  IEEE.representable v -> IEEE.lowest v = Some first -> IEEE.highest v = Some final ->
  IEEE.InterpolatePoint_fuel fuel v f =
    if IEEE.flt f (IEEE.m_frequency first) then
      Ret {| IEEE.m_frequency := f;
             IEEE.m_amplitude := IEEE.m_amplitude first;
             IEEE.m_phase := IEEE.InterpolatePhase (S754_zero false) (IEEE.m_phase first)
                          (IEEE.fdiv f (IEEE.m_frequency first)) |}
    else if IEEE.fgt f (IEEE.m_frequency final) then
      Ret {| IEEE.m_frequency := f;
             IEEE.m_amplitude := S754_zero false;
             IEEE.m_phase := S754_zero false |}
    else
      '(lo, hi) ← IEEE.search_loop fuel v f (IEEE.size_of v / 2) 0 (IEEE.size_of v - 1);
      IEEE.interpolate_between v f lo hi.
Proof.
  intros Hrep Hfirst Hfinal. unfold IEEE.InterpolatePoint_fuel.
  rewrite (IEEE_lowest_at _ _ Hfirst). simpl.
  destruct (IEEE.flt f (IEEE.m_frequency first)); [reflexivity|].
  assert (Hne : v <> []) by (intros ->; discriminate).
  apply IEEE_size_of_pos in Hne. unfold IEEE.representable in Hrep.
  rewrite (wrap_small (IEEE.size_of v - 1)) by lia.
  rewrite (IEEE_highest_at _ _ Hfinal). simpl. reflexivity.
Qed.

Lemma IEEE_search_inv_init (v : IEEE.SParameterVector) :
  1 <= IEEE.size_of v -> IEEE.search_inv v (IEEE.size_of v / 2) 0 (IEEE.size_of v - 1).
Proof.
  intros H. unfold IEEE.search_inv.
  assert (0 <= IEEE.size_of v / 2) by (apply Z.div_pos; lia).
  assert (IEEE.size_of v / 2 <= IEEE.size_of v - 1).
  { destruct (Z.eq_dec (IEEE.size_of v) 1) as [->|]; [reflexivity|].
    assert (IEEE.size_of v / 2 < IEEE.size_of v) by (apply Z.div_lt; lia). lia. }
  repeat split; try lia.
  - apply Z.div_str_pos. lia.
  - apply Z.div_lt_upper_bound; lia.
Qed.

Lemma rank_eq (a b : spec_float) ra rb :
  IEEE.rank a = Some ra -> IEEE.rank b = Some rb ->
  IEEE.flt a b = false -> IEEE.flt b a = false -> ra = rb.
Proof.
  intros Ha Hb H1 H2.
  assert (Hna : IEEE.is_nan a = false) by (apply rank_is_nan; eauto).
  assert (Hnb : IEEE.is_nan b = false) by (apply rank_is_nan; eauto).
  pose proof (not_fgt_fle a b Hna Hnb H2) as L1.
  pose proof (not_fgt_fle b a Hnb Hna H1) as L2.
  apply fle_rank in L1, L2.
  destruct L1 as (x & y & Hx & Hy & L1), L2 as (y' & x' & Hy' & Hx' & L2).
  rewrite Ha in Hx, Hx'. rewrite Hb in Hy, Hy'.
  injection Hx as <-. injection Hx' as <-. injection Hy as <-. injection Hy' as <-.
  destruct L1 as [L1|L1]; [|assumption].
  destruct L2 as [L2|L2]; [|congruence].
  unfold IEEE.lex_lt in *. lia.
Qed.

(** Two numbers neither of which is below the other have the
    difference zero, or NaN. *)
Lemma fsub_unordered (a b : IEEE.float) :
  IEEE.flt a b = false -> IEEE.flt b a = false ->
  match IEEE.fsub a b with
  | S754_zero _ | S754_nan => True
  | _ => False
  end.
Proof.
  intros H1 H2.
  destruct (IEEE.rank a) as [ra|] eqn:Ha; [|destruct a as [|[]| |[]]; try discriminate; exact I].
  destruct (IEEE.rank b) as [rb|] eqn:Hb;
    [|destruct b as [|[]| |[]]; try discriminate;
      destruct a; exact I].
  pose proof (rank_eq a b ra rb Ha Hb H1 H2) as <-.
  destruct a as [[]|[]| |[] m1 e1], b as [[]|[]| |[] m2 e2];
    simpl in Ha, Hb; try exact I; try congruence;
    rewrite <- Hb in Ha; injection Ha as He Hm; subst;
    try (apply Z.opp_inj in He; subst);
    unfold IEEE.fsub, SFsub, cond_Zopp; rewrite Z.min_id, Z.sub_diag; exact I.
Qed.

(** What [InterpolatePhase] computes is the wrap-aware interpolation of
    the specification: when the two phases are more than π apart, the
    one that receives 2π is the smaller one. *)
Lemma apart_ordered (a b : IEEE.float) :
  IEEE.apart a b = true -> IEEE.flt a b = false -> IEEE.flt b a = true.
Proof.
  intros Hap H1. destruct (IEEE.flt b a) eqn:H2; [reflexivity|].
  pose proof (fsub_unordered a b H1 H2) as H.
  unfold IEEE.apart in Hap. destruct (IEEE.fsub a b); try contradiction;
    discriminate Hap.
Qed.

Lemma IEEE_InterpolatePhase_wrap_aware (a b t : IEEE.float) :
  IEEE.InterpolatePhase a b t = IEEE.wrap_aware a b t.
Proof.
  unfold IEEE.InterpolatePhase, IEEE.wrap_aware, IEEE.plus_two_pi, IEEE.minus_two_pi, IEEE.lerp.
  fold (IEEE.apart a b).
  destruct (IEEE.apart a b) eqn:Hap; simpl; [|reflexivity].
  destruct (IEEE.flt a b) eqn:Hab.
  - rewrite (flt_asym _ _ Hab). reflexivity.
  - rewrite (apart_ordered _ _ Hap Hab). reflexivity.
Qed.

Lemma IEEE_interpolate_between_value (v : IEEE.SParameterVector) f lo hi p_lo p_hi :
  IEEE.at_ v lo = Ret p_lo -> IEEE.at_ v hi = Ret p_hi ->
  IEEE.interpolate_between v f lo hi =
    let t := IEEE.guarded_position (IEEE.m_frequency p_lo) (IEEE.m_frequency p_hi) f in
    Ret {| IEEE.m_frequency := f;
           IEEE.m_amplitude := IEEE.lerp (IEEE.m_amplitude p_lo) (IEEE.m_amplitude p_hi) t;
           IEEE.m_phase := IEEE.wrap_aware (IEEE.m_phase p_lo) (IEEE.m_phase p_hi) t |}.
Proof.
  intros Hlo Hhi. unfold IEEE.interpolate_between. rewrite Hlo, Hhi. simpl.
  rewrite IEEE_InterpolatePhase_wrap_aware. reflexivity.
Qed.

Lemma IEEE_search_returns (v : IEEE.SParameterVector) f fuel :
  v <> [] -> IEEE.representable v -> (length v <= fuel)%nat ->
  exists lo hi,
    IEEE.search_loop fuel v f (IEEE.size_of v / 2) 0 (IEEE.size_of v - 1) = Ret (lo, hi) /\
    0 <= lo /\ lo <= hi /\ hi < IEEE.size_of v /\ hi - lo <= 1 /\
    (2 <= IEEE.size_of v -> hi = lo + 1).
Proof.
  intros Hne Hrep Hfuel.
  pose proof (IEEE_size_of_pos v Hne) as Hpos.
  destruct (IEEE_search_loop_ok v f (fun _ => True) (fun _ => True) Hrep
              (fun _ _ _ _ => I) (fun _ _ _ _ => I)
              fuel _ _ _ (IEEE_search_inv_init v Hpos))
    as (lo & hi & Hr & H1 & H2 & H3 & H4 & H5 & _).
  { unfold IEEE.size_of in *. lia. }
  exists lo, hi. repeat split; try assumption; try lia.
Qed.



(** What the fuel is does not matter, from the number of points on. *)
Lemma IEEE_InterpolatePoint_fuel_irrelevant (v : IEEE.SParameterVector) f fuel :
  v <> [] -> IEEE.representable v -> (length v <= fuel)%nat ->
  IEEE.InterpolatePoint_fuel fuel v f = IEEE.InterpolatePoint v f.
Proof.
  intros Hne Hrep Hfuel.
  destruct (IEEE_nonempty_ends v Hne) as (first & final & Hfirst & Hfinal).
  unfold IEEE.InterpolatePoint.
  rewrite !(IEEE_InterpolatePoint_fuel_cases _ v f first final) by assumption.
  destruct (IEEE.flt f (IEEE.m_frequency first)); [reflexivity|].
  destruct (IEEE.fgt f (IEEE.m_frequency final)); [reflexivity|].
  destruct (IEEE_search_returns v f (length v) Hne Hrep (le_n _))
    as (lo & hi & Hr & _).
  replace fuel with (length v + (fuel - length v))%nat by lia.
  rewrite (IEEE_search_loop_fuel _ _ _ _ _ _ _ _ Hr). now rewrite Hr.
Qed.

(** ** Ascending vectors *)

Lemma IEEE_chain_lookup (R : IEEE.float -> IEEE.float -> Prop) :
  (forall a b c, R a b -> R b c -> R a c) ->
  forall (v : IEEE.SParameterVector) prev i p,
    IEEE.chain R prev v -> v !! i = Some p -> R prev (IEEE.m_frequency p).
Proof.
  intros Htrans. induction v as [|q v IH]; intros prev i p Hc Hi.
  - discriminate.
  - destruct Hc as [H1 H2]. destruct i as [|i]; simpl in Hi.
    + now injection Hi as <-.
    + eapply Htrans; [exact H1|]. eapply IH; eauto.
Qed.

Lemma IEEE_chained_lookup (R : IEEE.float -> IEEE.float -> Prop) :
  (forall a b c, R a b -> R b c -> R a c) ->
  forall (v : IEEE.SParameterVector) i j p q,
    IEEE.chained R v -> (i < j)%nat -> v !! i = Some p -> v !! j = Some q ->
    R (IEEE.m_frequency p) (IEEE.m_frequency q).
Proof.
  intros Htrans. induction v as [|x v IH]; intros i j p q Hc Hij Hi Hj.
  - discriminate.
  - destruct j as [|j]; [lia|]. simpl in Hj.
    destruct i as [|i]; simpl in Hi.
    + injection Hi as <-. eapply IEEE_chain_lookup; eauto.
    + apply (IH i j); try assumption; try lia.
      destruct v; simpl in *; [exact I | tauto].
Qed.

Lemma IEEE_ascending_lookup (v : IEEE.SParameterVector) i j p q :
  IEEE.strictly_ascending v -> (i < j)%nat -> v !! i = Some p -> v !! j = Some q ->
  IEEE.flt (IEEE.m_frequency p) (IEEE.m_frequency q) = true.
Proof.
  apply (IEEE_chained_lookup (fun a b => IEEE.flt a b = true)).
  intros a b c. apply flt_trans.
Qed.

(** In an ascending vector of two or more points no frequency is NaN. *)
Lemma IEEE_ascending_not_nan (v : IEEE.SParameterVector) i p :
  IEEE.strictly_ascending v -> (2 <= length v)%nat -> v !! i = Some p ->
  IEEE.is_nan (IEEE.m_frequency p) = false.
Proof.
  intros Hasc Hlen Hi.
  pose proof (lookup_lt_Some _ _ _ Hi) as Hlt.
  destruct i as [|i].
  - destruct (lookup_lt_is_Some_2 v 1) as [q Hq]; [lia|].
    exact (proj1 (flt_not_nan _ _ (IEEE_ascending_lookup v 0 1 p q Hasc
                                     ltac:(lia) Hi Hq))).
  - destruct (lookup_lt_is_Some_2 v 0) as [q Hq]; [lia|].
    exact (proj2 (flt_not_nan _ _ (IEEE_ascending_lookup v 0 (S i) q p Hasc
                                     ltac:(lia) Hq Hi))).
Qed.

(** The lowest point of an ascending vector is its highest point or has
    a lower frequency. *)
Lemma IEEE_ascending_ends (v : IEEE.SParameterVector) first final :
  IEEE.strictly_ascending v -> IEEE.lowest v = Some first -> IEEE.highest v = Some final ->
  (length v = 1%nat /\ first = final) \/
  ((2 <= length v)%nat /\ IEEE.flt (IEEE.m_frequency first) (IEEE.m_frequency final) = true).
Proof.
  intros Hasc Hfirst Hfinal. unfold IEEE.highest in Hfinal.
  rewrite last_lookup in Hfinal.
  destruct v as [|x v]; [discriminate|]. injection Hfirst as ->.
  destruct v as [|y v].
  - injection Hfinal as <-. left. auto.
  - right. split; [simpl; lia|].
    apply (IEEE_ascending_lookup (first :: y :: v) 0
             (pred (length (first :: y :: v)))); auto. simpl. lia.
Qed.

(** Within the range of an ascending vector neither the frequency asked
    for nor a sample frequency is NaN. *)
Lemma IEEE_in_range_not_nan (v : IEEE.SParameterVector) f :
  IEEE.strictly_ascending v -> IEEE.in_range v f ->
  IEEE.is_nan f = false /\
  forall i p, v !! i = Some p -> IEEE.is_nan (IEEE.m_frequency p) = false.
Proof.
  intros Hasc (first & final & Hfirst & Hfinal & Hge & Hle).
  split; [exact (proj2 (fle_not_nan _ _ Hge))|].
  intros i p Hi.
  destruct (IEEE_ascending_ends v first final Hasc Hfirst Hfinal)
    as [[Hlen Heq]|[Hlen _]].
  - destruct v as [|x [|y v]]; try discriminate.
    destruct i; [|discriminate]. simpl in *.
    injection Hi as <-. injection Hfirst as <-.
    exact (proj1 (fle_not_nan _ _ Hge)).
  - eapply IEEE_ascending_not_nan; eauto.
Qed.

(** In range, the loop ends on a bracket of adjacent points and the
    result is interpolated between them. *)
Lemma IEEE_InterpolatePoint_located (v : IEEE.SParameterVector) f :
  IEEE.representable v -> IEEE.strictly_ascending v -> IEEE.in_range v f ->
  exists lo hi p_lo p_hi,
    IEEE.search_loop (length v) v f (IEEE.size_of v / 2) 0 (IEEE.size_of v - 1) = Ret (lo, hi) /\
    0 <= lo /\ lo <= hi /\ hi < IEEE.size_of v /\ hi - lo <= 1 /\
    (2 <= IEEE.size_of v -> hi = lo + 1) /\
    IEEE.at_ v lo = Ret p_lo /\ IEEE.at_ v hi = Ret p_hi /\
    IEEE.fle (IEEE.m_frequency p_lo) f = true /\ IEEE.fle f (IEEE.m_frequency p_hi) = true /\
    IEEE.InterpolatePoint v f =
      (let t := IEEE.guarded_position (IEEE.m_frequency p_lo) (IEEE.m_frequency p_hi) f in
       Ret {| IEEE.m_frequency := f;
              IEEE.m_amplitude := IEEE.lerp (IEEE.m_amplitude p_lo) (IEEE.m_amplitude p_hi) t;
              IEEE.m_phase := IEEE.wrap_aware (IEEE.m_phase p_lo) (IEEE.m_phase p_hi) t |}).
Proof.
  intros Hrep Hasc Hin.
  destruct (IEEE_in_range_not_nan v f Hasc Hin) as [Hf Hv].
  destruct Hin as (first & final & Hfirst & Hfinal & Hge & Hle).
  assert (Hne : v <> []) by (intros ->; discriminate).
  pose proof (IEEE_size_of_pos v Hne) as Hpos.
  destruct (IEEE_search_loop_ok v f
              (fun i => exists p, IEEE.at_ v i = Ret p /\ IEEE.fle (IEEE.m_frequency p) f = true)
              (fun i => exists p, IEEE.at_ v i = Ret p /\ IEEE.fle f (IEEE.m_frequency p) = true)
              Hrep)
    with (fuel := length v) (pos := IEEE.size_of v / 2) (lo := 0)
         (hi := IEEE.size_of v - 1)
    as (lo & hi & Hr & H1 & H2 & H3 & H4 & H5 & H6 & H7).
  { intros i p Hp Hcmp. exists p. split; [assumption|].
    apply not_fgt_fle; try assumption.
    apply IEEE_at_Ret in Hp. eapply Hv. apply Hp. }
  { intros i p Hp Hcmp. exists p. split; [assumption|].
    apply flt_fle. exact Hcmp. }
  { now apply IEEE_search_inv_init. }
  { unfold IEEE.size_of in *. lia. }
  destruct H6 as (p_lo & Hlo & Hlo_le).
  { exists first. split; [now apply IEEE_lowest_at | assumption]. }
  destruct H7 as (p_hi & Hhi & Hhi_ge).
  { exists final. split; [now apply IEEE_highest_at | assumption]. }
  exists lo, hi, p_lo, p_hi.
  repeat split; try assumption; try lia.
  unfold IEEE.InterpolatePoint.
  rewrite (IEEE_InterpolatePoint_fuel_cases _ v f first final) by assumption.
  pose proof (fle_not_fgt _ _ Hge) as Hge'. unfold IEEE.fgt in Hge'.
  unfold IEEE.flt. rewrite Hge'.
  rewrite (fle_not_fgt _ _ Hle).
  rewrite Hr. simpl.
  now apply IEEE_interpolate_between_value.
Qed.

(** ** Claims on InterpolatePoint *)

(** C1 (amended).  For every frequency [f] within the sampled range of a
    non-empty, strictly ascending vector, the binary search of
    [InterpolatePoint] ends, within as many iterations as the vector has
    points, on indices [lo] and [hi] with [hi - lo <= 1] (adjacent as soon
    as the vector has two points) whose frequencies bracket [f]; it is the
    only adjacent pair with [f] strictly inside.  The returned point has
    the frequency [f], the amplitude [amp_lo + (amp_hi - amp_lo) * t] and
    the phase interpolated wrap-aware between the two bracketing phases
    at the same fraction [t], where [t] is
    [(f - f_lo) / (f_hi - f_lo)] when the difference [f_hi - f_lo]
    exceeds [FLT_EPSILON] and 0 otherwise; every operation is the
    single-precision one, rounded to nearest. *)
Theorem InterpolatePoint_in_range (v : IEEE.SParameterVector) (f : IEEE.float) :
  IEEE.representable v -> IEEE.strictly_ascending v -> IEEE.in_range v f ->
  exists lo hi p_lo p_hi r,
    IEEE.search_loop (length v) v f (IEEE.size_of v / 2) 0 (IEEE.size_of v - 1) = Ret (lo, hi) /\
    hi - lo <= 1 /\ (2 <= IEEE.size_of v -> hi = lo + 1) /\
    IEEE.at_ v lo = Ret p_lo /\ IEEE.at_ v hi = Ret p_hi /\
    IEEE.fle (IEEE.m_frequency p_lo) f = true /\ IEEE.fle f (IEEE.m_frequency p_hi) = true /\
    (forall (i : nat) p q,
        v !! i = Some p -> v !! S i = Some q ->
        IEEE.flt (IEEE.m_frequency p) f = true -> IEEE.flt f (IEEE.m_frequency q) = true ->
        lo = Z.of_nat i /\ hi = Z.of_nat (S i)) /\
    IEEE.InterpolatePoint v f = Ret r /\
    (forall fuel, (length v <= fuel)%nat -> IEEE.InterpolatePoint_fuel fuel v f = Ret r) /\
    IEEE.m_frequency r = f /\
    IEEE.m_amplitude r =
      IEEE.fadd (IEEE.m_amplitude p_lo)
        (IEEE.fmul (IEEE.fsub (IEEE.m_amplitude p_hi) (IEEE.m_amplitude p_lo))
           (IEEE.guarded_position (IEEE.m_frequency p_lo) (IEEE.m_frequency p_hi) f)) /\
    IEEE.m_phase r =
      IEEE.wrap_aware (IEEE.m_phase p_lo) (IEEE.m_phase p_hi)
        (IEEE.guarded_position (IEEE.m_frequency p_lo) (IEEE.m_frequency p_hi) f) /\
    (IEEE.fgt (IEEE.fsub (IEEE.m_frequency p_hi) (IEEE.m_frequency p_lo)) IEEE.FLT_EPSILON = true ->
       IEEE.guarded_position (IEEE.m_frequency p_lo) (IEEE.m_frequency p_hi) f =
       IEEE.fdiv (IEEE.fsub f (IEEE.m_frequency p_lo))
            (IEEE.fsub (IEEE.m_frequency p_hi) (IEEE.m_frequency p_lo))) /\
    (IEEE.fgt (IEEE.fsub (IEEE.m_frequency p_hi) (IEEE.m_frequency p_lo)) IEEE.FLT_EPSILON = false ->
       IEEE.guarded_position (IEEE.m_frequency p_lo) (IEEE.m_frequency p_hi) f =
       S754_zero false).
Proof.
  intros Hrep Hasc Hin.
  assert (Hne : v <> []).
  { destruct Hin as (first & _ & Hfirst & _). intros ->. discriminate. }
  destruct (IEEE_InterpolatePoint_located v f Hrep Hasc Hin)
    as (lo & hi & p_lo & p_hi & Hr & H0 & H1 & H2 & H3 & H4 & Hlo & Hhi
        & Hle & Hge & Hres).
  cbv zeta in Hres.
  eexists lo, hi, p_lo, p_hi, _.
  split; [exact Hr|]. split; [exact H3|]. split; [exact H4|].
  split; [exact Hlo|]. split; [exact Hhi|].
  split; [exact Hle|]. split; [exact Hge|].
  split.
  { intros i p q Hi Hj Hp Hq.
    apply IEEE_at_Ret in Hlo. destruct Hlo as [Hlo_b Hlo].
    apply IEEE_at_Ret in Hhi. destruct Hhi as [Hhi_b Hhi].
    assert (Hsz : 2 <= IEEE.size_of v).
    { apply lookup_lt_Some in Hj. unfold IEEE.size_of. lia. }
    specialize (H4 Hsz).
    assert (~ (S i <= Z.to_nat lo)%nat) as Hup.
    { intros Hcontra.
      assert (IEEE.fle (IEEE.m_frequency q) (IEEE.m_frequency p_lo) = true) as Hq_lo.
      { destruct (Nat.eq_dec (S i) (Z.to_nat lo)) as [E|E].
        - rewrite E in Hj. rewrite Hj in Hlo. injection Hlo as <-.
          apply fle_refl. exact (proj2 (flt_not_nan _ _ Hq)).
        - apply flt_fle.
          apply (IEEE_ascending_lookup v (S i) (Z.to_nat lo)); auto. lia. }
      pose proof (flt_fle_trans _ _ _ Hq Hq_lo) as Hc1.
      pose proof (flt_fle_trans _ _ _ Hc1 Hle) as Hc2.
      now rewrite flt_irrefl in Hc2. }
    assert (~ (Z.to_nat hi <= i)%nat) as Hdown.
    { intros Hcontra.
      assert (IEEE.fle (IEEE.m_frequency p_hi) (IEEE.m_frequency p) = true) as Hhi_p.
      { destruct (Nat.eq_dec (Z.to_nat hi) i) as [E|E].
        - rewrite E in Hhi. rewrite Hhi in Hi. injection Hi as <-.
          apply fle_refl. exact (proj1 (flt_not_nan _ _ Hp)).
        - apply flt_fle.
          apply (IEEE_ascending_lookup v (Z.to_nat hi) i); auto. lia. }
      pose proof (fle_flt_trans _ _ _ Hhi_p Hp) as Hc1.
      pose proof (fle_flt_trans _ _ _ Hge Hc1) as Hc2.
      now rewrite flt_irrefl in Hc2. }
    lia. }
  split; [exact Hres|].
  split.
  { intros fuel Hfuel.
    rewrite IEEE_InterpolatePoint_fuel_irrelevant by assumption. exact Hres. }
  simpl. split; [reflexivity|]. split; [reflexivity|].
  split; [reflexivity|].
  unfold IEEE.guarded_position. split; intros ->; reflexivity.
Qed.

Lemma InterpolatePoint_in_range_witness :
  let v := [IEEE.mkPoint (IEEE.float_of_Z 1000000000) (IEEE.float_of_ratio 1 2) (IEEE.float_of_Z 0);
            IEEE.mkPoint (IEEE.float_of_Z 2000000000) (IEEE.float_of_ratio 4 5) (IEEE.float_of_Z 3);
            IEEE.mkPoint (IEEE.float_of_Z 3000000000) (IEEE.float_of_ratio 1 5) (IEEE.float_of_Z (-3));
            IEEE.mkPoint (IEEE.float_of_Z 4000000000) (IEEE.float_of_ratio 1 10) (IEEE.float_of_Z 9)] in
  let f1 := IEEE.float_of_Z 1500000000 in
  let f2 := IEEE.float_of_Z 2500000000 in
  let f3 := IEEE.float_of_Z 3750000000 in
  IEEE.representable v /\ IEEE.strictly_ascending v /\
  IEEE.in_range v f1 /\ IEEE.in_range v f2 /\ IEEE.in_range v f3 /\
  (exists r, IEEE.InterpolatePoint v f1 = Ret r /\
     IEEE.fmt (IEEE.to_double (IEEE.m_amplitude r)) = "0.650000" /\
     IEEE.fmt (IEEE.to_double (IEEE.m_phase r)) = "1.500000") /\
  (exists r, IEEE.InterpolatePoint v f2 = Ret r /\
     IEEE.fmt (IEEE.to_double (IEEE.m_amplitude r)) = "0.500000" /\
     IEEE.fmt (IEEE.to_double (IEEE.m_phase r)) = "3.141593") /\
  (exists r, IEEE.InterpolatePoint v f3 = Ret r /\
     IEEE.fmt (IEEE.to_double (IEEE.m_amplitude r)) = "0.125000" /\
     IEEE.fmt (IEEE.to_double (IEEE.m_phase r)) = "1.287612").
Proof.
  intros v f1 f2 f3.
  assert (H2 : IEEE.representable v) by reflexivity.
  assert (H3 : IEEE.strictly_ascending v).
  { simpl. repeat split; reflexivity. }
  assert (I1 : IEEE.in_range v f1) by (eexists _, _; repeat split; reflexivity).
  assert (I2 : IEEE.in_range v f2) by (eexists _, _; repeat split; reflexivity).
  assert (I3 : IEEE.in_range v f3) by (eexists _, _; repeat split; reflexivity).
  split; [exact H2|]. split; [exact H3|].
  split; [exact I1|]. split; [exact I2|]. split; [exact I3|].
  split; [|split].
  - destruct (InterpolatePoint_in_range v f1 H2 H3 I1)
      as (lo & hi & p_lo & p_hi & r & _ & _ & _ & _ & _ & _ & _ & _ & Hr & _).
    exists r. split; [exact Hr|].
    vm_compute in Hr. injection Hr as <-. split; vm_compute; reflexivity.
  - destruct (InterpolatePoint_in_range v f2 H2 H3 I2)
      as (lo & hi & p_lo & p_hi & r & _ & _ & _ & _ & _ & _ & _ & _ & Hr & _).
    exists r. split; [exact Hr|].
    vm_compute in Hr. injection Hr as <-. split; vm_compute; reflexivity.
  - destruct (InterpolatePoint_in_range v f3 H2 H3 I3)
      as (lo & hi & p_lo & p_hi & r & _ & _ & _ & _ & _ & _ & _ & _ & Hr & _).
    exists r. split; [exact Hr|].
    vm_compute in Hr. injection Hr as <-. split; vm_compute; reflexivity.
Defined.

(** C1 as stated fails: two points [2^-24] apart are less than
    [FLT_EPSILON] apart; between them the code returns the amplitude of
    the low point, not the amplitude on the line through the two points. *)
Lemma InterpolatePoint_in_range_not_linear :
  let v := [IEEE.mkPoint (S754_zero false) (IEEE.float_of_Z 1) (S754_zero false);
            IEEE.mkPoint (IEEE.float_of_ratio 1 16777216) (IEEE.float_of_Z 2) (S754_zero false)] in
  let f := IEEE.float_of_ratio 1 33554432 in
  IEEE.representable v /\ IEEE.strictly_ascending v /\ IEEE.in_range v f /\
  exists r, IEEE.InterpolatePoint v f = Ret r /\
    IEEE.m_amplitude r = IEEE.float_of_Z 1 /\
    forall lo hi p_lo p_hi,
      IEEE.at_ v lo = Ret p_lo -> IEEE.at_ v hi = Ret p_hi -> hi = lo + 1 ->
      IEEE.fadd (IEEE.m_amplitude p_lo)
        (IEEE.fmul (IEEE.fsub (IEEE.m_amplitude p_hi) (IEEE.m_amplitude p_lo))
           (IEEE.fdiv (IEEE.fsub f (IEEE.m_frequency p_lo))
                 (IEEE.fsub (IEEE.m_frequency p_hi) (IEEE.m_frequency p_lo))))
      = IEEE.float_of_ratio 3 2 /\
      IEEE.feq (IEEE.m_amplitude r) (IEEE.float_of_ratio 3 2) = false.
Proof.
  intros v f.
  split; [reflexivity|].
  split; [simpl; split; [reflexivity|exact I]|].
  split. { eexists _, _. repeat split; reflexivity. }
  eexists. split; [vm_compute; reflexivity|].
  split; [reflexivity|].
  intros lo hi p_lo p_hi Hlo Hhi ->.
  apply IEEE_at_Ret in Hlo. destruct Hlo as [Hb Hlo].
  apply IEEE_at_Ret in Hhi. destruct Hhi as [Hb' Hhi].
  unfold IEEE.size_of in Hb, Hb'. simpl in Hb, Hb'.
  assert (lo = 0) as -> by lia.
  simpl in Hlo, Hhi. injection Hlo as <-. injection Hhi as <-.
  split; vm_compute; reflexivity.
Qed.

(** C2 (amended).  For every non-empty, strictly ascending vector: for
    every [f] strictly below the lowest sampled frequency the call returns
    the lowest point's amplitude unchanged and the phase interpolated
    wrap-aware from 0 to the lowest point's phase at the fraction
    [f / lowest_frequency], the division being the single-precision one;
    this is the interpolated value [0 + (phase - 0) * (f / lowest_frequency)]
    whenever 0 and the phase are not more than π apart and that value
    does not exceed 2π.  For every [f] strictly above the highest sampled
    frequency the call returns amplitude 0 and phase 0. *)
Theorem InterpolatePoint_out_of_range (v : IEEE.SParameterVector) (f : IEEE.float)
    (first final : IEEE.SParameterPoint) :
  IEEE.representable v -> IEEE.strictly_ascending v ->
  IEEE.lowest v = Some first -> IEEE.highest v = Some final ->
  (IEEE.flt f (IEEE.m_frequency first) = true ->
     exists r, IEEE.InterpolatePoint v f = Ret r /\
       IEEE.m_frequency r = f /\
       IEEE.m_amplitude r = IEEE.m_amplitude first /\
       IEEE.m_phase r =
         IEEE.wrap_aware (S754_zero false) (IEEE.m_phase first)
           (IEEE.fdiv f (IEEE.m_frequency first)) /\
       (let linear :=
          IEEE.fadd (S754_zero false)
            (IEEE.fmul (IEEE.fsub (IEEE.m_phase first) (S754_zero false))
               (IEEE.fdiv f (IEEE.m_frequency first))) in
        IEEE.apart (S754_zero false) (IEEE.m_phase first) = false ->
        IEEE.fgt (IEEE.to_double linear) IEEE.two_pi = false ->
        IEEE.m_phase r = linear)) /\
  (IEEE.flt (IEEE.m_frequency final) f = true ->
     IEEE.InterpolatePoint v f =
       Ret {| IEEE.m_frequency := f;
              IEEE.m_amplitude := S754_zero false;
              IEEE.m_phase := S754_zero false |}).
Proof.
  intros Hrep Hasc Hfirst Hfinal.
  unfold IEEE.InterpolatePoint.
  rewrite (IEEE_InterpolatePoint_fuel_cases _ v f first final) by assumption.
  split.
  - intros Hlt. rewrite Hlt.
    eexists. split; [reflexivity|]. simpl.
    split; [reflexivity|]. split; [reflexivity|].
    split; [apply IEEE_InterpolatePhase_wrap_aware|].
    intros Hap Hle. rewrite IEEE_InterpolatePhase_wrap_aware.
    unfold IEEE.wrap_aware. rewrite Hap. simpl. unfold IEEE.lerp. now rewrite Hle.
  - intros Hgt.
    assert (IEEE.flt f (IEEE.m_frequency first) = false) as ->.
    { destruct (IEEE.flt f (IEEE.m_frequency first)) eqn:E; [|reflexivity].
      assert (IEEE.fle (IEEE.m_frequency first) (IEEE.m_frequency final) = true) as Hends.
      { destruct (IEEE_ascending_ends v first final Hasc Hfirst Hfinal)
          as [[_ <-]|[_ H]]; [|now apply flt_fle].
        apply fle_refl. exact (proj2 (flt_not_nan _ _ E)). }
      pose proof (flt_fle_trans _ _ _ E Hends) as H1.
      pose proof (flt_trans _ _ _ H1 Hgt) as H2.
      now rewrite flt_irrefl in H2. }
    unfold IEEE.fgt. unfold IEEE.flt in Hgt. now rewrite Hgt.
Qed.

Lemma InterpolatePoint_out_of_range_witness :
  let v := [IEEE.mkPoint (IEEE.float_of_Z 1000000000) (IEEE.float_of_ratio 1 2) (IEEE.float_of_ratio 1 2);
            IEEE.mkPoint (IEEE.float_of_Z 2000000000) (IEEE.float_of_ratio 4 5) (IEEE.float_of_Z 1)] in
  let u := [IEEE.mkPoint (IEEE.float_of_Z 2) (IEEE.float_of_Z 1) (IEEE.float_of_Z 4)] in
  IEEE.representable v /\ IEEE.strictly_ascending v /\
  IEEE.representable u /\ IEEE.strictly_ascending u /\
  (exists r, IEEE.InterpolatePoint v (IEEE.float_of_Z 500000000) = Ret r /\
     IEEE.m_amplitude r = IEEE.float_of_ratio 1 2 /\ IEEE.m_phase r = IEEE.float_of_ratio 1 4) /\
  (exists r, IEEE.InterpolatePoint u (IEEE.float_of_Z 1) = Ret r /\
     IEEE.m_amplitude r = IEEE.float_of_Z 1 /\
     IEEE.fmt (IEEE.to_double (IEEE.m_phase r)) = "5.141593") /\
  IEEE.InterpolatePoint v (IEEE.float_of_Z 3000000000) =
    Ret {| IEEE.m_frequency := IEEE.float_of_Z 3000000000;
           IEEE.m_amplitude := S754_zero false;
           IEEE.m_phase := S754_zero false |}.
Proof.
  intros v u.
  assert (H1 : IEEE.representable v) by reflexivity.
  assert (H2 : IEEE.strictly_ascending v) by (simpl; split; [reflexivity|exact I]).
  assert (H3 : IEEE.representable u) by reflexivity.
  assert (H4 : IEEE.strictly_ascending u) by exact I.
  split; [exact H1|]. split; [exact H2|].
  split; [exact H3|]. split; [exact H4|]. split; [|split].
  - destruct (InterpolatePoint_out_of_range v (IEEE.float_of_Z 500000000) _ _
                H1 H2 eq_refl eq_refl) as [Hbelow _].
    destruct Hbelow as (r & Hr & _ & Hamp & _ & Hphase); [reflexivity|].
    exists r. split; [exact Hr|]. split; [exact Hamp|].
    rewrite Hphase; reflexivity.
  - destruct (InterpolatePoint_out_of_range u (IEEE.float_of_Z 1) _ _
                H3 H4 eq_refl eq_refl) as [Hbelow _].
    destruct Hbelow as (r & Hr & _ & Hamp & Hphase & _); [reflexivity|].
    exists r. split; [exact Hr|]. split; [exact Hamp|].
    rewrite Hphase. vm_compute. reflexivity.
  - destruct (InterpolatePoint_out_of_range v (IEEE.float_of_Z 3000000000) _ _
                H1 H2 eq_refl eq_refl) as [_ Habove].
    apply Habove. reflexivity.
Defined.

(** C2 as stated fails: below a lowest point whose phase exceeds π, the
    returned phase is not the one interpolated linearly from 0 to that
    phase: 2π is first added to 0. *)
Lemma InterpolatePoint_below_range_not_linear :
  let v := [IEEE.mkPoint (IEEE.float_of_Z 2) (IEEE.float_of_Z 1) (IEEE.float_of_Z 4)] in
  let f := IEEE.float_of_Z 1 in
  IEEE.representable v /\ IEEE.strictly_ascending v /\
  exists first r,
    IEEE.lowest v = Some first /\ IEEE.flt f (IEEE.m_frequency first) = true /\
    IEEE.InterpolatePoint v f = Ret r /\
    IEEE.m_amplitude r = IEEE.m_amplitude first /\
    IEEE.fadd (S754_zero false)
      (IEEE.fmul (IEEE.fsub (IEEE.m_phase first) (S754_zero false))
         (IEEE.fdiv f (IEEE.m_frequency first))) = IEEE.float_of_Z 2 /\
    IEEE.fmt (IEEE.to_double (IEEE.m_phase r)) = "5.141593" /\
    IEEE.feq (IEEE.m_phase r) (IEEE.float_of_Z 2) = false.
Proof.
  intros v f.
  split; [reflexivity|]. split; [exact I|].
  eexists _, _. split; [reflexivity|]. split; [reflexivity|].
  split; [vm_compute; reflexivity|]. split; [reflexivity|].
  repeat split; vm_compute; reflexivity.
Qed.

(** ** The interpolation at a sample *)

Lemma fsub_diag (x : IEEE.float) : IEEE.finite x = true -> IEEE.fsub x x = S754_zero false.
Proof.
  destruct x as [[]| | |s m e]; try discriminate; intros _; try reflexivity.
  unfold IEEE.fsub, SFsub. now rewrite Z.min_id, Z.sub_diag.
Qed.

(** A number above [FLT_EPSILON] is positive. *)
Lemma above_FLT_EPSILON (d : IEEE.float) :
  IEEE.fgt d IEEE.FLT_EPSILON = true ->
  d = S754_infinity false \/ exists m e, d = S754_finite false m e.
Proof.
  destruct d as [[]|[]| |[] m e]; try discriminate; eauto.
Qed.

(** At the low end of a bracket the fraction is 0. *)
Lemma guarded_position_low (freq_lo freq_hi : IEEE.float) :
  IEEE.finite freq_lo = true ->
  IEEE.guarded_position freq_lo freq_hi freq_lo = S754_zero false.
Proof.
  intros Hfin. unfold IEEE.guarded_position.
  destruct (IEEE.fgt (IEEE.fsub freq_hi freq_lo) IEEE.FLT_EPSILON) eqn:E; [|reflexivity].
  rewrite fsub_diag by assumption.
  destruct (above_FLT_EPSILON _ E) as [-> | (m & e & ->)]; reflexivity.
Qed.

(** The interpolation at the fraction 0 is the low value, up to the sign
    of a zero. *)
Lemma lerp_zero (a b : IEEE.float) :
  IEEE.finite a = true -> IEEE.finite (IEEE.fsub b a) = true ->
  IEEE.lerp a b (S754_zero false) = a \/
  exists s s', a = S754_zero s /\ IEEE.lerp a b (S754_zero false) = S754_zero s'.
Proof.
  intros Ha Hd. unfold IEEE.lerp.
  destruct (IEEE.fsub b a) as [s| | |s m e]; try discriminate;
    destruct a as [sa| | |sa ma ea]; try discriminate; simpl;
    try (left; reflexivity);
    right; exists sa; destruct sa, s; simpl; eauto.
Qed.

Lemma lerp_zero_feq (a b : IEEE.float) :
  IEEE.finite a = true -> IEEE.finite (IEEE.fsub b a) = true ->
  IEEE.feq (IEEE.lerp a b (S754_zero false)) a = true.
Proof.
  intros Ha Hd.
  destruct (lerp_zero a b Ha Hd) as [-> | (s & s' & -> & ->)].
  - apply feq_refl. destruct a; try discriminate; reflexivity.
  - reflexivity.
Qed.

Lemma wrap_aware_zero_feq (a b : IEEE.float) :
  IEEE.finite a = true -> IEEE.finite (IEEE.fsub b a) = true ->
  IEEE.apart a b = false -> IEEE.fgt (IEEE.to_double a) IEEE.two_pi = false ->
  IEEE.feq (IEEE.wrap_aware a b (S754_zero false)) a = true.
Proof.
  intros Ha Hd Hap Hle. unfold IEEE.wrap_aware. rewrite Hap. simpl.
  destruct (lerp_zero a b Ha Hd) as [-> | (s & s' & -> & ->)].
  - rewrite Hle. apply feq_refl. destruct a; try discriminate; reflexivity.
  - destruct s'; reflexivity.
Qed.

(** Every sample frequency of an ascending vector that is a number is
    within its range. *)
Lemma IEEE_ascending_in_range (v : IEEE.SParameterVector) i p :
  IEEE.strictly_ascending v -> v !! i = Some p ->
  IEEE.is_nan (IEEE.m_frequency p) = false -> IEEE.in_range v (IEEE.m_frequency p).
Proof.
  intros Hasc Hi Hnan.
  assert (Hne : v <> []) by (intros ->; discriminate).
  destruct (IEEE_nonempty_ends v Hne) as (first & final & Hfirst & Hfinal).
  exists first, final. repeat split; try assumption.
  - destruct i as [|i].
    + destruct v; [discriminate|]. simpl in *. injection Hi as <-.
      injection Hfirst as <-. now apply fle_refl.
    + apply flt_fle. apply (IEEE_ascending_lookup v 0 (S i)); auto; [lia|].
      destruct v; [discriminate|exact Hfirst].
  - unfold IEEE.highest in Hfinal. rewrite last_lookup in Hfinal.
    pose proof (lookup_lt_Some _ _ _ Hi) as Hlt.
    destruct (Nat.eq_dec i (pred (length v))) as [->|Hneq].
    + assert (final = p) as -> by congruence. now apply fle_refl.
    + apply flt_fle.
      apply (IEEE_ascending_lookup v i (pred (length v))); auto. lia.
Qed.

(** At the frequency of a point that is not the last one, the search
    ends with this point as the low end of its bracket. *)
Lemma IEEE_search_at_sample (v : IEEE.SParameterVector) (i : nat) p :
  IEEE.representable v -> IEEE.strictly_ascending v -> v !! i = Some p ->
  (S i < length v)%nat ->
  IEEE.search_loop (length v) v (IEEE.m_frequency p) (IEEE.size_of v / 2) 0 (IEEE.size_of v - 1)
  = Ret (Z.of_nat i, Z.of_nat (S i)).
Proof.
  intros Hrep Hasc Hi Hlast.
  set (f := IEEE.m_frequency p).
  assert (Hne : v <> []) by (intros ->; discriminate).
  pose proof (IEEE_size_of_pos v Hne) as Hpos.
  destruct (IEEE_nonempty_ends v Hne) as (first & final & Hfirst & Hfinal).
  assert (Hnan : IEEE.is_nan f = false).
  { eapply IEEE_ascending_not_nan; eauto. lia. }
  destruct (IEEE_search_loop_ok v f
              (fun k => exists q, IEEE.at_ v k = Ret q /\ IEEE.fgt (IEEE.m_frequency q) f = false)
              (fun k => exists q, IEEE.at_ v k = Ret q /\ IEEE.flt f (IEEE.m_frequency q) = true)
              Hrep)
    with (fuel := length v) (pos := IEEE.size_of v / 2) (lo := 0)
         (hi := IEEE.size_of v - 1)
    as (lo & hi & Hr & H1 & H2 & H3 & H4 & H5 & H6 & H7); eauto.
  { now apply IEEE_search_inv_init. }
  { unfold IEEE.size_of in *. lia. }
  destruct H6 as (p_lo & Hlo & Hlo_le).
  { exists first. split; [now apply IEEE_lowest_at|].
    apply fle_not_fgt.
    destruct (IEEE_ascending_in_range v i p Hasc Hi Hnan)
      as (first' & _ & Hfirst' & _ & Hge & _).
    assert (first' = first) as -> by congruence. exact Hge. }
  destruct H7 as (p_hi & Hhi & Hhi_gt).
  { exists final. split; [now apply IEEE_highest_at|].
    unfold IEEE.highest in Hfinal. rewrite last_lookup in Hfinal.
    apply (IEEE_ascending_lookup v i (pred (length v))); auto. lia. }
  rewrite Hr.
  apply IEEE_at_Ret in Hlo. destruct Hlo as [Hlo_b Hlo].
  apply IEEE_at_Ret in Hhi. destruct Hhi as [Hhi_b Hhi].
  assert (Hadj : hi = lo + 1) by (apply H5; unfold IEEE.size_of in *; lia).
  assert (Hlo_i : (Z.to_nat lo <= i)%nat).
  { destruct (le_lt_dec (Z.to_nat lo) i) as [|Hlt]; [assumption|].
    pose proof (IEEE_ascending_lookup v i (Z.to_nat lo) p p_lo Hasc Hlt Hi Hlo)
      as Hc.
    unfold IEEE.fgt in Hlo_le. unfold IEEE.flt, f in *. congruence. }
  assert (Hhi_i : (i < Z.to_nat hi)%nat).
  { destruct (le_lt_dec (Z.to_nat hi) i) as [Hge|]; [|assumption].
    exfalso.
    destruct (Nat.eq_dec (Z.to_nat hi) i) as [E|E].
    - rewrite E in Hhi. assert (p_hi = p) as -> by congruence.
      unfold f in Hhi_gt. now rewrite flt_irrefl in Hhi_gt.
    - assert (Hlt : (Z.to_nat hi < i)%nat) by lia.
      pose proof (IEEE_ascending_lookup v (Z.to_nat hi) i p_hi p Hasc Hlt Hhi Hi)
        as Hc.
      apply flt_asym in Hc. unfold f in *. congruence. }
  f_equal. f_equal; lia.
Qed.

(** C10 (amended).  At the frequency of its [i]-th point, when that
    frequency is finite, [InterpolatePoint] on a non-empty, strictly
    ascending vector interpolates between two adjacent points of which
    the [i]-th is one.  For every point but the last, and for the only
    point of a one-point vector, the [i]-th point is the low end and the
    fraction is 0: the call returns an amplitude equal to that point's
    whenever the amplitude and the difference of the two amplitudes are
    finite, and a phase equal to that point's whenever, besides, the two
    phases are not more than π apart and the phase does not exceed 2π.
    For the last point of a vector of two or more points, the [i]-th
    point is the high end, the fraction is [d / d] for the rounded
    difference [d] of the last two frequencies (0 when [d] does not
    exceed [FLT_EPSILON]), and the amplitude is
    [amp_lo + (amp_hi - amp_lo) * fraction] in single precision. *)
Theorem InterpolatePoint_at_sample (v : IEEE.SParameterVector) (i : nat)
    (p : IEEE.SParameterPoint) :
  IEEE.representable v -> IEEE.strictly_ascending v -> v !! i = Some p ->
  IEEE.finite (IEEE.m_frequency p) = true ->
  exists lo hi p_lo p_hi r,
    IEEE.InterpolatePoint v (IEEE.m_frequency p) = Ret r /\
    IEEE.at_ v lo = Ret p_lo /\ IEEE.at_ v hi = Ret p_hi /\
    lo <= hi /\ hi - lo <= 1 /\ (2 <= IEEE.size_of v -> hi = lo + 1) /\
    IEEE.m_frequency r = IEEE.m_frequency p /\
    IEEE.m_amplitude r =
      IEEE.fadd (IEEE.m_amplitude p_lo)
        (IEEE.fmul (IEEE.fsub (IEEE.m_amplitude p_hi) (IEEE.m_amplitude p_lo))
           (IEEE.guarded_position (IEEE.m_frequency p_lo) (IEEE.m_frequency p_hi)
              (IEEE.m_frequency p))) /\
    IEEE.m_phase r =
      IEEE.wrap_aware (IEEE.m_phase p_lo) (IEEE.m_phase p_hi)
        (IEEE.guarded_position (IEEE.m_frequency p_lo) (IEEE.m_frequency p_hi)
           (IEEE.m_frequency p)) /\
    ((S i < length v)%nat \/ length v = 1%nat ->
       lo = Z.of_nat i /\ p_lo = p /\
       IEEE.guarded_position (IEEE.m_frequency p_lo) (IEEE.m_frequency p_hi) (IEEE.m_frequency p)
       = S754_zero false /\
       (IEEE.finite (IEEE.m_amplitude p) = true ->
        IEEE.finite (IEEE.fsub (IEEE.m_amplitude p_hi) (IEEE.m_amplitude p)) = true ->
        IEEE.feq (IEEE.m_amplitude r) (IEEE.m_amplitude p) = true) /\
       (IEEE.finite (IEEE.m_phase p) = true ->
        IEEE.finite (IEEE.fsub (IEEE.m_phase p_hi) (IEEE.m_phase p)) = true ->
        IEEE.apart (IEEE.m_phase p) (IEEE.m_phase p_hi) = false ->
        IEEE.fgt (IEEE.to_double (IEEE.m_phase p)) IEEE.two_pi = false ->
        IEEE.feq (IEEE.m_phase r) (IEEE.m_phase p) = true)) /\
    ((2 <= length v)%nat -> S i = length v ->
       hi = Z.of_nat i /\ lo = Z.of_nat i - 1 /\ p_hi = p /\
       IEEE.guarded_position (IEEE.m_frequency p_lo) (IEEE.m_frequency p_hi) (IEEE.m_frequency p)
       = (let d := IEEE.fsub (IEEE.m_frequency p) (IEEE.m_frequency p_lo) in
          if IEEE.fgt d IEEE.FLT_EPSILON then IEEE.fdiv d d else S754_zero false)).
Proof.
  intros Hrep Hasc Hi Hfin.
  assert (Hnan : IEEE.is_nan (IEEE.m_frequency p) = false).
  { destruct (IEEE.m_frequency p); try discriminate; reflexivity. }
  pose proof (IEEE_ascending_in_range v i p Hasc Hi Hnan) as Hin.
  destruct (IEEE_InterpolatePoint_located v _ Hrep Hasc Hin)
    as (lo & hi & p_lo & p_hi & Hr & H0 & H1 & H2 & H3 & H4 & Hlo & Hhi
        & Hle & Hge & Hres).
  cbv zeta in Hres.
  exists lo, hi, p_lo, p_hi. eexists. split; [exact Hres|].
  split; [exact Hlo|]. split; [exact Hhi|].
  split; [exact H1|]. split; [exact H3|]. split; [exact H4|].
  cbn [IEEE.m_frequency IEEE.m_amplitude IEEE.m_phase].
  split; [reflexivity|]. split; [reflexivity|]. split; [reflexivity|].
  pose proof (lookup_lt_Some _ _ _ Hi) as Hlt.
  split.
  - intros Hcase.
    assert (lo = Z.of_nat i) as ->.
    { destruct Hcase as [Hnl | Hone].
      - pose proof (IEEE_search_at_sample v i p Hrep Hasc Hi Hnl) as Hr'.
        rewrite Hr in Hr'. now injection Hr' as -> _.
      - unfold IEEE.size_of in *. lia. }
    assert (p_lo = p) as ->.
    { apply IEEE_at_Ret in Hlo. rewrite Nat2Z.id in Hlo. destruct Hlo. congruence. }
    split; [reflexivity|]. split; [reflexivity|].
    rewrite guarded_position_low by assumption.
    split; [reflexivity|]. split.
    + intros Ha Hd. now apply lerp_zero_feq.
    + intros Ha Hd Hap Hle2. now apply wrap_aware_zero_feq.
  - intros Hlen Hlast.
    assert (hi = Z.of_nat i) as ->.
    { destruct (Z.eq_dec hi (Z.of_nat i)) as [|Hneq]; [assumption|]. exfalso.
      apply IEEE_at_Ret in Hhi. destruct Hhi as [Hhi_b Hhi].
      assert (Hlt' : (Z.to_nat hi < i)%nat) by (unfold IEEE.size_of in *; lia).
      pose proof (IEEE_ascending_lookup v (Z.to_nat hi) i p_hi p Hasc Hlt' Hhi Hi)
        as Hc.
      pose proof (fle_flt_trans _ _ _ Hge Hc) as Hc'.
      now rewrite flt_irrefl in Hc'. }
    assert (p_hi = p) as ->.
    { apply IEEE_at_Ret in Hhi. rewrite Nat2Z.id in Hhi. destruct Hhi. congruence. }
    split; [reflexivity|].
    split; [unfold IEEE.size_of in *; lia|].
    split; reflexivity.
Qed.

Lemma InterpolatePoint_at_sample_witness :
  let v := [IEEE.mkPoint (IEEE.float_of_Z 1000000000) (IEEE.float_of_ratio 1 2) (IEEE.float_of_Z 0);
            IEEE.mkPoint (IEEE.float_of_Z 2000000000) (IEEE.float_of_ratio 4 5) (IEEE.float_of_Z 3);
            IEEE.mkPoint (IEEE.float_of_Z 3000000000) (IEEE.float_of_ratio 1 5) (IEEE.float_of_Z (-3));
            IEEE.mkPoint (IEEE.float_of_Z 4000000000) (IEEE.float_of_ratio 1 10) (IEEE.float_of_Z 9)] in
  IEEE.representable v /\ IEEE.strictly_ascending v /\
  IEEE.finite (IEEE.float_of_Z 2000000000) = true /\
  IEEE.finite (IEEE.float_of_Z 4000000000) = true /\
  (exists r, IEEE.InterpolatePoint v (IEEE.float_of_Z 2000000000) = Ret r /\
     IEEE.feq (IEEE.m_amplitude r) (IEEE.float_of_ratio 4 5) = true /\
     IEEE.fmt (IEEE.to_double (IEEE.m_phase r)) = "3.000000") /\
  (exists r, IEEE.InterpolatePoint v (IEEE.float_of_Z 4000000000) = Ret r /\
     IEEE.fmt (IEEE.to_double (IEEE.m_amplitude r)) = "0.100000" /\
     IEEE.fmt (IEEE.to_double (IEEE.m_phase r)) = "2.716815").
Proof.
  intros v.
  assert (H1 : IEEE.representable v) by reflexivity.
  assert (H2 : IEEE.strictly_ascending v).
  { simpl. repeat split; reflexivity. }
  assert (H3 : IEEE.finite (IEEE.float_of_Z 2000000000) = true) by reflexivity.
  assert (H4 : IEEE.finite (IEEE.float_of_Z 4000000000) = true) by reflexivity.
  split; [exact H1|]. split; [exact H2|]. split; [exact H3|].
  split; [exact H4|]. split.
  - destruct (InterpolatePoint_at_sample v 1 _ H1 H2 eq_refl H3)
      as (lo & hi & p_lo & p_hi & r & Hr & Hlo & Hhi & _ & _ & Hadj & _ & _ & _
          & Hlow & _).
    exists r. split; [exact Hr|].
    destruct Hlow as (-> & -> & _ & Hamp & _); [left; simpl; lia|].
    rewrite Hadj in Hhi by (unfold IEEE.size_of; simpl; lia).
    vm_compute in Hhi. injection Hhi as <-.
    split; [apply Hamp; reflexivity|].
    vm_compute in Hr. injection Hr as <-. vm_compute. reflexivity.
  - destruct (InterpolatePoint_at_sample v 3 _ H1 H2 eq_refl H4)
      as (lo & hi & p_lo & p_hi & r & Hr & _).
    exists r. split; [exact Hr|].
    vm_compute in Hr. injection Hr as <-. split; vm_compute; reflexivity.
Defined.

(** C10 as stated fails.  At the last point of a vector the amplitude
    is [amp_lo + (amp_hi - amp_lo) * 1] in single precision: with the
    amplitudes [1e10] and [1] the difference rounds to [-1e10] and the
    call returns 0, not 1.  And at the higher of two points less than
    [FLT_EPSILON] apart the call returns the amplitude of the lower
    point. *)
Lemma InterpolatePoint_at_sample_not_identity :
  (let v := [IEEE.mkPoint (IEEE.float_of_Z 1000000000) (IEEE.float_of_Z 10000000000) (S754_zero false);
             IEEE.mkPoint (IEEE.float_of_Z 2000000000) (IEEE.float_of_Z 1) (S754_zero false)] in
   IEEE.representable v /\ IEEE.strictly_ascending v /\
   exists p r,
     v !! 1%nat = Some p /\
     IEEE.InterpolatePoint v (IEEE.m_frequency p) = Ret r /\
     IEEE.m_amplitude p = IEEE.float_of_Z 1 /\
     IEEE.m_amplitude r = S754_zero false /\
     IEEE.feq (IEEE.m_amplitude r) (IEEE.m_amplitude p) = false) /\
  (let v := [IEEE.mkPoint (S754_zero false) (IEEE.float_of_Z 1) (S754_zero false);
             IEEE.mkPoint (IEEE.float_of_ratio 1 16777216) (IEEE.float_of_Z 2) (S754_zero false)] in
   IEEE.representable v /\ IEEE.strictly_ascending v /\
   exists p r,
     v !! 1%nat = Some p /\
     IEEE.InterpolatePoint v (IEEE.m_frequency p) = Ret r /\
     IEEE.m_amplitude p = IEEE.float_of_Z 2 /\
     IEEE.m_amplitude r = IEEE.float_of_Z 1 /\
     IEEE.feq (IEEE.m_amplitude r) (IEEE.m_amplitude p) = false).
Proof.
  split; intros v.
  - split; [reflexivity|].
    split; [simpl; split; [reflexivity|exact I]|].
    eexists _, _. split; [reflexivity|].
    split; [vm_compute; reflexivity|].
    repeat split; vm_compute; reflexivity.
  - split; [reflexivity|].
    split; [simpl; split; [reflexivity|exact I]|].
    eexists _, _. split; [reflexivity|].
    split; [vm_compute; reflexivity|].
    repeat split; vm_compute; reflexivity.
Qed.

(** ** Cascading *)






(** ** GetGroupDelay *)

(** X7.  Whenever [bin + 2] is the index of a point, [GetGroupDelay]
    returns the difference of the phases at [bin] and at [bin + 2]
    divided by the difference of their frequencies times 2π: the point in
    between is skipped.  The differences, the product by 2 and the
    quotient are single-precision operations; the product by [M_PI] is
    made in double precision and rounded to single precision.  Two equal
    frequencies make the divisor zero and the result an infinity or
    NaN. *)
Theorem GetGroupDelay_two_ahead (v : IEEE.SParameterVector) (bin : nat) a b :
  IEEE.representable v -> v !! bin = Some a -> v !! S (S bin) = Some b ->
  IEEE.GetGroupDelay v (Z.of_nat bin) =
    Ret (IEEE.fdiv (IEEE.fsub (IEEE.m_phase a) (IEEE.m_phase b))
           (IEEE.to_float
              (IEEE.dmul (IEEE.to_double (IEEE.fmul (IEEE.fsub (IEEE.m_frequency b) (IEEE.m_frequency a))
                                    (IEEE.float_of_Z 2)))
                    IEEE.M_PI))).
Proof.
  intros Hrep Ha Hb. unfold IEEE.GetGroupDelay.
  pose proof (lookup_lt_Some _ _ _ Hb) as Hlt.
  unfold IEEE.representable, IEEE.size_of in *.
  rewrite (wrap_small (Z.of_nat bin + 1)) by lia.
  rewrite (wrap_small (Z.of_nat bin + 1 + 1)) by lia.
  destruct (Z.of_nat (length v) <=? Z.of_nat bin + 1) eqn:E;
    [apply Z.leb_le in E; lia|].
  rewrite (IEEE_at_nat v bin a Ha). simpl.
  replace (Z.of_nat bin + 1 + 1) with (Z.of_nat (S (S bin))) by lia.
  rewrite (IEEE_at_nat v _ b Hb). reflexivity.
Qed.

Lemma GetGroupDelay_two_ahead_witness :
  let v := [IEEE.mkPoint (IEEE.float_of_Z 1) (IEEE.float_of_Z 1) (IEEE.float_of_Z 3);
            IEEE.mkPoint (IEEE.float_of_Z 2) (IEEE.float_of_Z 1) (IEEE.float_of_Z 100);
            IEEE.mkPoint (IEEE.float_of_Z 3) (IEEE.float_of_Z 1) (IEEE.float_of_Z 1)] in
  IEEE.representable v /\
  exists d, IEEE.GetGroupDelay v 0 = Ret d /\ IEEE.fmt (IEEE.to_double d) = "0.159155" /\
  IEEE.GetGroupDelay
    [IEEE.mkPoint (IEEE.float_of_Z 1) (IEEE.float_of_Z 1) (IEEE.float_of_Z 3);
     IEEE.mkPoint (IEEE.float_of_Z 2) (IEEE.float_of_Z 1) (IEEE.float_of_Z 100);
     IEEE.mkPoint (IEEE.float_of_Z 1) (IEEE.float_of_Z 1) (IEEE.float_of_Z 1)] 0
  = Ret (S754_infinity false).
Proof.
  intros v.
  assert (H1 : IEEE.representable v) by reflexivity.
  split; [exact H1|].
  eexists. split; [exact (GetGroupDelay_two_ahead v 0 _ _ H1 eq_refl eq_refl)|].
  split; vm_compute; reflexivity.
Defined.

(** ** The rounding at work *)

(** The phases [3.1415925] and [-1.325e-07] are less than π apart, but
    their difference rounds to the [float] above [M_PI]: 2π is added to
    the smaller phase, and halfway between the two [InterpolatePhase]
    returns [4.712389], the long way round, where the plain interpolation
    gives [1.570796]. *)
Lemma InterpolatePhase_rounded_difference :
  let phase_lo := S754_finite false 13176794 (-22) in
  let phase_hi := IEEE.float_of_ratio (-1325) 10000000000 in
  IEEE.fmt (IEEE.to_double phase_lo) = "3.141593" /\
  (IEEE.value phase_lo - IEEE.value phase_hi < IEEE.value IEEE.M_PI)%Q /\
  IEEE.apart phase_lo phase_hi = true /\
  IEEE.fmt (IEEE.to_double (IEEE.InterpolatePhase phase_lo phase_hi (IEEE.float_of_ratio 1 2)))
  = "4.712389" /\
  IEEE.fmt (IEEE.to_double (IEEE.lerp phase_lo phase_hi (IEEE.float_of_ratio 1 2))) = "1.570796".
Proof. repeat split; vm_compute; reflexivity. Qed.

(** The sum of the phases [3.1415925] and [1.3e-07] rounds to the
    [float] above [M_PI], and is re-wrapped to [-3.1415925]. *)
Lemma rewrap_rounded_sum :
  let s := IEEE.fadd (S754_finite false 13176794 (-22))
                (IEEE.float_of_ratio 13 100000000) in
  s = S754_finite false 13176795 (-22) /\
  IEEE.fgt (IEEE.to_double s) IEEE.M_PI = true /\
  IEEE.rewrap s = S754_finite true 13176794 (-22).
Proof. repeat split; vm_compute; reflexivity. Qed.

(** ** The text of the export *)

Lemma fmt_plain (c : ascii) (x : IEEE.double) :
  (c = space \/ c = "010"%char) -> free_of c (IEEE.fmt x).
Proof.
  intros Hc. destruct x as [[]|[]| |s m e];
    try (destruct Hc as [-> | ->]; simpl; repeat split; discriminate).
  now apply fmt_f_plain.
Qed.

Lemma IEEE_row_text_one_line (row : list IEEE.double) :
  free_of "010"%char (IEEE.row_text row).
Proof.
  apply free_of_join_fields; [discriminate|].
  apply Forall_fmap. apply Forall_forall. intros x _.
  apply fmt_plain. auto.
Qed.

Lemma IEEE_row_text_fields (row : list IEEE.double) :
  row <> [] -> split_on space (IEEE.row_text row) = IEEE.fmt <$> row.
Proof.
  intros Hne. apply split_on_join_fields.
  - destruct row; [congruence | discriminate].
  - apply Forall_fmap. apply Forall_forall. intros x _.
    apply fmt_plain. auto.
Qed.

Lemma IEEE_export_rows_length scale r2d (s11 s21 s12 s22 : IEEE.SParameterVector) :
  (length s11 <= length s21)%nat -> (length s11 <= length s12)%nat ->
  (length s11 <= length s22)%nat ->
  length (IEEE.export_rows scale r2d s11 s21 s12 s22) = length s11.
Proof.
  revert s21 s12 s22. induction s11 as [|p11 s11 IH]; intros s21 s12 s22.
  - reflexivity.
  - destruct s21 as [|p21 s21]; [simpl; lia|].
    destruct s12 as [|p12 s12]; [simpl; lia|].
    destruct s22 as [|p22 s22]; [simpl; lia|].
    simpl. intros H1 H2 H3. rewrite IH; lia.
Qed.

Lemma IEEE_export_rows_lookup scale r2d (s11 s21 s12 s22 : IEEE.SParameterVector) :
  forall i p11 p21 p12 p22,
    s11 !! i = Some p11 -> s21 !! i = Some p21 ->
    s12 !! i = Some p12 -> s22 !! i = Some p22 ->
    IEEE.export_rows scale r2d s11 s21 s12 s22 !! i
    = Some (IEEE.line_values scale r2d p11 p21 p12 p22).
Proof.
  revert s21 s12 s22. induction s11 as [|q11 s11 IH];
    intros s21 s12 s22 i p11 p21 p12 p22 H1 H2 H3 H4; [discriminate|].
  destruct s21 as [|q21 s21]; [discriminate|].
  destruct s12 as [|q12 s12]; [discriminate|].
  destruct s22 as [|q22 s22]; [discriminate|].
  destruct i as [|i]; simpl in *.
  - congruence.
  - now apply IH.
Qed.

(** The loop of [SaveToFile] appends the rows from index [i] on. *)
Lemma IEEE_write_lines_ok scale r2d (s11 s21 s12 s22 : IEEE.SParameterVector) :
  IEEE.representable s11 ->
  (length s11 <= length s21)%nat -> (length s11 <= length s12)%nat ->
  (length s11 <= length s22)%nat ->
  forall todo (i : nat) fp,
    (i + todo = length s11)%nat ->
    IEEE.write_lines todo (Z.of_nat i) scale r2d s11 s21 s12 s22 fp
    = Ret (fp +:+ file_lines (IEEE.row_text <$>
             IEEE.export_rows scale r2d (drop i s11) (drop i s21)
               (drop i s12) (drop i s22))).
Proof.
  intros Hrep H21 H12 H22.
  induction todo as [|todo IH]; intros i fp Hi.
  - simpl. rewrite (drop_ge s11) by lia. simpl. now rewrite append_empty_r.
  - simpl.
    destruct (lookup_lt_is_Some_2 s11 i) as [p11 E11]; [lia|].
    destruct (lookup_lt_is_Some_2 s21 i) as [p21 E21]; [lia|].
    destruct (lookup_lt_is_Some_2 s12 i) as [p12 E12]; [lia|].
    destruct (lookup_lt_is_Some_2 s22 i) as [p22 E22]; [lia|].
    rewrite (IEEE_at_nat _ _ _ E11), (IEEE_at_nat _ _ _ E21),
            (IEEE_at_nat _ _ _ E12), (IEEE_at_nat _ _ _ E22). simpl.
    unfold IEEE.representable, IEEE.size_of in Hrep.
    rewrite wrap_small by lia.
    replace (Z.of_nat i + 1) with (Z.of_nat (S i)) by lia.
    rewrite IH by lia.
    rewrite (drop_S _ _ _ E11), (drop_S _ _ _ E21),
            (drop_S _ _ _ E12), (drop_S _ _ _ E22).
    simpl. unfold IEEE.data_line, IEEE.row_text. now rewrite !append_assoc.
Qed.

(** ** SaveToFile *)

Lemma IEEE_SaveToFile_two_ports (st : IEEE.store * SParameters) path format freqUnit w :
  m_nports st.2 = 2 ->
  IEEE.SaveToFile st path format freqUnit w =
    if can_open w path then
      s11 ← IEEE.index st (1, 1);
      s12 ← IEEE.index st (1, 2);
      s21 ← IEEE.index st (2, 1);
      s22 ← IEEE.index st (2, 2);
      fp ← IEEE.write_lines (length s11) 0 (IEEE.freq_scale freqUnit) IEEE.rad2deg
             s11 s21 s12 s22 (header_line (freq_text freqUnit));
      Ret (write_file path fp (warned format w))
    else Ret (log (LogError (open_message path)) (warned format w)).
Proof.
  intros Hn. unfold IEEE.SaveToFile, warned. rewrite Hn. simpl.
  destruct (is_mag_angle format); simpl; destruct (can_open w path); reflexivity.
Qed.

Lemma IEEE_SaveToFile_writes (st : IEEE.store * SParameters) path format freqUnit w
    (s11 s21 s12 s22 : IEEE.SParameterVector) :
  m_nports st.2 = 2 -> can_open w path = true ->
  IEEE.exportable st s11 s21 s12 s22 ->
  IEEE.SaveToFile st path format freqUnit w =
    Ret (write_file path (IEEE.table_text freqUnit s11 s21 s12 s22) (warned format w)).
Proof.
  intros Hn Hopen (E11 & E21 & E12 & E22 & Hrep & H21 & H12 & H22).
  rewrite IEEE_SaveToFile_two_ports by assumption.
  rewrite Hopen, E11, E12, E21, E22. simpl.
  rewrite (IEEE_write_lines_ok _ _ s11 s21 s12 s22 Hrep H21 H12 H22 (length s11) 0)
    by reflexivity.
  simpl. unfold IEEE.table_text, header_line, header_text. simpl.
  now rewrite !append_assoc.
Qed.

(** The exported table, line by line and field by field. *)
Lemma IEEE_table_text_lines (freqUnit : FreqUnit)
    (s11 s21 s12 s22 : IEEE.SParameterVector) :
  (length s11 <= length s21)%nat -> (length s11 <= length s12)%nat ->
  (length s11 <= length s22)%nat ->
  exists lines,
    split_on "010"%char (IEEE.table_text freqUnit s11 s21 s12 s22)
      = ("# " +:+ freq_text freqUnit +:+ " S MA R 50.000")
        :: lines ++ [EmptyString] /\
    length lines = length s11 /\
    forall i p11 p21 p12 p22,
      s11 !! i = Some p11 -> s21 !! i = Some p21 ->
      s12 !! i = Some p12 -> s22 !! i = Some p22 ->
      exists line,
        lines !! i = Some line /\
        split_on space line = IEEE.fmt <$> IEEE.nine_values freqUnit p11 p21 p12 p22.
Proof.
  intros H21 H12 H22.
  exists (IEEE.row_text <$> IEEE.export_rows (IEEE.freq_scale freqUnit) IEEE.rad2deg s11 s21 s12 s22).
  split.
  { unfold IEEE.table_text. rewrite split_on_file_lines; [reflexivity|].
    constructor; [apply header_text_one_line|].
    apply Forall_fmap. apply Forall_forall. intros row _.
    apply IEEE_row_text_one_line. }
  split.
  { rewrite length_fmap. now apply IEEE_export_rows_length. }
  intros i p11 p21 p12 p22 E11 E21 E12 E22.
  eexists. rewrite list_lookup_fmap.
  rewrite (IEEE_export_rows_lookup _ _ _ _ _ _ _ _ _ _ _ E11 E21 E12 E22).
  split; [reflexivity|].
  rewrite IEEE_row_text_fields by discriminate. reflexivity.
Qed.

(** C6 (amended).  [SaveToFile] on a model whose port count is not 2 logs
    one error and leaves the files as they were; when the output file
    cannot be opened it logs an error, after the warning if there is one,
    and leaves the files as they were.  When a format other than
    mag-angle is requested, the port count being 2 and the file one that
    can be opened, it does what it does for mag-angle and logs one
    warning more; for a model whose four vectors are present, with S21,
    S12 and S22 at least as long as S11, it logs this warning and nothing
    else and writes the file, the very text written for mag-angle: the
    header line, then for each point of S11 a line of nine fields, the
    frequency scaled by the unit and, for S11, S21, S12, S22 in this
    order, the amplitude and the phase in degrees, each printed by
    [%f]. *)
Theorem SaveToFile_error_handling (st : IEEE.store * SParameters) (path : string)
    (format : ParameterFormat) (freqUnit : FreqUnit) (w : World) :
  (m_nports st.2 <> 2 ->
     exists w', IEEE.SaveToFile st path format freqUnit w = Ret w' /\
       files w' = files w /\
       logged w' = logged w ++ [LogError two_port_message]) /\
  (m_nports st.2 = 2 -> can_open w path = false ->
     exists w', IEEE.SaveToFile st path format freqUnit w = Ret w' /\
       files w' = files w /\
       logged w' =
         logged w
         ++ (if is_mag_angle format then [] else [LogWarning format_message])
         ++ [LogError (open_message path)]) /\
  (m_nports st.2 = 2 -> can_open w path = true -> format <> FORMAT_MAG_ANGLE ->
     IEEE.SaveToFile st path format freqUnit w =
       (w0 ← IEEE.SaveToFile st path FORMAT_MAG_ANGLE freqUnit w;
        Ret (log (LogWarning format_message) w0)) /\
     forall s11 s21 s12 s22, IEEE.exportable st s11 s21 s12 s22 ->
       exists w' text lines,
         IEEE.SaveToFile st path format freqUnit w = Ret w' /\
         logged w' = logged w ++ [LogWarning format_message] /\
         files w' = <[path := text]> (files w) /\
         IEEE.SaveToFile st path FORMAT_MAG_ANGLE freqUnit w
         = Ret (write_file path text w) /\
         split_on "010"%char text
           = ("# " +:+ freq_text freqUnit +:+ " S MA R 50.000")
             :: lines ++ [EmptyString] /\
         length lines = length s11 /\
         forall i p11 p21 p12 p22,
           s11 !! i = Some p11 -> s21 !! i = Some p21 ->
           s12 !! i = Some p12 -> s22 !! i = Some p22 ->
           exists line,
             lines !! i = Some line /\
             length (split_on space line) = 9%nat /\
             (Forall IEEE.printable
                [ IEEE.to_double (IEEE.fmul (IEEE.m_frequency p11) (IEEE.freq_scale freqUnit));
                  IEEE.to_double (IEEE.m_amplitude p11);
                  IEEE.to_double (IEEE.fmul (IEEE.m_phase p11) IEEE.rad2deg);
                  IEEE.to_double (IEEE.m_amplitude p21);
                  IEEE.to_double (IEEE.fmul (IEEE.m_phase p21) IEEE.rad2deg);
                  IEEE.to_double (IEEE.m_amplitude p12);
                  IEEE.to_double (IEEE.fmul (IEEE.m_phase p12) IEEE.rad2deg);
                  IEEE.to_double (IEEE.m_amplitude p22);
                  IEEE.to_double (IEEE.fmul (IEEE.m_phase p22) IEEE.rad2deg) ] ->
              split_on space line =
                [ IEEE.fmt (IEEE.to_double (IEEE.fmul (IEEE.m_frequency p11) (IEEE.freq_scale freqUnit)));
                  IEEE.fmt (IEEE.to_double (IEEE.m_amplitude p11));
                  IEEE.fmt (IEEE.to_double (IEEE.fmul (IEEE.m_phase p11) IEEE.rad2deg));
                  IEEE.fmt (IEEE.to_double (IEEE.m_amplitude p21));
                  IEEE.fmt (IEEE.to_double (IEEE.fmul (IEEE.m_phase p21) IEEE.rad2deg));
                  IEEE.fmt (IEEE.to_double (IEEE.m_amplitude p12));
                  IEEE.fmt (IEEE.to_double (IEEE.fmul (IEEE.m_phase p12) IEEE.rad2deg));
                  IEEE.fmt (IEEE.to_double (IEEE.m_amplitude p22));
                  IEEE.fmt (IEEE.to_double (IEEE.fmul (IEEE.m_phase p22) IEEE.rad2deg)) ])).
Proof.
  split; [|split].
  - intros Hn. unfold IEEE.SaveToFile.
    assert ((m_nports st.2 =? 2) = false) as -> by now apply Z.eqb_neq.
    simpl. eexists. split; [reflexivity|]. split; reflexivity.
  - intros Hn Hopen. rewrite IEEE_SaveToFile_two_ports by assumption.
    rewrite Hopen. eexists. split; [reflexivity|].
    unfold warned. destruct (is_mag_angle format); simpl.
    + split; reflexivity.
    + split; [reflexivity|]. now rewrite <- app_assoc.
  - intros Hn Hopen Hfmt.
    assert (Hma : is_mag_angle format = false).
    { destruct format; [congruence | reflexivity]. }
    split.
    + rewrite !IEEE_SaveToFile_two_ports by assumption.
      rewrite Hopen. unfold warned. rewrite Hma. simpl.
      destruct (IEEE.index st (1, 1)) as [s11| |]; simpl; try reflexivity.
      destruct (IEEE.index st (1, 2)) as [s12| |]; simpl; try reflexivity.
      destruct (IEEE.index st (2, 1)) as [s21| |]; simpl; try reflexivity.
      destruct (IEEE.index st (2, 2)) as [s22| |]; simpl; try reflexivity.
      destruct (IEEE.write_lines _ _ _ _ _ _ _ _ _) as [fp| |]; reflexivity.
    + intros s11 s21 s12 s22 Hexp.
      rewrite !(IEEE_SaveToFile_writes st path _ freqUnit w s11 s21 s12 s22)
        by assumption.
      destruct Hexp as (_ & _ & _ & _ & _ & H21 & H12 & H22).
      destruct (IEEE_table_text_lines freqUnit s11 s21 s12 s22 H21 H12 H22)
        as (lines & Hsplit & Hlen & Hrows).
      eexists _, _, lines. split; [reflexivity|].
      unfold warned. rewrite Hma. simpl.
      split; [reflexivity|]. split; [reflexivity|]. split; [reflexivity|].
      split; [exact Hsplit|]. split; [exact Hlen|].
      intros i p11 p21 p12 p22 E11 E21 E12 E22.
      destruct (Hrows i p11 p21 p12 p22 E11 E21 E12 E22) as (line & Hl & Hf).
      exists line. split; [exact Hl|]. rewrite Hf.
      split; [reflexivity|]. intros _. reflexivity.
Qed.

Lemma SaveToFile_error_handling_witness :
  let s11 := [IEEE.mkPoint (IEEE.float_of_Z 1000000000) (IEEE.float_of_ratio 1 2)
                (IEEE.to_float (IEEE.ddiv IEEE.M_PI (IEEE.double_of_Z 2)))] in
  let s21 := [IEEE.mkPoint (IEEE.float_of_Z 1000000000) (IEEE.float_of_ratio 1 4) (IEEE.float_of_Z 1)] in
  let s12 := [IEEE.mkPoint (IEEE.float_of_Z 1000000000) (IEEE.float_of_ratio 1 8) (IEEE.float_of_Z (-1))] in
  let s22 := [IEEE.mkPoint (IEEE.float_of_Z 1000000000) (IEEE.float_of_ratio 3 4) (IEEE.float_of_Z 0)] in
  let h : IEEE.store :=
    list_to_map [(1%positive, s11); (2%positive, s21);
                 (3%positive, s12); (4%positive, s22)] in
  let pairs : gmap (Z * Z) positive :=
    list_to_map [((1, 1), 1%positive); ((2, 1), 2%positive);
                 ((1, 2), 3%positive); ((2, 2), 4%positive)] in
  let st3 := (h, {| m_params := pairs; m_nports := 3 |}) in
  let st2 := (h, {| m_params := pairs; m_nports := 2 |}) in
  let open := mkWorld ∅ [] (fun _ => true) in
  let closed := mkWorld ∅ [] (fun _ => false) in
  (m_nports st3.2 <> 2 /\
   exists w', IEEE.SaveToFile st3 "out.s2p" FORMAT_MAG_ANGLE FREQ_GHZ open = Ret w' /\
     files w' = ∅ /\ logged w' = [LogError two_port_message]) /\
  (m_nports st2.2 = 2 /\ can_open closed "out.s2p" = false /\
   exists w', IEEE.SaveToFile st2 "out.s2p" (FORMAT_other 1) FREQ_GHZ closed = Ret w' /\
     files w' = ∅ /\
     logged w' = [LogWarning format_message; LogError (open_message "out.s2p")]) /\
  (can_open open "out.s2p" = true /\ FORMAT_other 1 <> FORMAT_MAG_ANGLE /\
   IEEE.exportable st2 s11 s21 s12 s22 /\
   exists w', IEEE.SaveToFile st2 "out.s2p" (FORMAT_other 1) FREQ_GHZ open = Ret w' /\
     logged w' = [LogWarning format_message] /\
     files w' !! "out.s2p" =
       Some ("# GHz S MA R 50.000" +:+ newline +:+
             "1.000000 0.500000 90.000000 0.250000 57.295780 0.125000 -57.295780 0.750000 0.000000"
             +:+ newline)).
Proof.
  intros s11 s21 s12 s22 h pairs st3 st2 open closed.
  assert (H3 : m_nports st3.2 <> 2) by (vm_compute; discriminate).
  assert (H2 : m_nports st2.2 = 2) by reflexivity.
  assert (Hc : can_open closed "out.s2p" = false) by reflexivity.
  assert (Ho : can_open open "out.s2p" = true) by reflexivity.
  assert (Hf : FORMAT_other 1 <> FORMAT_MAG_ANGLE) by discriminate.
  assert (He : IEEE.exportable st2 s11 s21 s12 s22).
  { unfold IEEE.exportable. repeat split; try (vm_compute; reflexivity); simpl; lia. }
  split; [|split].
  - split; [exact H3|].
    destruct (SaveToFile_error_handling st3 "out.s2p" FORMAT_MAG_ANGLE FREQ_GHZ open)
      as [Hports _].
    exact (Hports H3).
  - split; [exact H2|]. split; [exact Hc|].
    destruct (SaveToFile_error_handling st2 "out.s2p" (FORMAT_other 1) FREQ_GHZ closed)
      as (_ & Hopen & _).
    exact (Hopen H2 Hc).
  - split; [exact Ho|]. split; [exact Hf|]. split; [exact He|].
    destruct (SaveToFile_error_handling st2 "out.s2p" (FORMAT_other 1) FREQ_GHZ open)
      as (_ & _ & Hfmt).
    destruct (Hfmt H2 Ho Hf) as [_ Hwrites].
    destruct (Hwrites s11 s21 s12 s22 He)
      as (w' & text & lines & Hr & Hlog & Hfile & _).
    exists w'. split; [exact Hr|]. split; [exact Hlog|].
    vm_compute in Hr. injection Hr as <-. vm_compute. reflexivity.
Defined.

(** C6 as stated fails: for a 2-port model whose S11 has one point and
    whose other three vectors are empty, the request of another format
    makes [SaveToFile] read [s21[0]], which does not exist, after the
    warning; no file is written. *)
Lemma SaveToFile_other_format_ragged :
  let s11 := [IEEE.mkPoint (IEEE.float_of_Z 1000000000) (IEEE.float_of_ratio 1 2) (IEEE.float_of_Z 0)] in
  let h : IEEE.store :=
    list_to_map [(1%positive, s11); (2%positive, []);
                 (3%positive, []); (4%positive, [])] in
  let pairs : gmap (Z * Z) positive :=
    list_to_map [((1, 1), 1%positive); ((2, 1), 2%positive);
                 ((1, 2), 3%positive); ((2, 2), 4%positive)] in
  let st := (h, {| m_params := pairs; m_nports := 2 |}) in
  let w := mkWorld ∅ [] (fun _ => true) in
  m_nports st.2 = 2 /\ can_open w "out.s2p" = true /\
  IEEE.index st (1, 1) = Ret s11 /\ IEEE.index st (2, 1) = Ret [] /\
  IEEE.index st (1, 2) = Ret [] /\ IEEE.index st (2, 2) = Ret [] /\
  IEEE.at_ [] 0 = Fault /\
  IEEE.SaveToFile st "out.s2p" (FORMAT_other 1) FREQ_GHZ w = Fault.
Proof.
  vm_compute. repeat split.
Qed.



